(** * Board engine of the falling-block game (script.js)

    A shallow embedding of the pure board-simulation functions of
    [script.js] together with the properties of its specification.

    Conventions of the embedding.
    - A board is a JavaScript array of columns, a column an array of
      numbers; index 0 of a column is its top row.  Arrays are lists,
      cells are integers ([Z]); a cell is _empty_ when it is [0] and
      _occupied_ otherwise (JavaScript truthiness of a number).
    - Reading a property of [undefined] raises a [TypeError]; functions
      that may do so return a [Res].
    - Timers, rendering to the DOM and the random generator are outside
      the embedding; the tick takes the freshly generated float as an
      argument. *)

From stdpp Require Import gmap list strings sorting.
From Stdlib Require Import ZArith Lia DecimalString DecimalZ.

Local Open Scope Z_scope.

(** ** JavaScript values and arrays *)

Inductive error : Type :=
| TypeError     (* property read on undefined *)
| RangeError    (* new Array(n) with n < 0 *)
| SparseArray.  (* a write beyond the end of an array, which would leave
                   holes; dropFloatingTiles is shown never to do it *)

Inductive Res (A : Type) : Type :=
| Ok (a : A)
| Err (e : error).
Arguments Ok {A} a.
Arguments Err {A} e.

#[global] Instance res_ret : MRet Res := λ A a, Ok a.
#[global] Instance res_bind : MBind Res := λ A B k r,
  match r with
  | Ok a => k a
  | Err e => Err e
  end.

(** The numbers that can be stored in the [lastIndexes] object of
    [dropFloatingTiles]: an integer or [NaN].  A missing key reads as
    [undefined], which is [None] of the map lookup. *)
Inductive jsnum : Type :=
| NaN
| Num (n : Z).

(** [v || w] takes [w] exactly when [v] is falsy: [undefined], [NaN]
    and [0] are falsy. *)
Definition js_or (v : option jsnum) (w : Z) : Z :=
  match v with
  | Some (Num n) => if n =? 0 then w else n
  | Some NaN | None => w
  end.

(** [v - 1]; [undefined - 1] and [NaN - 1] are [NaN]. *)
Definition js_pred (v : option jsnum) : jsnum :=
  match v with
  | Some (Num n) => Num (n - 1)
  | Some NaN | None => NaN
  end.

(** [cells.lastIndexOf(v)]: the highest index holding [v], or [-1]. *)
Fixpoint lastIndexOf (cells : list Z) (v : Z) : Z :=
  match cells with
  | [] => -1
  | c :: rest =>
      let r := lastIndexOf rest v in
      if 0 <=? r then r + 1 else if c =? v then 0 else -1
  end.

(** [arr[i]] for an integer [i]: [None] stands for [undefined]. *)
Definition js_get {A} (arr : list A) (i : Z) : option A :=
  if i <? 0 then None else arr !! Z.to_nat i.

(** [arr[i] = v].  A negative [i] creates the property ["-1"] (say) on
    the array object and leaves its elements and length alone; [i]
    equal to the length appends. *)
Definition js_set (arr : list Z) (i v : Z) : Res (list Z) :=
  if i <? 0 then Ok arr
  else if i <? Z.of_nat (length arr) then Ok (<[Z.to_nat i := v]> arr)
  else if i =? Z.of_nat (length arr) then Ok (arr ++ [v])
  else Err SparseArray.

(** ** Boards, tile groups and floats *)

Abbreviation Board := (list (list Z)).
Abbreviation TileGroup := (list (Z * Z)).

Record Float : Type := mkFloat {
  value : TileGroup;
  x : Z;
  y : Z
}.

(** [JSON.parse(JSON.stringify(board))]: a deep copy, the same value. *)
Definition cloneBoard (board : Board) : Board := board.

(** ** dropFloatingTiles *)

(** The body of the [forEach] callback.  [cells] aliases the column
    inside [nextBoard], so the write goes to that column of the board. *)
Definition dropTile (fx : Z) (st : Board * gmap Z jsnum) (tile : Z * Z)
  : Res (Board * gmap Z jsnum) :=
  let '(nextBoard, lastIndexes) := st in
  let '(tx, _) := tile in
  match js_get nextBoard (tx + fx) with
  | None => Err TypeError
  | Some cells =>
      let dropIndex := js_or (lastIndexes !! tx) (lastIndexOf cells 0) in
      let lastIndexes' := <[tx := js_pred (lastIndexes !! tx)]> lastIndexes in
      cells' ← js_set cells dropIndex 1;
      Ok (<[Z.to_nat (tx + fx) := cells']> nextBoard, lastIndexes')
  end.

Fixpoint dropTiles (fx : Z) (st : Board * gmap Z jsnum) (tiles : TileGroup)
  : Res (Board * gmap Z jsnum) :=
  match tiles with
  | [] => Ok st
  | t :: rest => st' ← dropTile fx st t; dropTiles fx st' rest
  end.

Definition dropFloatingTiles (board : Board) (float : option Float) : Res Board :=
  let nextBoard := cloneBoard board in
  match float with
  | None => Ok nextBoard
  | Some f =>
      st ← dropTiles (x f) (nextBoard, ∅) (value f);
      Ok st.1
  end.

(** ** iterBoard *)

(** [cells.filter((_, i) => keep i)], the index counted from [i]. *)
Fixpoint filter_index {A} (keep : Z → bool) (i : Z) (cells : list A) : list A :=
  match cells with
  | [] => []
  | c :: rest =>
      if keep i then c :: filter_index keep (i + 1) rest
      else filter_index keep (i + 1) rest
  end.

(** The inner function [iterColumn] of [iterBoard]: one gravity step
    of a single column. *)
Definition iterColumn (cells : list Z) : list Z :=
  let lastEmptySpace := lastIndexOf cells 0 in
  if lastEmptySpace <? 0 then cells
  else 0 :: filter_index (λ i, negb (i =? lastEmptySpace)) 0 cells.

(** Truthiness of a cell read: [undefined] and [0] are falsy. *)
Definition truthy (v : option Z) : bool :=
  match v with
  | Some n => negb (n =? 0)
  | None => false
  end.

(** The callback of [some] in [iterBoard]; [column] is read from the
    board _before_ compaction. *)
Definition collides (board : Board) (nextFloat : Float) (tile : Z * Z) : Res bool :=
  let '(tx, ty) := tile in
  match js_get board (tx + x nextFloat) with
  | None => Err TypeError
  | Some column =>
      let nextY := ty + y nextFloat in
      Ok (truthy (js_get column nextY) || (nextY =? Z.of_nat (length column)))
  end.

(** [arr.some(p)] stops at the first element on which [p] holds. *)
Fixpoint js_some {A} (p : A → Res bool) (arr : list A) : Res bool :=
  match arr with
  | [] => Ok false
  | a :: rest => b ← p a; if b : bool then Ok true else js_some p rest
  end.

Definition advance (f : Float) : Float := mkFloat (value f) (x f) (y f + 1).

Definition iterBoard (board : Board) (float : option Float)
  : Res (Board * option Float) :=
  let nextBoard := iterColumn <$> board in
  let nextFloat := advance <$> float in
  shouldDrop ← match nextFloat with
               | None => Ok false
               | Some nf => js_some (collides board nf) (value nf)
               end;
  if shouldDrop : bool
  then dropped ← dropFloatingTiles nextBoard float; Ok (dropped, None)
  else Ok (nextBoard, nextFloat).

(** ** newBoard, boardDiff, copyBoardAIntoB *)

(** [newBoard(width, height)] with the default [fillCell = () => 0]. *)
Definition newBoard (width height : nat) : Board :=
  replicate width (replicate height 0).

(** [arr.forEach((a, i) => ...)] threading the mutated state [s]; the
    index is counted from [i]. *)
Fixpoint forEach {A St} (body : St → A → Z → Res St) (i : Z) (arr : list A) (s : St)
  : Res St :=
  match arr with
  | [] => Ok s
  | a :: rest => s' ← body s a i; forEach body (i + 1) rest s'
  end.

(** [target[i][j] = v] on a board. *)
Definition board_set (target : Board) (i j v : Z) : Res Board :=
  match js_get target i with
  | None => Err TypeError
  | Some cells =>
      cells' ← js_set cells j v;
      Ok (<[Z.to_nat i := cells']> target)
  end.

(** [Number(a != b)] where [b] may be [undefined]. *)
Definition differs (a : Z) (b : option Z) : Z :=
  match b with
  | Some n => if a =? n then 0 else 1
  | None => 1
  end.

Definition boardDiff (boardA boardB : Board) : Res Board :=
  match boardA with
  | [] => Err TypeError
  | first :: _ =>
      let diff := cloneBoard (newBoard (length boardA) (length first)) in
      forEach (λ diff column i,
        forEach (λ diff cellValue j,
          match js_get boardB i with
          | None => Err TypeError
          | Some columnB => board_set diff i j (differs cellValue (js_get columnB j))
          end) 0 column diff) 0 boardA diff
  end.

Definition copyBoardAIntoB (boardA boardB : Board) : Res Board :=
  forEach (λ boardB column i,
    forEach (λ boardB v j, board_set boardB i j v) 0 column boardB) 0 boardA boardB.

(** ** getBottomContiguous, isGameOver, removeBottomRow *)

(** The inner [for j] loop at row [row]: is every [board[j][row]] truthy? *)
Definition row_full (board : Board) (row : Z) : bool :=
  forallb (λ column, truthy (js_get column row)) board.

(** The outer [for i] loop with [todo] iterations left. *)
Fixpoint bottomLoop (board : Board) (height : Z) (todo : nat) (i : Z) : Z :=
  match todo with
  | O => i
  | S todo' =>
      if row_full board (height - i - 1)
      then bottomLoop board height todo' (i + 1)
      else i
  end.

Definition getBottomContiguous (board : Board) : Res Z :=
  match board with
  | [] => Err TypeError
  | first :: _ =>
      Ok (bottomLoop board (Z.of_nat (length first)) (length first) 0)
  end.

Definition isGameOver (board : Board) : bool :=
  existsb (λ cells, lastIndexOf cells 0 <? 0) board.

(** [cells.slice(0, e)]. *)
Definition js_slice0 {A} (cells : list A) (e : Z) : list A :=
  let len := Z.of_nat (length cells) in
  let final := if e <? 0 then Z.max (len + e) 0 else Z.min e len in
  take (Z.to_nat final) cells.

Fixpoint res_map {A B} (f : A → Res B) (arr : list A) : Res (list B) :=
  match arr with
  | [] => Ok []
  | a :: rest => b ← f a; bs ← res_map f rest; Ok (b :: bs)
  end.

(** The inner function [removeLastCell]; [new Array(count)] raises a
    [RangeError] for a negative [count].  It also does from 2^32 on,
    above the length of any array; that is left out, and what is said
    of a [count] above the height keeps it under 2^32. *)
Definition removeLastCell (count : Z) (cells : list Z) : Res (list Z) :=
  if count <? 0 then Err RangeError
  else Ok (replicate (Z.to_nat count) 0 ++ js_slice0 cells (- count)).

Definition removeBottomRow (board : Board) (count : Z) : Res Board :=
  res_map (removeLastCell count) board.

(** ** Tile-group geometry *)

(** [Math.max(...xs) - Math.min(...xs)].  For an empty [xs] this is
    [-Infinity - Infinity = -Infinity], represented by [None]. *)
Definition span (xs : list Z) : option Z :=
  match xs with
  | [] => None
  | a :: rest => Some (fold_left Z.max rest a - fold_left Z.min rest a)
  end.

Definition getTileGroupWidth (value : TileGroup) : option Z :=
  span (map fst value).

Definition getTileGroupHeight (value : TileGroup) : option Z :=
  span (map snd value).

(** [Math.min(n, size - width - 1)]; with [width = -Infinity] the
    bound is [+Infinity] and the minimum is [n]. *)
Definition min_bound (n size : Z) (width : option Z) : Z :=
  match width with
  | Some w => Z.min n (size - w - 1)
  | None => n
  end.

(** [minX] and [minY] are only used inside the [map] callback, which
    is never called on an empty group. *)
Definition normaliseTileGroup (tileGroup : TileGroup) : TileGroup :=
  match tileGroup with
  | [] => []
  | first :: rest =>
      let minX := fold_left Z.min (map fst rest) first.1 in
      let minY := fold_left Z.min (map snd rest) first.2 in
      map (λ tile, (tile.1 - minX, tile.2 - minY)) tileGroup
  end.

Definition rotateTileGroup (tileGroup : TileGroup) : TileGroup :=
  normaliseTileGroup (map (λ tile, (- tile.2, tile.1)) tileGroup).

(** ** The game state and the action phase *)

(** The keys the [keydown] listener lets into the queue: the four
    values of the frozen [actions] object. *)
Inductive action : Type :=
| ArrowLeft    (* actions.left *)
| ArrowRight   (* actions.right *)
| ArrowDown    (* actions.down *)
| ArrowUp.     (* actions.rotate *)

(** The mutable variables of the enclosing closure. *)
Record Game : Type := mkGame {
  board : Board;
  boardHighlight : Board;
  float : option Float;
  userActions : list action
}.

(** Computations that read and write the closure variables and may
    raise; the state at the time of the exception is kept. *)
Definition M (A : Type) : Type := Game → Res A * Game.

#[global] Instance m_ret : MRet M := λ A a g, (Ok a, g).
#[global] Instance m_bind : MBind M := λ A B k m g,
  match m g with
  | (Ok a, g') => k a g'
  | (Err e, g') => (Err e, g')
  end.

Definition lift {A} (r : Res A) : M A := λ g, (r, g).
Definition read {A} (field : Game → A) : M A := λ g, (Ok (field g), g).
Definition set_board (b : Board) : M unit :=
  λ g, (Ok tt, mkGame b (boardHighlight g) (float g) (userActions g)).
Definition set_boardHighlight (h : Board) : M unit :=
  λ g, (Ok tt, mkGame (board g) h (float g) (userActions g)).
Definition set_float (f : option Float) : M unit :=
  λ g, (Ok tt, mkGame (board g) (boardHighlight g) f (userActions g)).
(** [userActions.splice(0)]: empties the queue and returns what it held. *)
Definition splice_userActions : M (list action) :=
  λ g, (Ok (userActions g), mkGame (board g) (boardHighlight g) (float g) []).

(** The callback of [userActions.splice(0).forEach]; the local [board]
    and [float] of [applyActions] are threaded as [st]. *)
Definition applyAction (boardWidth boardHeight : Z) (floatWidth : option Z)
    (st : Board * option Float) (a : action) : M (Board * option Float) :=
  match st.2 with
  | None => mret st
  | Some fl =>
      match a with
      | ArrowLeft =>
          mret (st.1, Some (mkFloat (value fl) (Z.max (x fl - 1) 0) (y fl)))
      | ArrowRight =>
          mret (st.1, Some (mkFloat (value fl)
                              (min_bound (x fl + 1) boardWidth floatWidth) (y fl)))
      | ArrowDown =>
          nextBoard ← lift (dropFloatingTiles st.1 (Some fl));
          diff ← lift (boardDiff st.1 nextBoard);
          _ ← set_boardHighlight diff;
          merged ← lift (copyBoardAIntoB nextBoard st.1);
          mret (merged, None)
      | ArrowUp =>
          let rotated := rotateTileGroup (value fl) in
          let rotatedFloatWidth := getTileGroupWidth rotated in
          let rotatedFloatHeight := getTileGroupHeight rotated in
          mret (st.1, Some (mkFloat rotated
                              (min_bound (x fl) boardWidth rotatedFloatWidth)
                              (min_bound (y fl) boardHeight rotatedFloatHeight)))
      end
  end.

Fixpoint applyEach (body : Board * option Float → action → M (Board * option Float))
    (queue : list action) (st : Board * option Float) : M (Board * option Float) :=
  match queue with
  | [] => mret st
  | a :: rest => st' ← body st a; applyEach body rest st'
  end.

Definition applyActions (b : Board) (f : option Float) : M (Board * option Float) :=
  if isGameOver b then mret (b, f)
  else
    let board := cloneBoard b in
    let boardWidth := Z.of_nat (length board) in
    match board with
    | [] => lift (Err TypeError)
    | first :: _ =>
        let boardHeight := Z.of_nat (length first) in
        match f with
        | Some fl =>
            let floatWidth := getTileGroupWidth (value fl) in
            queue ← splice_userActions;
            applyEach (applyAction boardWidth boardHeight floatWidth) queue (board, Some fl)
        | None => mret (board, None)
        end
    end.

(** ** Notions of the specification *)

(** Number of empty cells of a column. *)
Fixpoint empties (cells : list Z) : nat :=
  match cells with
  | [] => O
  | c :: rest => if c =? 0 then S (empties rest) else empties rest
  end.

(** Number of occupied cells of a column and of a board. *)
Fixpoint occupiedCells (cells : list Z) : nat :=
  match cells with
  | [] => O
  | c :: rest => if c =? 0 then occupiedCells rest else S (occupiedCells rest)
  end.

Definition occupied (b : Board) : nat := sum_list_with occupiedCells b.

(** The column in which the [k] lowest empty cells are occupied: a
    cell is taken when it is empty and fewer than [k] empty cells lie
    below it. *)
Fixpoint fill_bottom (k : nat) (cells : list Z) : list Z :=
  match cells with
  | [] => []
  | c :: rest =>
      (if (c =? 0) && (empties rest <? k)%nat then 1 else c) :: fill_bottom k rest
  end.

(** Number of tiles of a group that a float at horizontal offset [fx]
    sends to column [col]. *)
Fixpoint hits (fx : Z) (tiles : TileGroup) (col : nat) : nat :=
  match tiles with
  | [] => O
  | t :: rest =>
      if t.1 + fx =? Z.of_nat col then S (hits fx rest col) else hits fx rest col
  end.

(** A board of [w] columns with [h] cells each. *)
Definition has_dims (w h : nat) (b : Board) : Prop :=
  length b = w ∧ Forall (λ cells, length cells = h) b.

(** The settled form of a column: its empty cells on top, its occupied
    cells, in their order, below. *)
Definition settle (cells : list Z) : list Z :=
  replicate (empties cells) 0 ++ List.filter (λ c, negb (c =? 0)) cells.

(** A tile of the advanced float [nf] lies on an occupied cell of the
    board or just below the last row of its column. *)
Definition tile_collides (b : Board) (nf : Float) (tile : Z * Z) : Prop :=
  ∃ column, js_get b (tile.1 + x nf) = Some column ∧
    ((∃ v, js_get column (tile.2 + y nf) = Some v ∧ v ≠ 0) ∨
     tile.2 + y nf = Z.of_nat (length column)).

(** Every tile of the float is sent to a column of the board. *)
Definition in_columns (b : Board) (f : Float) : Prop :=
  Forall (λ tile, 0 ≤ tile.1 + x f < Z.of_nat (length b)) (value f).

(** A group normalised as the data model has it: the least x and the
    least y are both 0. *)
Definition normalised (g : TileGroup) : Prop :=
  g = [] ∨
  ((∃ t, t ∈ g ∧ t.1 = 0) ∧ (∃ t, t ∈ g ∧ t.2 = 0) ∧
   Forall (λ t, 0 ≤ t.1 ∧ 0 ≤ t.2) g).

(** The two plane maps behind rotation and normalisation. *)
Definition translate (dx dy : Z) (t : Z * Z) : Z * Z := (t.1 + dx, t.2 + dy).
Definition quarter_turn (t : Z * Z) : Z * Z := (- t.2, t.1).

(** The state the [lastIndexes] object is always in: whatever key it
    holds, it holds [NaN] there. *)
Definition all_nan (lastIndexes : gmap Z jsnum) : Prop :=
  ∀ k v, lastIndexes !! k = Some v → v = NaN.

(** ** Further notions *)

(** A column that gravity has finished with: empty cells on top of
    occupied ones. *)
Definition settled (cells : list Z) : Prop :=
  ∃ (k : nat) (bottom : list Z), cells = replicate k 0 ++ bottom ∧ 0 ∉ bottom.

(** Row [j] of the board is occupied in every column. *)
Definition full_row (b : Board) (j : Z) : Prop :=
  ∀ column, column ∈ b → ∃ v, js_get column j = Some v ∧ v ≠ 0.

(** A column moved down by [n] rows: [n] empty cells on top, the last
    [n] cells gone. *)
Definition shift_down (n : nat) (cells : list Z) : list Z :=
  replicate n 0 ++ take (length cells - n) cells.

(** The values [g a i] for the elements [a] of an array and their
    indices, counted from [i]: what a loop writing one value for each
    element leaves behind. *)
Fixpoint map_index {A B} (g : A → Z → B) (i : Z) (arr : list A) : list B :=
  match arr with
  | [] => []
  | a :: rest => g a i :: map_index g (i + 1) rest
  end.

(** [userActions.push(e.key)] in the [keydown] listener. *)
Definition push_userAction (a : action) : M unit :=
  λ g, (Ok tt, mkGame (board g) (boardHighlight g) (float g) (userActions g ++ [a])).

(** A float that lies within a board of [w] columns and stays there
    when rotated: its group is normalised and not empty, its tiles are
    sent to columns of the board, and it is less tall than the board
    is wide. *)
Definition float_inside (w : nat) (f : Float) : Prop :=
  normalised (value f) ∧ value f ≠ [] ∧
  Forall (λ t, 0 ≤ t.1 + x f < Z.of_nat w) (value f) ∧
  ∀ ht, getTileGroupHeight (value f) = Some ht → ht < Z.of_nat w.

(** The states the game runs through: board and highlight of [w]
    columns of [h] cells, a float, if any, inside the board, and no
    pending action unless the game is over. *)
Definition running (w h : nat) (g : Game) : Prop :=
  has_dims w h (board g) ∧ has_dims w h (boardHighlight g) ∧
  (∀ f, float g = Some f → float_inside w f) ∧
  (isGameOver (board g) = false → userActions g = []).

(** ** randomInt, randomGroup and newFloat *)

(** What the random generator stands for here.  [Math.random()] is
    outside the embedding: a computation that draws from it takes the
    list of the values [Math.round(Math.random() * (max - min))] of its
    successive calls of [randomInt], integers from 0 to [max - min].
    [Starved] is the state of a loop that needs a draw when the list
    is used up (the loop would go on drawing), and [Outside] marks a
    value that the embedding has no place for: the parse of a string
    that is not the decimal form of an integer, an infinite offset.
    The functions below are shown never to produce it. *)
Inductive Gen (A : Type) : Type :=
| Made (a : A)
| Starved
| Outside.
Arguments Made {A} a.
Arguments Starved {A}.
Arguments Outside {A}.

#[global] Instance gen_ret : MRet Gen := λ A a, Made a.
#[global] Instance gen_bind : MBind Gen := λ A B k r,
  match r with
  | Made a => k a
  | Starved => Starved
  | Outside => Outside
  end.

(** [randomInt(min, max)], [u] being the rounded product. *)
Definition randomInt (u : Z) (min max : Z) : Z := u + min.

(** [String(n)] for an integer [n]: its decimal digits, after ["-"] if
    it is negative. *)
Definition js_string_of (n : Z) : string := NilEmpty.string_of_int (Z.to_int n).

(** [Number(s)] when [s] is the decimal form of an integer; the other
    strings are left out. *)
Definition js_number_of (s : string) : option Z :=
  d ← NilEmpty.int_of_string s;
  if decide (js_string_of (Z.of_int d) = s) then Some (Z.of_int d) else None.

(** [s.split(sep)] for a separator of one character. *)
Fixpoint js_split (sep : Ascii.ascii) (s : string) : list string :=
  match s with
  | EmptyString => [EmptyString]
  | String c rest =>
      match js_split sep rest with
      | [] => []
      | piece :: pieces =>
          if Ascii.eqb c sep then EmptyString :: piece :: pieces
          else String c piece :: pieces
      end
  end.

(** The character [","]. *)
Definition comma : Ascii.ascii := Ascii.ascii_of_nat 44.

(** The inner functions of [randomGroup]. *)
Definition dehydrateTile (t : Z * Z) : string :=
  js_string_of t.1 +:+ "," +:+ js_string_of t.2.

Definition hydrateTile (t : string) : Gen (Z * Z) :=
  match js_split comma t with
  | sx :: sy :: _ =>
      match js_number_of sx, js_number_of sy with
      | Some tx, Some ty => Made (tx, ty)
      | _, _ => Outside
      end
  | _ => Outside
  end.

(** [group.add(t)] on a [Set], which keeps the order of insertion. *)
Definition set_add (t : string) (group : list string) : list string :=
  if decide (t ∈ group) then group else group ++ [t].

(** The [while] loop of [randomGroup]; the second draw is made only
    when the first gives no horizontal step. *)
Fixpoint walk (n : Z) (draws : list Z) (lastTile : string) (group : list string)
  : Gen (list string) :=
  if Z.of_nat (length group) <? n then
    lastTileHydrated ← hydrateTile lastTile;
    match draws with
    | [] => Starved
    | u :: draws1 =>
        let leftOrRight := randomInt u (-1) 1 in
        let nextX := lastTileHydrated.1 + leftOrRight in
        if leftOrRight =? 0 then
          match draws1 with
          | [] => Starved
          | u2 :: draws2 =>
              let nextY := lastTileHydrated.2 + randomInt u2 (-1) 1 in
              let lastTile' := dehydrateTile (nextX, nextY) in
              walk n draws2 lastTile' (set_add lastTile' group)
          end
        else
          let nextY := lastTileHydrated.2 + 0 in
          let lastTile' := dehydrateTile (nextX, nextY) in
          walk n draws1 lastTile' (set_add lastTile' group)
    end
  else Made group.

Fixpoint gen_map {A B} (f : A → Gen B) (arr : list A) : Gen (list B) :=
  match arr with
  | [] => Made []
  | a :: rest => b ← f a; bs ← gen_map f rest; Made (b :: bs)
  end.

(** The order of [sort()] without a comparator: strings by their code
    units. *)
Definition string_le (s1 s2 : string) : Prop := String.leb s1 s2 = true.
#[global] Instance string_le_dec : RelDecision string_le :=
  λ s1 s2, decide (String.leb s1 s2 = true).

Definition randomGroup (n : Z) (draws : list Z) : Gen TileGroup :=
  group ← walk n draws "0,0" ["0,0"];
  tiles ← gen_map hydrateTile (merge_sort string_le group);
  Made (normaliseTileGroup tiles).

(** [newFloat(boardWidth, length)].  The offset of an empty group
    would be infinite. *)
Definition newFloat (boardWidth : Z) (length : Z) (draws : list Z) : Gen Float :=
  value ← randomGroup length draws;
  match getTileGroupWidth value with
  | Some floatWidth => Made (mkFloat value ((boardWidth - floatWidth) / 2) 0)
  | None => Outside
  end.

(** The tiles of a group lie in a box whose two sides together are
    shorter than the group has tiles. *)
Definition in_box (tiles : TileGroup) (xlo xhi ylo yhi : Z) : Prop :=
  Forall (λ t, xlo ≤ t.1 ≤ xhi ∧ ylo ≤ t.2 ≤ yhi) tiles ∧
  (xhi - xlo) + (yhi - ylo) + 1 ≤ Z.of_nat (length tiles).

(** How the strings of the loop of [randomGroup] stand for tiles: the
    set holds the strings of the tiles of [tiles], none twice, and the
    last string is the one of a tile of the set. *)
Definition walk_state (lastTile : string) (group : list string) (tiles : TileGroup)
  : Prop :=
  group = map dehydrateTile tiles ∧ NoDup tiles ∧
  ∃ last, last ∈ tiles ∧ lastTile = dehydrateTile last.

(** ** renderBoard and drawBoard *)

(** The background colours of [createCell]: ["white"] for an empty
    cell, [rgba(196,0,0,1)], [rgba(0,64,196,1)] and [rgba(32,32,32,1)]
    for an occupied one. *)
Inductive colour : Type := White | Red | Blue | Dark.

(** What [drawBoard] puts in the board element, as the colours of the
    cells of each column; [None] when it draws nothing. *)
Abbreviation Screen := (option (list (list colour))).

(** The inner function [createCell] of [drawBoard], as the colour it
    gives the cell; the highlight is read only for an occupied cell
    above [bottomIndex]. *)
Definition createCell (bottomIndex : Z) (boardHighlight : Board) (v x y : Z)
  : Res colour :=
  if truthy (Some v) then
    if y >=? bottomIndex then Ok Red
    else
      match js_get boardHighlight x with
      | None => Err TypeError
      | Some column => Ok (if truthy (js_get column y) then Blue else Dark)
      end
  else Ok White.

(** [arr.forEach((a, i) => parent.appendChild(make(a, i)))]: the
    children appended, in order; the index is counted from [i]. *)
Fixpoint appendEach {A B} (make : A → Z → Res B) (i : Z) (arr : list A)
  : Res (list B) :=
  match arr with
  | [] => Ok []
  | a :: rest => c ← make a i; cs ← appendEach make (i + 1) rest; Ok (c :: cs)
  end.

(** The inner function [createColumn]. *)
Definition createColumn (bottomIndex : Z) (boardHighlight : Board)
    (cells : list Z) (x : Z) : Res (list colour) :=
  appendEach (λ v y, createCell bottomIndex boardHighlight v x y) 0 cells.

(** [drawBoard(elemId, gameBoard, boardHighlight)]; [present] tells
    whether the document has an element [elemId]. *)
Definition drawBoard (present : bool) (gameBoard boardHighlight : Board)
  : Res Screen :=
  score ← getBottomContiguous gameBoard;
  match js_get gameBoard 0 with
  | None => Err TypeError
  | Some first =>
      let bottomIndex := Z.of_nat (length first) - score in
      if present then
        columns ← appendEach (createColumn bottomIndex boardHighlight) 0 gameBoard;
        Ok (Some columns)
      else Ok None
  end.

(** The [forEach] of [renderBoard], which writes the tiles of the
    float into the clone of the board. *)
Definition paintFloat (f : option Float) (gameBoard : Board) : Res Board :=
  match f with
  | Some fl =>
      forEach (λ gameBoard '(tx, ty) _,
                 board_set gameBoard (tx + x fl) (ty + y fl) 1)
              0 (value fl) gameBoard
  | None => Ok gameBoard
  end.

Definition renderBoard (present : bool) (b : Board) (f : option Float) (bh : Board)
  : Res Screen :=
  gameBoard ← paintFloat f (cloneBoard b);
  drawBoard present gameBoard bh.

(** ** The tick and the events of the game *)

(** [renderBoard(board, float, boardHighlight)] on the closure
    variables. *)
Definition render (present : bool) : M Screen :=
  b ← read board;
  f ← read float;
  bh ← read boardHighlight;
  lift (renderBoard present b f bh).

(** How far a call of [step] is when it hands the control back: at
    its end, or at the [await] of the row-clearing loop in iteration
    [i] of [score], after the removal of a row and before the
    drawing. *)
Inductive Progress : Type :=
| Finished
| Awaits (score i : Z).

(** The row-clearing loop of [step] from its test [i < score] on, up
    to the next [await] or, past the loop, to the end of the call. *)
Definition stepLoop (score i : Z) : M Progress :=
  if i <? score then
    b ← read board;
    b' ← lift (removeBottomRow b 1);
    _ ← set_board b';
    mret (Awaits score i)
  else
    b ← read board;
    f ← read float;
    next ← lift (iterBoard b f);
    diff ← lift (boardDiff b next.1);
    _ ← set_boardHighlight diff;
    _ ← set_board next.1;
    _ ← set_float next.2;
    mret Finished.

(** A call of [step], up to its first [await] or to its end.  [fresh]
    is what [newFloat(boardWidth)] returns should it be called (it
    draws a random group).  [clearTimeout] and [setTimeout], which
    only decide when a later call starts, are left out. *)
Definition step (present : bool) (fresh : Float) (userActionsOnly : bool)
  : M Progress :=
  b ← read board;
  if isGameOver b then mret Finished
  else
    f ← read float;
    _ ← match f with None => set_float (Some fresh) | Some _ => mret tt end;
    b ← read board;
    f ← read float;
    st ← applyActions b f;
    _ ← set_board st.1;
    _ ← set_float st.2;
    _ ← render present;
    if userActionsOnly then mret Finished
    else
      b ← read board;
      score ← lift (getBottomContiguous b);
      stepLoop score 0.

(** A call of [step] resumed after the [await] of iteration [i]: the
    drawing, [i++], and the loop from its test on.  The closure
    variables are read as they are then. *)
Definition stepResume (present : bool) (score i : Z) : M Progress :=
  _ ← render present;
  stepLoop score (i + 1).

(** The [keydown] listener for one of the four keys of [actions]: the
    key is pushed on the queue and [step(true)] is called. *)
Definition keydown (present : bool) (fresh : Float) (a : action) : M Progress :=
  _ ← push_userAction a; step present fresh true.

(** What the browser hands to the game: a timer set by [step] fires
    and calls [step()], a key of [actions] is pressed, or the [delay]
    of the [k]-th waiting call of [step] ends.  [fresh] is the float
    that [newFloat] makes in the call, should it make one. *)
Inductive event : Type :=
| Timer (fresh : Float)
| Keydown (a : action) (fresh : Float)
| Wake (k : nat).

(** The closure variables and the calls of [step] that wait in their
    loop, each with its [score] and [i]. *)
Record World : Type := mkWorld {
  game : Game;
  waiting : list (Z * Z)
}.

Definition after_call (others : list (Z * Z)) (r : Res Progress * Game) : Res World :=
  match r with
  | (Ok Finished, g) => Ok (mkWorld g others)
  | (Ok (Awaits score i), g) => Ok (mkWorld g (others ++ [(score, i)]))
  | (Err e, _) => Err e
  end.

(** One event, handled to the point where the control is handed
    back.  The end of a [delay] that no call waits for does nothing. *)
Definition handle (present : bool) (e : event) (wd : World) : Res World :=
  match e with
  | Timer fresh => after_call (waiting wd) (step present fresh false (game wd))
  | Keydown a fresh => after_call (waiting wd) (keydown present fresh a (game wd))
  | Wake k =>
      match waiting wd !! k with
      | Some (score, i) =>
          after_call (delete k (waiting wd)) (stepResume present score i (game wd))
      | None => Ok wd
      end
  end.

(** A sequence of events, up to the first exception. *)
Fixpoint run (present : bool) (events : list event) (wd : World) : Res World :=
  match events with
  | [] => Ok wd
  | e :: rest => wd' ← handle present e wd; run present rest wd'
  end.

(** The game as the script starts it: boards of [w] columns of [h]
    cells, no float, no key. *)
Definition start (w h : nat) : World :=
  mkWorld (mkGame (newBoard w h) (cloneBoard (newBoard w h)) None []) [].

(** The cell of column [i] and row [j], if there is one. *)
Definition cell {A} (b : list (list A)) (i j : Z) : option A :=
  column ← js_get b i; js_get column j.

(** Some tile of the float is at column [i] and row [j]. *)
Definition covered (f : Float) (i j : Z) : bool :=
  existsb (λ t, (t.1 + x f =? i) && (t.2 + y f =? j)) (value f).

(** Every tile of the float is in a row of a board of [h] rows. *)
Definition float_in_rows (h : nat) (f : Float) : Prop :=
  Forall (λ t, 0 ≤ t.2 + y f < Z.of_nat h) (value f).

(** A running state whose float, if any, lies on cells of the board. *)
Definition playing (w h : nat) (g : Game) : Prop :=
  running w h g ∧ ∀ f, float g = Some f → float_in_rows h f.

(** The same without the condition on the queue: board and highlight
    of [w] columns of [h] cells and a float, if any, inside the board
    and on its cells. *)
Definition on_board (w h : nat) (g : Game) : Prop :=
  has_dims w h (board g) ∧ has_dims w h (boardHighlight g) ∧
  ∀ f, float g = Some f → float_inside w f ∧ float_in_rows h f.

(** A float that [newFloat(boardWidth)] can make on a board of [w]
    columns. *)
Definition made_by_newFloat (w : nat) (fresh : Float) : Prop :=
  ∃ draws, Forall (λ u, 0 ≤ u ≤ 2) draws ∧ newFloat (Z.of_nat w) 4 draws = Made fresh.

Definition fresh_of (e : event) : option Float :=
  match e with
  | Timer fresh => Some fresh
  | Keydown _ fresh => Some fresh
  | Wake _ => None
  end.

(** No key is in the queue whenever a waiting call of [step] is
    resumed.  (A key stays in the queue only when it is pressed on a
    board that is over.) *)
Fixpoint wakes_with_empty_queue (present : bool) (events : list event) (wd : World)
  : Prop :=
  match events with
  | [] => True
  | e :: rest =>
      match e with
      | Wake k => is_Some (waiting wd !! k) → userActions (game wd) = []
      | _ => True
      end ∧
      match handle present e wd with
      | Ok wd' => wakes_with_empty_queue present rest wd'
      | Err _ => True
      end
  end.

(** ** A run of the game on its board of 10 columns of 20 cells *)

(** Three floats that [newFloat(10)] can make. *)
Definition square : Float := mkFloat [(0, 0); (0, 1); (1, 0); (1, 1)] 4 0.
Definition hook : Float := mkFloat [(0, 0); (0, 1); (0, 2); (1, 2)] 4 0.
Definition bar : Float := mkFloat [(0, 0); (0, 1); (0, 2); (0, 3)] 5 0.

(** Keys pressed one after the other. *)
Definition press (keys : list action) (fresh : Float) : list event :=
  map (λ a, Keydown a fresh) keys.

(** The first tick, then keys only: four squares are dropped on
    columns 0 to 3 and 6 to 9, a hook on columns 4 and 5 and four bars
    on column 5.  The two bottom rows are full, column 5 holds 17
    tiles. *)
Definition filling : list event :=
  [Timer square]
  ++ press [ArrowLeft; ArrowLeft; ArrowLeft; ArrowLeft; ArrowDown] square
  ++ press [ArrowLeft; ArrowLeft; ArrowDown] square
  ++ press [ArrowRight; ArrowRight; ArrowDown] square
  ++ press [ArrowRight; ArrowRight; ArrowRight; ArrowRight; ArrowDown] square
  ++ press [ArrowDown] hook
  ++ press [ArrowDown; ArrowDown; ArrowDown; ArrowDown] bar.

(** A tick then starts, removes one row and waits; the drop key is
    pressed during the wait and fills column 5. *)
Definition interrupted : list event :=
  filling ++ [Timer bar; Keydown ArrowDown bar].

(** Four more keys are pressed on the board that is over; the waiting
    tick is resumed twice, to its end, and the next tick starts. *)
Definition raising : list event :=
  interrupted
  ++ press [ArrowUp; ArrowRight; ArrowRight; ArrowRight] bar
  ++ [Wake 0; Wake 0; Timer bar].

(** * Properties *)

(** ** Arrays *)

Section arrays.

Lemma lastIndexOf_spec (cells : list Z) (v : Z) :
  (lastIndexOf cells v = -1 ∧ v ∉ cells) ∨
  (∃ above below, cells = above ++ v :: below ∧ (v ∉ below) ∧
     lastIndexOf cells v = Z.of_nat (length above)).
Proof.
  induction cells as [|c rest IH]; simpl.
  - left. split; [done | apply not_elem_of_nil].
  - destruct IH as [[Hr Hnot] | (above & below & -> & Hnot & Hr)]; rewrite Hr.
    + simpl. destruct (Z.eqb_spec c v) as [-> | Hne].
      * right. exists [], rest. done.
      * left. split; [done |]. rewrite not_elem_of_cons. done.
    + right. exists (c :: above), below. split_and!; [done | done |].
      destruct (Z.leb_spec 0 (Z.of_nat (length above))); simpl length; lia.
Qed.

Lemma lastIndexOf_range (cells : list Z) (v : Z) :
  -1 ≤ lastIndexOf cells v < Z.of_nat (length cells).
Proof.
  destruct (lastIndexOf_spec cells v) as [[-> _] | (a & b & -> & _ & ->)].
  - lia.
  - rewrite length_app. simpl. lia.
Qed.

Lemma lastIndexOf_app (above below : list Z) (v : Z) :
  v ∉ below → lastIndexOf (above ++ v :: below) v = Z.of_nat (length above).
Proof.
  intros Hnot. induction above as [|c above IH]; simpl.
  - destruct (lastIndexOf_spec below v) as [[-> _] | (a & b & -> & _ & _)].
    + simpl. by rewrite Z.eqb_refl.
    + exfalso. apply Hnot. set_solver.
  - rewrite IH. destruct (Z.leb_spec 0 (Z.of_nat (length above))); lia.
Qed.

Lemma lastIndexOf_none (cells : list Z) (v : Z) :
  v ∉ cells → lastIndexOf cells v = -1.
Proof.
  intros Hnot.
  destruct (lastIndexOf_spec cells v) as [[-> _] | (a & b & -> & _ & _)]; [done |].
  exfalso. apply Hnot. set_solver.
Qed.

Lemma filter_index_all {A} (keep : Z → bool) (i : Z) (cells : list A) :
  (∀ j, i ≤ j → keep j = true) → filter_index keep i cells = cells.
Proof.
  revert i. induction cells as [|c rest IH]; intros i Hkeep; simpl; [done |].
  rewrite Hkeep by lia. f_equal. apply IH. intros j Hj. apply Hkeep. lia.
Qed.

Lemma filter_index_remove {A} (i : Z) (above below : list A) (c : A) :
  filter_index (λ j, negb (j =? i + Z.of_nat (length above))) i (above ++ c :: below)
  = above ++ below.
Proof.
  revert i. induction above as [|a above IH]; intros i; cbn [app length filter_index].
  - rewrite Z.add_0_r, Z.eqb_refl. cbn [negb].
    apply filter_index_all. intros j Hj.
    destruct (Z.eqb_spec j i); [lia | done].
  - rewrite Nat2Z.inj_succ.
    destruct (Z.eqb_spec i (i + Z.succ (Z.of_nat (length above)))); [lia |].
    cbn [negb]. f_equal.
    replace (i + Z.succ (Z.of_nat (length above)))
      with ((i + 1) + Z.of_nat (length above)) by lia.
    apply IH.
Qed.

Lemma empties_0 (cells : list Z) : empties cells = O ↔ 0 ∉ cells.
Proof.
  induction cells as [|c rest IH]; simpl.
  - split; [intros _; apply not_elem_of_nil | done].
  - rewrite not_elem_of_cons. destruct (Z.eqb_spec c 0) as [-> | Hc].
    + split; [discriminate | intros [Hne _]; done].
    + rewrite IH. split; [intros Hnot; split; [congruence | done] | intros [_ Hnot]; done].
Qed.

Lemma empties_app (l1 l2 : list Z) :
  empties (l1 ++ l2) = (empties l1 + empties l2)%nat.
Proof.
  induction l1 as [|c l1 IH]; simpl; [done |].
  rewrite IH. destruct (c =? 0); simpl; lia.
Qed.

Lemma occupiedCells_app (l1 l2 : list Z) :
  occupiedCells (l1 ++ l2) = (occupiedCells l1 + occupiedCells l2)%nat.
Proof.
  induction l1 as [|c l1 IH]; simpl; [done |].
  rewrite IH. destruct (c =? 0); simpl; lia.
Qed.

Lemma empties_occupied (cells : list Z) :
  (empties cells + occupiedCells cells)%nat = length cells.
Proof.
  induction cells as [|c rest IH]; simpl; [done |].
  destruct (c =? 0); simpl; lia.
Qed.

End arrays.

(** ** Gravity on one column *)

Section column.

Lemma iterColumn_full (cells : list Z) : 0 ∉ cells → iterColumn cells = cells.
Proof. intros Hnot. unfold iterColumn. by rewrite lastIndexOf_none. Qed.

Lemma iterColumn_gap (above below : list Z) :
  0 ∉ below → iterColumn (above ++ 0 :: below) = 0 :: above ++ below.
Proof.
  intros Hnot. unfold iterColumn. rewrite lastIndexOf_app by done.
  destruct (Z.ltb_spec (Z.of_nat (length above)) 0) as [Hlt | _]; [lia |].
  f_equal. apply (filter_index_remove 0).
Qed.

Lemma occupied_not_empty (cells : list Z) :
  0 ∉ List.filter (λ c, negb (c =? 0)) cells.
Proof.
  rewrite list_elem_of_In, filter_In. intros [_ Hc]. done.
Qed.

Lemma filter_occupied_count (cells : list Z) :
  length (List.filter (λ c, negb (c =? 0)) cells) = occupiedCells cells.
Proof.
  induction cells as [|c rest IH]; simpl; [done |].
  destruct (c =? 0); simpl; lia.
Qed.

Lemma empties_replicate (k : nat) : empties (replicate k 0) = k.
Proof. induction k as [|k IH]; simpl; [done | by rewrite IH]. Qed.

Lemma occupiedCells_replicate (k : nat) : occupiedCells (replicate k 0) = O.
Proof. induction k as [|k IH]; simpl; done. Qed.

Lemma occupiedCells_full (cells : list Z) :
  0 ∉ cells → occupiedCells cells = length cells.
Proof.
  intros Hnot. apply empties_0 in Hnot.
  pose proof (empties_occupied cells). lia.
Qed.

Lemma replicate_snoc (k : nat) (v : Z) : replicate (S k) v = replicate k v ++ [v].
Proof. induction k as [|k IH]; simpl in *; [done | by rewrite <- IH]. Qed.

(** The settled form does not move. *)
Lemma iterColumn_settled (k : nat) (below : list Z) :
  0 ∉ below → iterColumn (replicate k 0 ++ below) = replicate k 0 ++ below.
Proof.
  intros Hnot. destruct k as [|k].
  - by apply iterColumn_full.
  - rewrite replicate_snoc, <- app_assoc. simpl.
    rewrite iterColumn_gap by done.
    rewrite app_comm_cons. change (0 :: replicate k 0) with (replicate (S k) 0).
    by rewrite replicate_snoc, <- app_assoc.
Qed.

(** Compaction proper: under [k] empty cells already on top and above
    a gap-free tail, the segment [above] is settled in at most
    [length above] steps. *)
Lemma compaction_run (above : list Z) :
  ∀ (k : nat) (below : list Z), 0 ∉ below →
  ∃ n, (n ≤ length above)%nat ∧
    Nat.iter n iterColumn (replicate k 0 ++ above ++ below)
    = replicate (k + empties above) 0
        ++ List.filter (λ c, negb (c =? 0)) above ++ below.
Proof.
  induction above as [|c above IH] using rev_ind; intros k below Hnot.
  - exists O. split; [done |]. simpl. by rewrite Nat.add_0_r.
  - rewrite empties_app, List.filter_app, length_app. simpl.
    destruct (Z.eqb_spec c 0) as [-> | Hc]; simpl.
    + destruct (IH (S k) below Hnot) as (n & Hn & Hrun).
      exists (S n). split; [lia |].
      rewrite Nat.iter_succ_r.
      replace (replicate k 0 ++ (above ++ [0]) ++ below)
        with ((replicate k 0 ++ above) ++ 0 :: below)
        by (rewrite <- !app_assoc; done).
      rewrite iterColumn_gap by done.
      rewrite <- app_assoc, app_comm_cons.
      change (0 :: replicate k 0) with (replicate (S k) 0).
      rewrite Hrun, app_nil_r. do 2 f_equal. lia.
    + assert (Hnot' : 0 ∉ c :: below).
      { rewrite not_elem_of_cons. split; [congruence | done]. }
      destruct (IH k (c :: below) Hnot') as (n & Hn & Hrun).
      exists n. split; [lia |].
      rewrite <- !app_assoc. simpl. rewrite Hrun.
      by rewrite Nat.add_0_r.
Qed.

Lemma iter_fixed {A} (f : A → A) (a : A) (d : nat) : f a = a → Nat.iter d f a = a.
Proof. intros Hf. induction d as [|d IH]; simpl; [done | by rewrite IH]. Qed.

Lemma settle_fixed (cells : list Z) : iterColumn (settle cells) = settle cells.
Proof. apply iterColumn_settled, occupied_not_empty. Qed.

Lemma settle_length (cells : list Z) : length (settle cells) = length cells.
Proof.
  unfold settle. rewrite length_app, length_replicate, filter_occupied_count.
  apply empties_occupied.
Qed.

Lemma settle_occupied (cells : list Z) :
  occupiedCells (settle cells) = occupiedCells cells.
Proof.
  unfold settle. rewrite occupiedCells_app, occupiedCells_replicate.
  rewrite occupiedCells_full by apply occupied_not_empty.
  apply filter_occupied_count.
Qed.

End column.

(** ** Dropping a float *)

Section drop.

Lemma fill_bottom_full (k : nat) (cells : list Z) :
  0 ∉ cells → fill_bottom k cells = cells.
Proof.
  induction cells as [|c rest IH]; simpl; [done |].
  rewrite not_elem_of_cons. intros [Hc Hrest].
  rewrite IH by done. destruct (Z.eqb_spec c 0); [congruence | done].
Qed.

Lemma fill_bottom_0 (cells : list Z) : fill_bottom 0 cells = cells.
Proof.
  induction cells as [|c rest IH]; simpl; [done |].
  rewrite IH. by rewrite andb_false_r.
Qed.

Lemma fill_bottom_length (k : nat) (cells : list Z) :
  length (fill_bottom k cells) = length cells.
Proof. induction cells as [|c rest IH]; simpl; [done | by rewrite IH]. Qed.

Lemma fill_bottom_empties (k : nat) (cells : list Z) :
  empties (fill_bottom k cells) = (empties cells - k)%nat.
Proof.
  induction cells as [|c rest IH]; simpl; [done |].
  destruct (Z.eqb_spec c 0) as [-> | Hc]; simpl.
  - destruct (Nat.ltb_spec (empties rest) k); simpl; rewrite IH; lia.
  - destruct (Z.eqb_spec c 0); [congruence | done].
Qed.

Lemma fill_bottom_occupied (k : nat) (cells : list Z) :
  occupiedCells (fill_bottom k cells)
  = (occupiedCells cells + Nat.min k (empties cells))%nat.
Proof.
  pose proof (empties_occupied (fill_bottom k cells)) as H1.
  pose proof (empties_occupied cells) as H2.
  rewrite fill_bottom_empties, fill_bottom_length in H1. lia.
Qed.

Lemma fill_bottom_add (j k : nat) (cells : list Z) :
  fill_bottom j (fill_bottom k cells) = fill_bottom (j + k) cells.
Proof.
  induction cells as [|c rest IH]; simpl; [done |].
  rewrite IH, fill_bottom_empties. f_equal.
  destruct (Z.eqb_spec c 0) as [-> | Hc]; simpl.
  - destruct (Nat.ltb_spec (empties rest) k);
      destruct (Nat.ltb_spec (empties rest) (j + k));
      destruct (Nat.ltb_spec (empties rest - k) j); simpl.
    all: try done; try lia.
  - destruct (Z.eqb_spec c 0); [congruence | done].
Qed.

(** Writing at [lastIndexOf(0)] occupies the lowest empty cell, and
    nothing when the column is full. *)
Lemma set_lowest (cells : list Z) :
  js_set cells (lastIndexOf cells 0) 1 = Ok (fill_bottom 1 cells).
Proof.
  destruct (lastIndexOf_spec cells 0) as [[Hr Hnot] | (above & below & -> & Hnot & Hr)];
    rewrite Hr; unfold js_set.
  - simpl. by rewrite fill_bottom_full.
  - destruct (Z.ltb_spec (Z.of_nat (length above)) 0) as [Hlt | _]; [lia |].
    destruct (Z.ltb_spec (Z.of_nat (length above))
                (Z.of_nat (length (above ++ 0 :: below)))) as [_ | Hge].
    2: { rewrite length_app in Hge. simpl in Hge. lia. }
    f_equal. rewrite Nat2Z.id.
    replace (length above) with (length above + 0)%nat at 1 by lia.
    rewrite insert_app_r. simpl.
    clear Hr. induction above as [|a above IH]; simpl.
    + rewrite (proj2 (empties_0 below) Hnot). simpl. by rewrite fill_bottom_full.
    + rewrite <- IH. f_equal. rewrite empties_app. simpl.
      destruct (a =? 0); simpl; [| done].
      destruct (Nat.ltb_spec (empties above + S (empties below)) 1); [lia | done].
Qed.

Lemma js_or_nan (li : gmap Z jsnum) (k w : Z) : all_nan li → js_or (li !! k) w = w.
Proof.
  intros Hnan. unfold js_or. destruct (li !! k) as [v|] eqn:Hk; [| done].
  by rewrite (Hnan _ _ Hk).
Qed.

Lemma js_pred_nan (li : gmap Z jsnum) (k : Z) : all_nan li → js_pred (li !! k) = NaN.
Proof.
  intros Hnan. unfold js_pred. destruct (li !! k) as [v|] eqn:Hk; [| done].
  by rewrite (Hnan _ _ Hk).
Qed.

Lemma all_nan_empty : all_nan ∅.
Proof. intros k v Hk. by rewrite lookup_empty in Hk. Qed.

Lemma all_nan_insert (li : gmap Z jsnum) (k : Z) : all_nan li → all_nan (<[k := NaN]> li).
Proof.
  intros Hnan j v. rewrite lookup_insert. case_decide.
  - by intros [= <-].
  - apply Hnan.
Qed.

(** What the callback does, the running offsets being [NaN]: they
    never decide the row. *)
Lemma dropTile_nan (fx : Z) (nb : Board) (li : gmap Z jsnum) (t : Z * Z) :
  all_nan li →
  dropTile fx (nb, li) t
  = match js_get nb (t.1 + fx) with
    | None => Err TypeError
    | Some cells =>
        Ok (<[Z.to_nat (t.1 + fx) := fill_bottom 1 cells]> nb, <[t.1 := NaN]> li)
    end.
Proof.
  intros Hnan. destruct t as [tx ty]. unfold dropTile. simpl.
  destruct (js_get nb (tx + fx)) as [cells|]; [| done].
  rewrite js_or_nan, js_pred_nan, set_lowest by done. done.
Qed.

Lemma js_get_Some {A} (arr : list A) (i : Z) (a : A) :
  js_get arr i = Some a ↔ 0 ≤ i ∧ arr !! Z.to_nat i = Some a.
Proof.
  unfold js_get. destruct (Z.ltb_spec i 0) as [Hneg | Hpos].
  - split; [done | intros [Hi _]; lia].
  - split; [intros Hi; split; [lia | done] | intros [_ Hi]; done].
Qed.

Lemma js_get_in_range {A} (arr : list A) (i : Z) :
  0 ≤ i < Z.of_nat (length arr) → ∃ a, js_get arr i = Some a.
Proof.
  intros Hi. destruct (lookup_lt_is_Some_2 arr (Z.to_nat i)) as [a Ha]; [lia |].
  exists a. apply js_get_Some. split; [lia | done].
Qed.

Lemma hits_here (fx : Z) (t : Z * Z) (rest : TileGroup) :
  0 ≤ t.1 + fx →
  hits fx (t :: rest) (Z.to_nat (t.1 + fx)) = S (hits fx rest (Z.to_nat (t.1 + fx))).
Proof.
  intros Hpos. simpl. rewrite Z2Nat.id by done. by rewrite Z.eqb_refl.
Qed.

Lemma hits_elsewhere (fx : Z) (t : Z * Z) (rest : TileGroup) (c : nat) :
  c ≠ Z.to_nat (t.1 + fx) → hits fx (t :: rest) c = hits fx rest c.
Proof.
  intros Hc. simpl. destruct (Z.eqb_spec (t.1 + fx) (Z.of_nat c)); [lia | done].
Qed.

Lemma dropTiles_spec (fx : Z) (tiles : TileGroup) :
  ∀ (nb : Board) (li : gmap Z jsnum) (nb' : Board) (li' : gmap Z jsnum),
  all_nan li →
  dropTiles fx (nb, li) tiles = Ok (nb', li') →
  all_nan li' ∧ length nb' = length nb ∧
  ∀ c cells, nb !! c = Some cells →
    nb' !! c = Some (fill_bottom (hits fx tiles c) cells).
Proof.
  induction tiles as [|t rest IH]; intros nb li nb' li' Hnan Hrun.
  - injection Hrun as <- <-. split_and!; [done | done |].
    intros c cells Hc. simpl. by rewrite fill_bottom_0.
  - cbn [dropTiles] in Hrun. rewrite dropTile_nan in Hrun by done.
    destruct (js_get nb (t.1 + fx)) as [cells0|] eqn:Hget; [| done].
    apply js_get_Some in Hget as [Hpos Hget].
    apply IH in Hrun as (Hnan' & Hlen & Hcols); [| by apply all_nan_insert].
    rewrite length_insert in Hlen. split_and!; [done | done |].
    intros c cells Hc.
    destruct (decide (c = Z.to_nat (t.1 + fx))) as [-> | Hne].
    + rewrite hits_here by done.
      replace cells with cells0 by congruence.
      rewrite (Hcols _ (fill_bottom 1 cells0)).
      * by rewrite fill_bottom_add, Nat.add_1_r.
      * apply list_lookup_insert_eq. by eapply lookup_lt_Some.
    + rewrite hits_elsewhere by done. apply Hcols.
      by rewrite list_lookup_insert_ne.
Qed.

Lemma dropTiles_total (fx : Z) (tiles : TileGroup) :
  ∀ (nb : Board) (li : gmap Z jsnum),
  all_nan li →
  Forall (λ t, 0 ≤ t.1 + fx < Z.of_nat (length nb)) tiles →
  ∃ st, dropTiles fx (nb, li) tiles = Ok st.
Proof.
  induction tiles as [|t rest IH]; intros nb li Hnan Hin.
  - by eexists.
  - apply Forall_cons in Hin as [Ht Hin].
    cbn [dropTiles]. rewrite dropTile_nan by done.
    destruct (js_get_in_range nb _ Ht) as [cells ->]. simpl.
    apply IH; [by apply all_nan_insert |].
    by rewrite length_insert.
Qed.

(** The only exception is the [TypeError] of a missing column: the
    write never goes beyond the end of a column. *)
Lemma dropTiles_error (fx : Z) (tiles : TileGroup) :
  ∀ (nb : Board) (li : gmap Z jsnum) (e : error),
  all_nan li → dropTiles fx (nb, li) tiles = Err e → e = TypeError.
Proof.
  induction tiles as [|t rest IH]; intros nb li e Hnan Hrun; [done |].
  cbn [dropTiles] in Hrun. rewrite dropTile_nan in Hrun by done.
  destruct (js_get nb (t.1 + fx)) as [cells0|]; simpl in Hrun.
  - eapply IH; [| done]. by apply all_nan_insert.
  - congruence.
Qed.

Lemma dropTiles_app (fx : Z) (l1 l2 : TileGroup) :
  ∀ st, dropTiles fx st (l1 ++ l2) = st' ← dropTiles fx st l1; dropTiles fx st' l2.
Proof.
  induction l1 as [|t l1 IH]; intros st; simpl; [done |].
  destruct (dropTile fx st t) as [st1|e]; simpl; [apply IH | done].
Qed.

(** The board that comes out does not depend on the running offsets. *)
Lemma dropTiles_offsets (fx : Z) (tiles : TileGroup) :
  ∀ (nb : Board) (li1 li2 : gmap Z jsnum),
  all_nan li1 → all_nan li2 →
  (st ← dropTiles fx (nb, li1) tiles; Ok st.1)
  = (st ← dropTiles fx (nb, li2) tiles; Ok st.1).
Proof.
  induction tiles as [|t rest IH]; intros nb li1 li2 Hnan1 Hnan2; [done |].
  cbn [dropTiles]. rewrite !dropTile_nan by done.
  destruct (js_get nb (t.1 + fx)) as [cells0|]; simpl; [| done].
  apply IH; by apply all_nan_insert.
Qed.

Lemma occupied_insert (nb : Board) (c : nat) (old new : list Z) :
  nb !! c = Some old →
  (occupied (<[c := new]> nb) + occupiedCells old
   = occupied nb + occupiedCells new)%nat.
Proof.
  intros Hc. unfold occupied.
  rewrite <- (take_drop_middle nb c old Hc) at 2.
  rewrite insert_take_drop by (by eapply lookup_lt_Some).
  rewrite !sum_list_with_app. simpl. lia.
Qed.

Lemma dropTiles_count (fx : Z) (tiles : TileGroup) :
  ∀ (nb : Board) (li : gmap Z jsnum) (nb' : Board) (li' : gmap Z jsnum),
  all_nan li →
  dropTiles fx (nb, li) tiles = Ok (nb', li') →
  (∀ c cells, nb !! c = Some cells → (hits fx tiles c ≤ empties cells)%nat) →
  occupied nb' = (occupied nb + length tiles)%nat.
Proof.
  induction tiles as [|t rest IH]; intros nb li nb' li' Hnan Hrun Hroom.
  - injection Hrun as <- <-. simpl. lia.
  - cbn [dropTiles] in Hrun. rewrite dropTile_nan in Hrun by done.
    destruct (js_get nb (t.1 + fx)) as [cells0|] eqn:Hget; [| done].
    apply js_get_Some in Hget as [Hpos Hget].
    pose proof (Hroom _ _ Hget) as Hroom0. rewrite hits_here in Hroom0 by done.
    apply IH in Hrun; [| by apply all_nan_insert |].
    + rewrite Hrun.
      pose proof (occupied_insert nb _ cells0 (fill_bottom 1 cells0) Hget) as Hins.
      rewrite fill_bottom_occupied in Hins. simpl. lia.
    + intros c cells Hc.
      destruct (decide (c = Z.to_nat (t.1 + fx))) as [-> | Hne].
      * rewrite list_lookup_insert_eq in Hc by (by eapply lookup_lt_Some).
        injection Hc as <-. rewrite fill_bottom_empties. lia.
      * rewrite list_lookup_insert_ne in Hc by done.
        pose proof (Hroom _ _ Hc) as Hroomc.
        by rewrite hits_elsewhere in Hroomc.
Qed.

Lemma dropFloatingTiles_columns (b : Board) (f : Float) (b' : Board) :
  dropFloatingTiles b (Some f) = Ok b' →
  length b' = length b ∧
  ∀ c cells, b !! c = Some cells →
    b' !! c = Some (fill_bottom (hits (x f) (value f) c) cells).
Proof.
  unfold dropFloatingTiles, cloneBoard. intros Hrun.
  destruct (dropTiles (x f) (b, ∅) (value f)) as [[nb li]|e] eqn:Htiles; [| done].
  injection Hrun as <-.
  apply dropTiles_spec in Htiles as (_ & Hlen & Hcols); [done | apply all_nan_empty].
Qed.

Lemma dropFloatingTiles_total (b : Board) (f : Float) :
  in_columns b f → ∃ b', dropFloatingTiles b (Some f) = Ok b'.
Proof.
  intros Hin. unfold dropFloatingTiles, cloneBoard.
  destruct (dropTiles_total (x f) (value f) b ∅ all_nan_empty Hin) as [st ->].
  by eexists.
Qed.

Lemma dropFloatingTiles_error (b : Board) (f : option Float) (e : error) :
  dropFloatingTiles b f = Err e → e = TypeError.
Proof.
  destruct f as [f|]; [| done]. unfold dropFloatingTiles, cloneBoard.
  destruct (dropTiles (x f) (b, ∅) (value f)) as [st|e'] eqn:Htiles; [done |].
  intros [= <-]. eapply dropTiles_error; [apply all_nan_empty | done].
Qed.

(** The row a tile lands on, read off [fill_bottom]. *)
Lemma fill_bottom_lookup (k : nat) (cells : list Z) (i : nat) :
  fill_bottom k cells !! i
  = (λ c, if (c =? 0) && (empties (drop (S i) cells) <? k)%nat then 1 else c)
      <$> cells !! i.
Proof.
  revert i. induction cells as [|c rest IH]; intros i; [done |].
  destruct i as [|i]; simpl.
  - by rewrite drop_0.
  - apply IH.
Qed.

End drop.

(** C1 (amended).  Let every tile of the float be sent to a column of
    the board, and let every column have at least as many empty cells
    as tiles are sent to it.  Then [dropFloatingTiles] returns a board
    of the same width in which every column has its lowest empty cells
    occupied, one for each tile sent to it and stacked from the lowest
    empty cell upward, all other cells being as before; the number of
    occupied cells grows by the number of tiles. *)
Theorem dropFloatingTiles_stacks (b : Board) (f : Float) :
  in_columns b f →
  (∀ c cells, b !! c = Some cells →
     (hits (x f) (value f) c ≤ empties cells)%nat) →
  ∃ b', dropFloatingTiles b (Some f) = Ok b' ∧
    length b' = length b ∧
    (∀ c cells, b !! c = Some cells →
       b' !! c = Some (fill_bottom (hits (x f) (value f) c) cells)) ∧
    occupied b' = (occupied b + length (value f))%nat.
Proof.
  intros Hin Hroom.
  destruct (dropFloatingTiles_total b f Hin) as [b' Hrun].
  exists b'. split; [done |].
  destruct (dropFloatingTiles_columns b f b' Hrun) as [Hlen Hcols].
  split_and!; [done | done |].
  unfold dropFloatingTiles, cloneBoard in Hrun.
  destruct (dropTiles (x f) (b, ∅) (value f)) as [[nb li]|e] eqn:Htiles; [| done].
  injection Hrun as <-.
  eapply dropTiles_count; [apply all_nan_empty | done | done].
Qed.

Lemma dropFloatingTiles_stacks_witness :
  let b := [[0; 0; 0]; [0; 1; 1]] in
  let f := mkFloat [(0, 0); (0, 1); (1, 0)] 0 0 in
  ∃ b', dropFloatingTiles b (Some f) = Ok b' ∧
    length b' = length b ∧
    (∀ c cells, b !! c = Some cells →
       b' !! c = Some (fill_bottom (hits (x f) (value f) c) cells)) ∧
    occupied b' = (occupied b + length (value f))%nat.
Proof.
  intros b f. apply (dropFloatingTiles_stacks b f).
  - repeat constructor; simpl; lia.
  - intros c cells. destruct c as [|[|c]]; simpl; intros [= <-]; simpl; lia.
Defined.

(** C1, as stated, fails: a tile sent to a full column is lost, so the
    number of occupied cells does not grow by the size of the group. *)
Lemma dropFloatingTiles_stacks_counterexample :
  let b := [[1]] in
  let f := mkFloat [(0, 0)] 0 0 in
  ¬ ∃ b', dropFloatingTiles b (Some f) = Ok b' ∧
          occupied b' = (occupied b + length (value f))%nat.
Proof.
  intros b f [b' [Hrun Hcount]].
  vm_compute in Hrun. injection Hrun as <-. vm_compute in Hcount. lia.
Qed.

(** C9.  A tile whose column holds no empty cell: [lastIndexOf(0)] is
    [-1], the write at [-1] leaves the column as it is, and the outcome
    of [dropFloatingTiles], board or exception, is the one of the float
    without that tile: the tile is lost and nothing else happens. *)
Theorem dropFloatingTiles_full_column
    (b : Board) (f : Float) (pre post : TileGroup) (t : Z * Z) (cells : list Z) :
  value f = pre ++ t :: post →
  js_get b (t.1 + x f) = Some cells →
  0 ∉ cells →
  lastIndexOf cells 0 = -1 ∧
  (∀ lastIndexes, all_nan lastIndexes →
     js_or (lastIndexes !! t.1) (lastIndexOf cells 0) = -1) ∧
  js_set cells (-1) 1 = Ok cells ∧
  dropFloatingTiles b (Some f)
  = dropFloatingTiles b (Some (mkFloat (pre ++ post) (x f) (y f))).
Proof.
  intros Hvalue Hget Hfull. split_and!.
  - by apply lastIndexOf_none.
  - intros li Hnan. rewrite js_or_nan by done. by apply lastIndexOf_none.
  - done.
  - unfold dropFloatingTiles, cloneBoard. rewrite Hvalue. simpl.
    rewrite !dropTiles_app.
    destruct (dropTiles (x f) (b, ∅) pre) as [[nb li]|e] eqn:Hpre; [| done].
    cbn [mbind res_bind dropTiles].
    apply dropTiles_spec in Hpre as (Hnan & Hlen & Hcols); [| apply all_nan_empty].
    apply js_get_Some in Hget as [Hpos Hget].
    apply Hcols in Hget. rewrite fill_bottom_full in Hget by done.
    rewrite dropTile_nan by done.
    rewrite (proj2 (js_get_Some nb _ cells)) by done.
    rewrite fill_bottom_full by done. rewrite list_insert_id by done.
    cbn [mbind res_bind].
    apply dropTiles_offsets; [by apply all_nan_insert | done].
Qed.

Lemma dropFloatingTiles_full_column_witness :
  dropFloatingTiles [[1; 1]; [0; 0]] (Some (mkFloat [(1, 0); (0, 0); (1, 1)] 0 0))
  = dropFloatingTiles [[1; 1]; [0; 0]] (Some (mkFloat [(1, 0); (1, 1)] 0 0)).
Proof.
  apply (dropFloatingTiles_full_column [[1; 1]; [0; 0]]
           (mkFloat [(1, 0); (0, 0); (1, 1)] 0 0) [(1, 0)] [(1, 1)] (0, 0) [1; 1]).
  - reflexivity.
  - reflexivity.
  - intros Hin. apply list_elem_of_In in Hin. simpl in Hin.
    destruct Hin as [Hin | [Hin | []]]; discriminate.
Defined.

(** C3.  One gravity step of a column.  A column without an empty cell
    comes back unchanged.  Otherwise the empty cell at the highest
    index [p] is removed and an empty cell is put on top: the cells
    above [p] move down by one position and the cells below [p] stay. *)
Theorem iterColumn_step (cells : list Z) :
  (0 ∉ cells → iterColumn cells = cells) ∧
  (0 ∈ cells → ∃ p : nat,
     lastIndexOf cells 0 = Z.of_nat p ∧
     cells !! p = Some 0 ∧
     (∀ i, (p < i)%nat → cells !! i ≠ Some 0) ∧
     iterColumn cells = 0 :: take p cells ++ drop (S p) cells ∧
     length (iterColumn cells) = length cells ∧
     (∀ i, (i < p)%nat → iterColumn cells !! S i = cells !! i) ∧
     (∀ i, (p < i)%nat → iterColumn cells !! i = cells !! i)).
Proof.
  split; [apply iterColumn_full |].
  intros Hin.
  destruct (lastIndexOf_spec cells 0) as [[_ Hnot] | (above & below & -> & Hnot & Hr)];
    [done |].
  exists (length above). rewrite iterColumn_gap by done.
  split_and!.
  - done.
  - by rewrite list_lookup_middle.
  - intros i Hi Hlook. apply Hnot.
    rewrite lookup_app_r in Hlook by lia.
    destruct (i - length above)%nat as [|j] eqn:Hj; [lia |].
    simpl in Hlook. by eapply list_elem_of_lookup_2.
  - rewrite take_app_length.
    replace (S (length above)) with (length above + 1)%nat by lia.
    by rewrite drop_app_add.
  - simpl. rewrite !length_app. simpl. lia.
  - intros i Hi. simpl. by rewrite !lookup_app_l.
  - intros i Hi. destruct i as [|i]; [lia |]. simpl.
    rewrite !lookup_app_r by lia.
    by replace (S i - length above)%nat with (S (i - length above)) by lia.
Qed.

Lemma iterColumn_step_witness :
  iterColumn [1; 2] = [1; 2] ∧
  ∃ p : nat,
    lastIndexOf [1; 0; 2; 0; 3] 0 = Z.of_nat p ∧
    [1; 0; 2; 0; 3] !! p = Some 0 ∧
    (∀ i, (p < i)%nat → [1; 0; 2; 0; 3] !! i ≠ Some 0) ∧
    iterColumn [1; 0; 2; 0; 3] = 0 :: take p [1; 0; 2; 0; 3] ++ drop (S p) [1; 0; 2; 0; 3] ∧
    length (iterColumn [1; 0; 2; 0; 3]) = length [1; 0; 2; 0; 3] ∧
    (∀ i, (i < p)%nat → iterColumn [1; 0; 2; 0; 3] !! S i = [1; 0; 2; 0; 3] !! i) ∧
    (∀ i, (p < i)%nat → iterColumn [1; 0; 2; 0; 3] !! i = [1; 0; 2; 0; 3] !! i).
Proof.
  split.
  - apply (proj1 (iterColumn_step [1; 2])).
    intros Hin. apply list_elem_of_In in Hin. simpl in Hin.
    destruct Hin as [Hin | [Hin | []]]; discriminate.
  - apply (proj2 (iterColumn_step [1; 0; 2; 0; 3])).
    apply list_elem_of_further, list_elem_of_here.
Defined.

(** C4.  Iterating the gravity step on a column reaches, after at most
    as many steps as the column has cells, a column that the step
    leaves alone and stays there.  That column has the empty cells on
    top and the occupied cells at the bottom, and the length and the
    number of occupied cells of the original. *)
Theorem iterColumn_fixpoint (cells : list Z) :
  ∃ (n : nat) (fixed : list Z),
    (n ≤ length cells)%nat ∧
    (∀ m, (n ≤ m)%nat → Nat.iter m iterColumn cells = fixed) ∧
    iterColumn fixed = fixed ∧
    (∃ top bottom, fixed = top ++ bottom ∧
       Forall (λ c, c = 0) top ∧ Forall (λ c, c ≠ 0) bottom) ∧
    length fixed = length cells ∧
    occupiedCells fixed = occupiedCells cells.
Proof.
  destruct (compaction_run cells O [] (not_elem_of_nil 0)) as (n & Hn & Hrun).
  rewrite !app_nil_r in Hrun. simpl in Hrun. fold (settle cells) in Hrun.
  exists n, (settle cells). split_and!.
  - done.
  - intros m Hm. replace m with ((m - n) + n)%nat by lia.
    rewrite Nat.iter_add, Hrun. apply iter_fixed, settle_fixed.
  - apply settle_fixed.
  - exists (replicate (empties cells) 0), (List.filter (λ c, negb (c =? 0)) cells).
    split_and!; [done | |].
    + apply Forall_forall. intros c Hc. by apply elem_of_replicate in Hc as [-> _].
    + apply Forall_forall. intros c Hc ->. by apply (occupied_not_empty cells).
  - apply settle_length.
  - apply settle_occupied.
Qed.

(** ** One step of the board *)

Section iter.

Lemma iterColumn_length (cells : list Z) : length (iterColumn cells) = length cells.
Proof.
  destruct (lastIndexOf_spec cells 0) as [[_ Hnot] | (above & below & -> & Hnot & _)].
  - by rewrite iterColumn_full.
  - rewrite iterColumn_gap by done. simpl. rewrite !length_app. simpl. lia.
Qed.

Lemma truthy_spec (v : option Z) : truthy v = true ↔ ∃ n, v = Some n ∧ n ≠ 0.
Proof.
  destruct v as [n|]; simpl.
  - destruct (Z.eqb_spec n 0) as [-> | Hn]; simpl.
    + split; [done | intros (m & [= <-] & Hm); done].
    + split; [intros _; by exists n | done].
  - split; [done | intros (m & Hm & _); done].
Qed.

Lemma collides_spec (b : Board) (nf : Float) (t : Z * Z) :
  collides b nf t = Ok true ↔ tile_collides b nf t.
Proof.
  unfold collides, tile_collides. destruct t as [tx ty]. simpl.
  destruct (js_get b (tx + x nf)) as [column|].
  - split.
    + intros [= Hor]. exists column. split; [done |].
      apply orb_true_iff in Hor as [Hv | Hlen].
      * left. by apply truthy_spec.
      * right. lia.
    + intros (column' & [= <-] & Hcases). f_equal. apply orb_true_iff.
      destruct Hcases as [Hv | Hlen].
      * left. by apply truthy_spec.
      * right. lia.
  - split; [done | intros (column & Hnone & _); done].
Qed.

Lemma collides_total (b : Board) (nf : Float) (t : Z * Z) :
  0 ≤ t.1 + x nf < Z.of_nat (length b) → ∃ r, collides b nf t = Ok r.
Proof.
  intros Hin. unfold collides. destruct t as [tx ty]. simpl in Hin.
  destruct (js_get_in_range b _ Hin) as [column ->]. by eexists.
Qed.

Lemma js_some_total {A} (p : A → Res bool) (arr : list A) :
  Forall (λ a, ∃ r, p a = Ok r) arr → ∃ r, js_some p arr = Ok r.
Proof.
  induction arr as [|a rest IH]; intros Hall; simpl; [by eexists |].
  apply Forall_cons in Hall as [[r ->] Hall]. simpl.
  destruct r; [by eexists | by apply IH].
Qed.

Lemma js_some_true {A} (p : A → Res bool) (arr : list A) :
  Forall (λ a, ∃ r, p a = Ok r) arr →
  Exists (λ a, p a = Ok true) arr →
  js_some p arr = Ok true.
Proof.
  induction arr as [|a rest IH]; intros Hall Hsome; [by apply Exists_nil in Hsome |].
  apply Forall_cons in Hall as [[r Hr] Hall]. simpl. rewrite Hr. simpl.
  destruct r; [done |].
  apply Exists_cons in Hsome as [Ha | Hrest]; [congruence | by apply IH].
Qed.

(** On a board whose columns are all settled the compaction changes
    nothing. *)
Lemma compaction_settled (b : Board) :
  Forall (λ cells, settle cells = cells) b → iterColumn <$> b = b.
Proof.
  induction 1 as [|cells rest Hcells _ IH]; [done |].
  rewrite fmap_cons, IH. f_equal. rewrite <- Hcells. apply settle_fixed.
Qed.

End iter.

(** C2 (amended).  When a tile of the advanced float lies on an
    occupied cell of the board or just below the last row of its
    column, [iterBoard] returns no float and the board obtained by
    dropping the float, as it was before the advance, into the board
    _after_ the compaction of its columns. *)
Theorem iterBoard_settles (b : Board) (f : Float) :
  in_columns b f →
  Exists (tile_collides b (advance f)) (value f) →
  ∃ b', dropFloatingTiles (iterColumn <$> b) (Some f) = Ok b' ∧
        iterBoard b (Some f) = Ok (b', None).
Proof.
  intros Hin Hhit.
  assert (Hin' : in_columns (iterColumn <$> b) f).
  { unfold in_columns. by rewrite length_fmap. }
  destruct (dropFloatingTiles_total _ f Hin') as [b' Hdrop].
  exists b'. split; [done |].
  unfold iterBoard. cbn [fmap option_fmap option_map advance value].
  rewrite (js_some_true (collides b (advance f)) (value f)).
  - cbn [mbind res_bind]. by rewrite Hdrop.
  - eapply Forall_impl; [exact Hin |]. intros t Ht. by apply collides_total.
  - eapply Exists_impl; [exact Hhit |]. intros t Ht. by apply collides_spec.
Qed.

Lemma iterBoard_settles_witness :
  let b := [[1; 0; 0]] in
  let f := mkFloat [(0, 0)] 0 2 in
  ∃ b', dropFloatingTiles (iterColumn <$> b) (Some f) = Ok b' ∧
        iterBoard b (Some f) = Ok (b', None).
Proof.
  intros b f. apply (iterBoard_settles b f).
  - repeat constructor; simpl; lia.
  - apply Exists_cons_hd. exists [1; 0; 0]. split; [reflexivity |].
    right. reflexivity.
Defined.

(** C2, as stated, fails: the float is not dropped into the board as it
    was before the compaction. *)
Lemma iterBoard_settles_counterexample :
  let b := [[1; 0; 0]] in
  let f := mkFloat [(0, 0)] 0 2 in
  ¬ (Exists (tile_collides b (advance f)) (value f) →
     ∃ b', dropFloatingTiles b (Some f) = Ok b' ∧
           iterBoard b (Some f) = Ok (b', None)).
Proof.
  intros b f Hclaim. destruct Hclaim as (b' & Hdrop & Hiter).
  - apply Exists_cons_hd. exists [1; 0; 0]. split; [reflexivity |].
    right. reflexivity.
  - vm_compute in Hdrop. vm_compute in Hiter. congruence.
Qed.

(** ** Dimensions *)

Section dims.

Context (w h : nat).

Lemma has_dims_fmap (g : list Z → list Z) (b : Board) :
  (∀ cells, length (g cells) = length cells) →
  has_dims w h b → has_dims w h (g <$> b).
Proof.
  intros Hg [Hw Hh]. split; [by rewrite length_fmap |].
  apply Forall_fmap. eapply Forall_impl; [exact Hh |].
  intros cells Hcells. simpl. by rewrite Hg.
Qed.

Lemma has_dims_insert (b : Board) (i : nat) (cells : list Z) :
  has_dims w h b → length cells = h → has_dims w h (<[i := cells]> b).
Proof.
  intros [Hw Hh] Hcells. split; [by rewrite length_insert |].
  by apply Forall_insert.
Qed.

Lemma has_dims_lookup (b : Board) (i : nat) (cells : list Z) :
  has_dims w h b → b !! i = Some cells → length cells = h.
Proof. intros [_ Hh] Hi. by apply (Forall_lookup_1 _ _ _ _ Hh Hi). Qed.

Lemma newBoard_dims : has_dims w h (newBoard w h).
Proof.
  unfold newBoard. split; [by rewrite length_replicate |].
  apply Forall_replicate. by rewrite length_replicate.
Qed.

Lemma js_set_in_range (cells : list Z) (j v : Z) :
  0 ≤ j < Z.of_nat (length cells) →
  js_set cells j v = Ok (<[Z.to_nat j := v]> cells).
Proof.
  intros Hj. unfold js_set.
  destruct (Z.ltb_spec j 0); [lia |].
  destruct (Z.ltb_spec j (Z.of_nat (length cells))); [done | lia].
Qed.

Lemma board_set_dims (d : Board) (i j v : Z) (d' : Board) :
  has_dims w h d → 0 ≤ j < Z.of_nat h →
  board_set d i j v = Ok d' → has_dims w h d'.
Proof.
  intros Hd Hj. unfold board_set.
  destruct (js_get d i) as [cells|] eqn:Hget; [| done].
  apply js_get_Some in Hget as [_ Hget].
  pose proof (has_dims_lookup d _ cells Hd Hget) as Hlen.
  rewrite js_set_in_range by lia. intros [= <-].
  apply has_dims_insert; [done |]. by rewrite length_insert.
Qed.

Lemma board_set_total (d : Board) (i j v : Z) :
  has_dims w h d → 0 ≤ i < Z.of_nat w → 0 ≤ j < Z.of_nat h →
  ∃ d', board_set d i j v = Ok d'.
Proof.
  intros Hd Hi Hj. unfold board_set.
  destruct (js_get_in_range d i) as [cells Hget]; [destruct Hd; lia |].
  rewrite Hget. apply js_get_Some in Hget as [_ Hget].
  pose proof (has_dims_lookup d _ cells Hd Hget) as Hlen.
  rewrite js_set_in_range by lia. by eexists.
Qed.

(** A loop whose body keeps [P] for the indices below [hi] keeps [P]. *)
Lemma forEach_preserves {A St} (P : St → Prop) (body : St → A → Z → Res St) (hi : Z)
    (arr : list A) :
  (∀ s a i s', a ∈ arr → P s → 0 ≤ i < hi → body s a i = Ok s' → P s') →
  ∀ i s s', 0 ≤ i → i + Z.of_nat (length arr) ≤ hi → P s →
    forEach body i arr s = Ok s' → P s'.
Proof.
  induction arr as [|a rest IH]; intros Hbody i s s' Hi Hhi Hs Hrun.
  - by injection Hrun as <-.
  - simpl in Hrun. rewrite length_cons, Nat2Z.inj_succ in Hhi.
    destruct (body s a i) as [s1|e] eqn:Hstep; [| done]. simpl in Hrun.
    eapply (IH (λ s a i s' Ha, Hbody s a i s' (list_elem_of_further _ _ _ Ha)));
      [| | | exact Hrun]; [lia | lia |].
    apply (Hbody s a i s1); [apply list_elem_of_here | done | lia | done].
Qed.

(** And it ends without an exception when the body does. *)
Lemma forEach_total {A St} (P : St → Prop) (body : St → A → Z → Res St) (hi : Z)
    (arr : list A) :
  (∀ s a i, a ∈ arr → P s → 0 ≤ i < hi → ∃ s', body s a i = Ok s' ∧ P s') →
  ∀ i s, 0 ≤ i → i + Z.of_nat (length arr) ≤ hi → P s →
    ∃ s', forEach body i arr s = Ok s' ∧ P s'.
Proof.
  induction arr as [|a rest IH]; intros Hbody i s Hi Hhi Hs.
  - by exists s.
  - rewrite length_cons, Nat2Z.inj_succ in Hhi. simpl.
    destruct (Hbody s a i) as (s1 & -> & Hs1); [apply list_elem_of_here | done | lia |].
    simpl.
    apply (IH (λ s a i Ha, Hbody s a i (list_elem_of_further _ _ _ Ha))); [lia | lia | done].
Qed.

Lemma boardDiff_dims (a other d : Board) :
  has_dims w h a → boardDiff a other = Ok d → has_dims w h d.
Proof.
  intros Ha. unfold boardDiff, cloneBoard.
  destruct a as [|first rest] eqn:Heq; [done |]. rewrite <- Heq in *.
  assert (Hfirst : length first = h).
  { apply (has_dims_lookup a O first Ha). by rewrite Heq. }
  assert (Hw : length a = w) by apply Ha. rewrite Hfirst, Hw.
  apply (forEach_preserves (has_dims w h) _ (Z.of_nat w) a); [| lia | lia | apply newBoard_dims].
  intros diff column i diff' Hcolumn Hdiff Hi.
  assert (Hcol : length column = h).
  { apply list_elem_of_lookup in Hcolumn as [k Hk]. by apply (has_dims_lookup a k). }
  apply (forEach_preserves (has_dims w h) _ (Z.of_nat h) column); [| lia | lia | done].
  intros diff1 cellValue j diff2 _ Hdiff1 Hj.
  destruct (js_get other i) as [columnB|]; [| done].
  by apply board_set_dims.
Qed.

Lemma boardDiff_total (a other : Board) :
  (1 ≤ w)%nat → has_dims w h a → has_dims w h other →
  ∃ d, boardDiff a other = Ok d.
Proof.
  intros Hpos Ha Hother. unfold boardDiff, cloneBoard.
  destruct a as [|first rest] eqn:Heq; [destruct Ha; simpl in *; lia |].
  rewrite <- Heq in *.
  assert (Hfirst : length first = h).
  { apply (has_dims_lookup a O first Ha). by rewrite Heq. }
  assert (Hw : length a = w) by apply Ha. rewrite Hfirst, Hw.
  destruct (forEach_total (has_dims w h)
    (λ diff column i,
       forEach (λ diff cellValue j,
         match js_get other i with
         | None => Err TypeError
         | Some columnB => board_set diff i j (differs cellValue (js_get columnB j))
         end) 0 column diff) (Z.of_nat w) a) with 0 (newBoard w h) as (d & Hd & _);
    [| lia | lia | apply newBoard_dims | by exists d].
  intros diff column i Hcolumn Hdiff Hi.
  assert (Hcol : length column = h).
  { apply list_elem_of_lookup in Hcolumn as [k Hk]. by apply (has_dims_lookup a k). }
  apply (forEach_total (has_dims w h) _ (Z.of_nat h) column); [| lia | lia | done].
  intros diff1 cellValue j _ Hdiff1 Hj.
  destruct (js_get_in_range other i) as [columnB ->]; [destruct Hother; lia |].
  destruct (board_set_total diff1 i j (differs cellValue (js_get columnB j)))
    as [diff2 Hset]; [done | done | done |].
  exists diff2. split; [done |]. by eapply board_set_dims.
Qed.

Lemma removeLastCell_length (count : Z) (cells : list Z) :
  1 ≤ count ≤ Z.of_nat (length cells) →
  ∃ cells', removeLastCell count cells = Ok cells' ∧ length cells' = length cells.
Proof.
  intros Hcount. unfold removeLastCell, js_slice0.
  destruct (Z.ltb_spec count 0); [lia |].
  destruct (Z.ltb_spec (- count) 0); [| lia].
  eexists. split; [done |].
  rewrite length_app, length_replicate, length_take. lia.
Qed.

Lemma res_map_Forall {A B} (f : A → Res B) (Q : B → Prop) (arr : list A) :
  Forall (λ a, ∃ r, f a = Ok r ∧ Q r) arr →
  ∃ rs, res_map f arr = Ok rs ∧ length rs = length arr ∧ Forall Q rs.
Proof.
  induction 1 as [|a rest (r & Hr & HQ) _ (rs & Hrs & Hlen & Hall)]; simpl.
  - by exists [].
  - rewrite Hr. simpl. rewrite Hrs. simpl. exists (r :: rs).
    split_and!; [done | by simpl; rewrite Hlen | by constructor].
Qed.

Lemma removeBottomRow_dims (b : Board) (count : Z) :
  has_dims w h b → 1 ≤ count ≤ Z.of_nat h →
  ∃ b', removeBottomRow b count = Ok b' ∧ has_dims w h b'.
Proof.
  intros [Hw Hh] Hcount. unfold removeBottomRow.
  destruct (res_map_Forall (removeLastCell count) (λ cells, length cells = h) b)
    as (b' & Hb' & Hlen & Hall).
  - eapply Forall_impl; [exact Hh |]. intros cells Hcells. simpl in *.
    destruct (removeLastCell_length count cells) as (cells' & Hrun & Hlen); [lia |].
    exists cells'. split; [done | lia].
  - exists b'. split; [done |]. split; [lia | done].
Qed.

Lemma dropFloatingTiles_dims (b : Board) (f : option Float) (b' : Board) :
  has_dims w h b → dropFloatingTiles b f = Ok b' → has_dims w h b'.
Proof.
  intros Hb Hrun. destruct f as [f|]; [| by injection Hrun as <-].
  destruct (dropFloatingTiles_columns b f b' Hrun) as [Hlen Hcols].
  split; [destruct Hb; lia |].
  apply Forall_lookup. intros c cells' Hc.
  destruct (lookup_lt_is_Some_2 b c) as [cells Hcells].
  { rewrite <- Hlen. by eapply lookup_lt_Some. }
  rewrite (Hcols _ _ Hcells) in Hc. injection Hc as <-.
  rewrite fill_bottom_length. by eapply has_dims_lookup.
Qed.

Lemma iterBoard_dims (b : Board) (f : option Float) (b' : Board) (f' : option Float) :
  has_dims w h b → iterBoard b f = Ok (b', f') → has_dims w h b'.
Proof.
  intros Hb. unfold iterBoard.
  pose proof (has_dims_fmap iterColumn b iterColumn_length Hb) as Hnext.
  destruct (match advance <$> f with
            | Some nf => js_some (collides b nf) (value nf)
            | None => Ok false
            end) as [[|]|e]; simpl; [| | done].
  - destruct (dropFloatingTiles (iterColumn <$> b) f) as [dropped|e] eqn:Hdrop; [| done].
    simpl. intros [= <- _]. by eapply dropFloatingTiles_dims.
  - by intros [= <- _].
Qed.

Lemma iterBoard_total (b : Board) (f : Float) :
  in_columns b f → ∃ b' f', iterBoard b (Some f) = Ok (b', f').
Proof.
  intros Hin. unfold iterBoard. cbn [fmap option_fmap option_map advance value].
  destruct (js_some_total (collides b (advance f)) (value f)) as [r ->].
  { eapply Forall_impl; [exact Hin |]. intros t Ht. by apply collides_total. }
  cbn [mbind res_bind]. destruct r; [| by eexists _, _].
  destruct (dropFloatingTiles_total (iterColumn <$> b) f) as [b' ->].
  { unfold in_columns. by rewrite length_fmap. }
  by eexists _, _.
Qed.

End dims.

(** C10.  On a board of [w] columns of [h] cells, every board returned
    by [iterBoard], [dropFloatingTiles], [removeBottomRow] (for a count
    from 1 to [h]) and [boardDiff] has [w] columns of [h] cells.  These
    functions do return a board: always for [removeBottomRow] and for a
    null float, for a float when its tiles are sent to columns of the
    board, and for [boardDiff] when the board has a column and the
    other board has the same dimensions. *)
Theorem dimensions_preserved (w h : nat) (b : Board) :
  has_dims w h b →
  (∀ f b' f', iterBoard b f = Ok (b', f') → has_dims w h b') ∧
  (∀ f b', dropFloatingTiles b f = Ok b' → has_dims w h b') ∧
  (∀ count, 1 ≤ count ≤ Z.of_nat h →
     ∃ b', removeBottomRow b count = Ok b' ∧ has_dims w h b') ∧
  (∀ other d, boardDiff b other = Ok d → has_dims w h d) ∧
  iterBoard b None = Ok (iterColumn <$> b, None) ∧
  dropFloatingTiles b None = Ok b ∧
  (∀ f, in_columns b f →
     (∃ b' f', iterBoard b (Some f) = Ok (b', f')) ∧
     (∃ b', dropFloatingTiles b (Some f) = Ok b')) ∧
  (∀ other, (1 ≤ w)%nat → has_dims w h other → ∃ d, boardDiff b other = Ok d).
Proof.
  intros Hb. split_and!.
  - intros f b' f'. by apply iterBoard_dims.
  - intros f b'. by apply dropFloatingTiles_dims.
  - intros count. by apply removeBottomRow_dims.
  - intros other d. by apply boardDiff_dims.
  - done.
  - done.
  - intros f Hin. split; [by apply iterBoard_total | by apply dropFloatingTiles_total].
  - intros other Hpos Hother. by apply (boardDiff_total w h).
Qed.

Lemma dimensions_preserved_witness :
  let b := [[0; 1]; [1; 0]] in
  (∀ f b' f', iterBoard b f = Ok (b', f') → has_dims 2 2 b') ∧
  (∀ f b', dropFloatingTiles b f = Ok b' → has_dims 2 2 b') ∧
  (∀ count, 1 ≤ count ≤ 2 →
     ∃ b', removeBottomRow b count = Ok b' ∧ has_dims 2 2 b') ∧
  (∀ other d, boardDiff b other = Ok d → has_dims 2 2 d) ∧
  iterBoard b None = Ok (iterColumn <$> b, None) ∧
  dropFloatingTiles b None = Ok b ∧
  (∀ f, in_columns b f →
     (∃ b' f', iterBoard b (Some f) = Ok (b', f')) ∧
     (∃ b', dropFloatingTiles b (Some f) = Ok b')) ∧
  (∀ other, (1 ≤ 2)%nat → has_dims 2 2 other → ∃ d, boardDiff b other = Ok d).
Proof.
  intros b. apply (dimensions_preserved 2 2 b).
  split; [reflexivity | repeat constructor].
Defined.

(** ** The action phase and the tick *)

Section actions.

Lemma isGameOver_spec (b : Board) :
  isGameOver b = true ↔ ∃ cells, cells ∈ b ∧ 0 ∉ cells.
Proof.
  unfold isGameOver. rewrite existsb_exists. split.
  - intros (cells & Hin & Hlast). exists cells.
    split; [by apply list_elem_of_In |].
    destruct (lastIndexOf_spec cells 0) as [[_ Hnot] | (above & below & _ & _ & Hr)];
      [done | lia].
  - intros (cells & Hin & Hnot). exists cells.
    split; [by apply list_elem_of_In |].
    rewrite lastIndexOf_none by done. done.
Qed.

Lemma fold_left_max_spec (rest : list Z) (a : Z) :
  fold_left Z.max rest a ∈ a :: rest ∧
  ∀ v, v ∈ a :: rest → v ≤ fold_left Z.max rest a.
Proof.
  revert a. induction rest as [|c rest IH]; intros a; simpl.
  - split; [apply list_elem_of_here |].
    intros v Hv. apply list_elem_of_singleton in Hv. lia.
  - destruct (IH (Z.max a c)) as [Hin Hub]. split.
    + apply elem_of_cons in Hin as [Heq | Hin].
      * rewrite Heq. destruct (Z.max_spec a c) as [[_ ->] | [_ ->]].
        -- apply list_elem_of_further, list_elem_of_here.
        -- apply list_elem_of_here.
      * by do 2 apply list_elem_of_further.
    + intros v Hv.
      assert (Hac : Z.max a c ≤ fold_left Z.max rest (Z.max a c)).
      { apply Hub. apply list_elem_of_here. }
      apply elem_of_cons in Hv as [-> | Hv]; [lia |].
      apply elem_of_cons in Hv as [-> | Hv]; [lia |].
      apply Hub. by apply list_elem_of_further.
Qed.

Lemma fold_left_min_spec (rest : list Z) (a : Z) :
  fold_left Z.min rest a ∈ a :: rest ∧
  ∀ v, v ∈ a :: rest → fold_left Z.min rest a ≤ v.
Proof.
  revert a. induction rest as [|c rest IH]; intros a; simpl.
  - split; [apply list_elem_of_here |].
    intros v Hv. apply list_elem_of_singleton in Hv. lia.
  - destruct (IH (Z.min a c)) as [Hin Hlb]. split.
    + apply elem_of_cons in Hin as [Heq | Hin].
      * rewrite Heq. destruct (Z.min_spec a c) as [[_ ->] | [_ ->]].
        -- apply list_elem_of_here.
        -- apply list_elem_of_further, list_elem_of_here.
      * by do 2 apply list_elem_of_further.
    + intros v Hv.
      assert (Hac : fold_left Z.min rest (Z.min a c) ≤ Z.min a c).
      { apply Hlb. apply list_elem_of_here. }
      apply elem_of_cons in Hv as [-> | Hv]; [lia |].
      apply elem_of_cons in Hv as [-> | Hv]; [lia |].
      apply Hlb. by apply list_elem_of_further.
Qed.

(** [span] is the greatest element minus the least one. *)
Lemma span_spec (xs : list Z) (lo hi : Z) :
  lo ∈ xs → hi ∈ xs → (∀ v, v ∈ xs → lo ≤ v ≤ hi) →
  span xs = Some (hi - lo).
Proof.
  intros Hlo Hhi Hbounds. destruct xs as [|a rest]; [by apply elem_of_nil in Hlo |].
  simpl. destruct (fold_left_max_spec rest a) as [Hmax_in Hmax].
  destruct (fold_left_min_spec rest a) as [Hmin_in Hmin].
  f_equal.
  pose proof (Hbounds _ Hmax_in). pose proof (Hbounds _ Hmin_in).
  pose proof (Hmax _ Hhi). pose proof (Hmin _ Hlo). lia.
Qed.

(** Once the float is gone the rest of the batch does nothing. *)
Lemma applyEach_no_float (bw bh : Z) (fw : option Z) (queue : list action)
    (bd : Board) (g : Game) :
  applyEach (applyAction bw bh fw) queue (bd, None) g = (Ok (bd, None), g).
Proof. induction queue as [|a rest IH]; [done | exact IH]. Qed.

(** The callback never touches the queue. *)
Lemma applyAction_queue (bw bh : Z) (fw : option Z) (st : Board * option Float)
    (a : action) (g : Game) :
  userActions (applyAction bw bh fw st a g).2 = userActions g.
Proof.
  unfold applyAction. destruct st.2 as [fl|]; [| done].
  destruct a; try done.
  unfold mbind, m_bind, lift, set_boardHighlight.
  destruct (dropFloatingTiles st.1 (Some fl)) as [nextBoard|e]; [| done].
  destruct (boardDiff st.1 nextBoard) as [diff|e]; [| done].
  destruct (copyBoardAIntoB nextBoard st.1) as [merged|e]; done.
Qed.

Lemma applyEach_queue (body : Board * option Float → action → M (Board * option Float)) :
  (∀ st a g, userActions (body st a g).2 = userActions g) →
  ∀ queue st g, userActions (applyEach body queue st g).2 = userActions g.
Proof.
  intros Hbody. induction queue as [|a rest IH]; intros st g; [done |].
  cbn [applyEach]. unfold mbind, m_bind. pose proof (Hbody st a g) as Hstep.
  destruct (body st a g) as [[st'|e] g1]; simpl in Hstep.
  - by rewrite IH.
  - done.
Qed.

(** The width used by a move to the right is the one read when the
    phase starts: a rotation earlier in the batch does not change it. *)
Example stale_width_after_rotation :
  let b := replicate 10 (replicate 20 0) in
  let f := mkFloat [(0, 0); (1, 0); (2, 0); (3, 0)] 6 0 in
  (applyActions b (Some f) (mkGame b b (Some f) [ArrowUp; ArrowRight])).1
  = Ok (b, Some (mkFloat [(0, 0); (0, 1); (0, 2); (0, 3)] 6 0)).
Proof. vm_compute. reflexivity. Qed.

Lemma applyEach_app (body : Board * option Float → action → M (Board * option Float))
    (q1 q2 : list action) :
  ∀ st g,
  applyEach body (q1 ++ q2) st g
  = match applyEach body q1 st g with
    | (Ok st', g') => applyEach body q2 st' g'
    | (Err e, g') => (Err e, g')
    end.
Proof.
  induction q1 as [|a q1 IH]; intros st g; [done |].
  cbn [app applyEach]. unfold mbind, m_bind.
  destruct (body st a g) as [[st'|e] g1]; [apply IH | done].
Qed.

(** Moves keep the board, the group and [float.y]. *)
Lemma applyEach_moves (bw bh : Z) (fw : option Z) (b : Board) (pre : list action) :
  Forall (λ a, a = ArrowLeft ∨ a = ArrowRight) pre →
  ∀ (f : Float) (g : Game),
  ∃ fl, applyEach (applyAction bw bh fw) pre (b, Some f) g = (Ok (b, Some fl), g) ∧
        value fl = value f ∧ y fl = y f.
Proof.
  induction 1 as [|a pre Ha _ IH]; intros f g.
  - by exists f.
  - cbn [applyEach]. unfold mbind, m_bind.
    destruct Ha as [-> | ->]; unfold applyAction; cbn [fst snd mret m_ret].
    + destruct (IH (mkFloat (value f) (Z.max (x f - 1) 0) (y f)) g)
        as (fl & Hrun & Hvalue & Hy). by exists fl.
    + destruct (IH (mkFloat (value f) (min_bound (x f + 1) bw fw) (y f)) g)
        as (fl & Hrun & Hvalue & Hy). by exists fl.
Qed.

End actions.

(** C5 (amended).  On a board that is not over and has a column, with
    a float, in a batch whose actions so far are moves: a move to the
    left sets [float.x] to [max(float.x - 1, 0)], so that it stays 0
    at 0, and a move to the right sets it to
    [min(float.x + 1, boardWidth - floatWidth - 1)], where [floatWidth]
    is the greatest minus the least x of the group.  The board, the
    group and [float.y] are as before and the queue is drained.  With
    the least x at 0, a float at the bound has its rightmost tile in
    the last column: no column is kept free at the right edge. *)
Theorem applyActions_moves (b : Board) (f : Float)
    (gb gh : Board) (gf : option Float) (pre : list action) :
  isGameOver b = false →
  b ≠ [] →
  Forall (λ a, a = ArrowLeft ∨ a = ArrowRight) pre →
  ∃ fl,
    applyActions b (Some f) (mkGame gb gh gf pre)
    = (Ok (b, Some fl), mkGame gb gh gf []) ∧
    value fl = value f ∧ y fl = y f ∧
    applyActions b (Some f) (mkGame gb gh gf (pre ++ [ArrowLeft]))
    = (Ok (b, Some (mkFloat (value f) (Z.max (x fl - 1) 0) (y f))),
       mkGame gb gh gf []) ∧
    (x fl = 0 →
     applyActions b (Some f) (mkGame gb gh gf (pre ++ [ArrowLeft]))
     = (Ok (b, Some (mkFloat (value f) 0 (y f))), mkGame gb gh gf [])) ∧
    (∀ lo hi,
       lo ∈ map fst (value f) → hi ∈ map fst (value f) →
       (∀ v, v ∈ map fst (value f) → lo ≤ v ≤ hi) →
       applyActions b (Some f) (mkGame gb gh gf (pre ++ [ArrowRight]))
       = (Ok (b, Some (mkFloat (value f)
                         (Z.min (x fl + 1) (Z.of_nat (length b) - (hi - lo) - 1))
                         (y f))),
          mkGame gb gh gf []) ∧
       (lo = 0 →
        hi + (Z.of_nat (length b) - (hi - lo) - 1) = Z.of_nat (length b) - 1)).
Proof.
  intros Hover Hcols Hpre. unfold applyActions, cloneBoard. rewrite Hover.
  destruct b as [|first rest] eqn:Heq; [done |]. rewrite <- Heq.
  unfold mbind, m_bind, splice_userActions.
  cbn [board boardHighlight float userActions].
  set (bw := Z.of_nat (length b)). set (bh := Z.of_nat (length first)).
  set (fw := getTileGroupWidth (value f)).
  destruct (applyEach_moves bw bh fw b pre Hpre f (mkGame gb gh gf []))
    as (fl & Hrun & Hvalue & Hy).
  exists fl. rewrite !applyEach_app, Hrun.
  cbn [applyEach]. unfold mbind, m_bind, applyAction. cbn [fst snd mret m_ret].
  rewrite Hvalue, Hy. split_and!; try done.
  - intros ->. done.
  - intros lo hi Hlo Hhi Hbounds. split; [| lia].
    unfold fw, getTileGroupWidth. by rewrite (span_spec _ lo hi).
Qed.

Lemma applyActions_moves_witness :
  let b := replicate 10 (replicate 20 0) in
  let f := mkFloat [(0, 0); (1, 0); (1, 1); (2, 1)] 6 3 in
  applyActions b (Some f) (mkGame b b (Some f) [ArrowRight; ArrowLeft])
  = (Ok (b, Some (mkFloat (value f) 6 3)), mkGame b b (Some f) []) ∧
  applyActions b (Some f) (mkGame b b (Some f) [ArrowRight; ArrowRight])
  = (Ok (b, Some (mkFloat (value f) 7 3)), mkGame b b (Some f) []).
Proof.
  intros b f.
  destruct (applyActions_moves b f b b (Some f) [ArrowRight])
    as (fl & Hpre & _ & _ & Hleft & _ & Hright).
  - reflexivity.
  - discriminate.
  - constructor; [by right | constructor].
  - assert (Hfl : fl = mkFloat (value f) 7 3).
    { vm_compute in Hpre. by injection Hpre as <-. }
    subst fl. split; [exact Hleft |].
    apply (Hright 0 2).
    + apply list_elem_of_here.
    + do 3 apply list_elem_of_further. apply list_elem_of_here.
    + intros v Hv. apply list_elem_of_In in Hv. simpl in Hv.
      destruct Hv as [<- | [<- | [<- | [<- | []]]]]; lia.
Defined.

(** C5, as stated, fails twice.  After a rotation in the same batch
    the move to the right is clamped with the width read before the
    batch, not with the span of the group then held: the bar turned
    upright at x = 6 has span 0 and stays at 6, where the claim gives
    7.  And no column is kept free at the right edge: a group of span
    1 moved right from x = 7 on a board of 10 columns is at x = 8,
    its right tile in column 9. *)
Lemma applyActions_moves_counterexample :
  let b := replicate 10 (replicate 20 0) in
  let f := mkFloat [(0, 0); (1, 0); (2, 0); (3, 0)] 6 0 in
  let turned := mkFloat [(0, 0); (0, 1); (0, 2); (0, 3)] 6 0 in
  let pair := mkFloat [(0, 0); (1, 0)] 7 0 in
  isGameOver b = false ∧
  (applyActions b (Some f) (mkGame b b (Some f) [ArrowUp])).1 = Ok (b, Some turned) ∧
  getTileGroupWidth (value turned) = Some 0 ∧
  (applyActions b (Some f) (mkGame b b (Some f) [ArrowUp; ArrowRight])).1
  ≠ Ok (b, Some (mkFloat (value turned)
                   (Z.min (x turned + 1) (Z.of_nat (length b) - 0 - 1)) (y turned))) ∧
  (applyActions b (Some pair) (mkGame b b (Some pair) [ArrowRight])).1
  = Ok (b, Some (mkFloat (value pair) 8 0)) ∧
  (1, 0) ∈ value pair ∧ 1 + 8 = Z.of_nat (length b) - 1.
Proof.
  intros b f turned pair. split_and!.
  - reflexivity.
  - vm_compute. reflexivity.
  - reflexivity.
  - vm_compute. discriminate.
  - vm_compute. reflexivity.
  - apply list_elem_of_further, list_elem_of_here.
  - reflexivity.
Qed.

(** C7 (amended).  On a board that is not over, a null float at the
    start of the action phase makes the phase return the board and the
    null float and leave the queue as it is; the queue is emptied when
    the phase starts with a float, and what is left of a batch after
    the float has gone has no effect. *)
Theorem applyActions_null_float (b : Board) (g : Game) :
  isGameOver b = false →
  b ≠ [] →
  applyActions b None g = (Ok (b, None), g) ∧
  (∀ f, userActions (applyActions b (Some f) g).2 = []) ∧
  (∀ bw bh fw queue bd g',
     applyEach (applyAction bw bh fw) queue (bd, None) g' = (Ok (bd, None), g')).
Proof.
  intros Hover Hcols. unfold applyActions, cloneBoard. rewrite Hover.
  destruct b as [|first rest]; [done |]. split_and!.
  - done.
  - intros f. unfold mbind, m_bind, splice_userActions.
    rewrite applyEach_queue; [done |]. intros st a g0. apply applyAction_queue.
  - intros. apply applyEach_no_float.
Qed.

Lemma applyActions_null_float_witness :
  let g := mkGame [[0; 0]] [[0; 0]] None [ArrowLeft; ArrowDown] in
  applyActions [[0; 0]] None g = (Ok ([[0; 0]], None), g).
Proof.
  intros g. apply (applyActions_null_float [[0; 0]] g).
  - reflexivity.
  - discriminate.
Defined.

(** C7, as stated, fails: with a null float the queue is not drained. *)
Lemma applyActions_null_float_counterexample :
  let g := mkGame [[0; 0]] [[0; 0]] None [ArrowLeft; ArrowDown] in
  isGameOver [[0; 0]] = false ∧
  ¬ userActions (applyActions [[0; 0]] None g).2 = [].
Proof. intros g. split; [reflexivity | discriminate]. Qed.

(** On a board with a column without an empty cell the action phase,
    a call of [step] and a key press return at once: board, float and
    highlight are as before, and the key stays in the queue. *)
Lemma game_over_halts (b : Board) :
  (∃ cells, cells ∈ b ∧ 0 ∉ cells) →
  isGameOver b = true ∧
  (∀ f g, applyActions b f g = (Ok (b, f), g)) ∧
  (∀ gh gf queue present fresh userActionsOnly,
     step present fresh userActionsOnly (mkGame b gh gf queue)
     = (Ok Finished, mkGame b gh gf queue)) ∧
  (∀ gh gf queue present fresh a,
     keydown present fresh a (mkGame b gh gf queue)
     = (Ok Finished, mkGame b gh gf (queue ++ [a]))).
Proof.
  intros Hfull. apply isGameOver_spec in Hfull. split_and!.
  - done.
  - intros f g. unfold applyActions. by rewrite Hfull.
  - intros gh gf queue present fresh userActionsOnly.
    unfold step, mbind, m_bind, read. cbn [board]. by rewrite Hfull.
  - intros gh gf queue present fresh a.
    unfold keydown, step, push_userAction, mbind, m_bind, read. cbn [board].
    by rewrite Hfull.
Qed.

(** C8.  The state in which the game is over can be left.  On the
    board of 10 columns of 20 cells, with floats that [newFloat(10)]
    makes: a tick that found two full rows has removed one and waits;
    the drop key pressed during the wait fills column 5, the game is
    over; the tick is resumed, removes the second row, and the game is
    not over any more. *)
Theorem game_over_left :
  Forall (made_by_newFloat 10) [square; hook; bar] ∧
  ∃ halted later,
    run true interrupted (start 10 20) = Ok halted ∧
    isGameOver (board (game halted)) = true ∧
    float (game halted) = None ∧
    waiting halted = [(2, 0)] ∧
    handle true (Wake 0) halted = Ok later ∧
    isGameOver (board (game later)) = false ∧
    board (game later) = shift_down 1 <$> board (game halted).
Proof.
  split.
  - repeat apply Forall_cons_2; [| | | apply Forall_nil_2].
    + exists [2; 1; 2; 0]. split; [repeat constructor; lia | vm_compute; reflexivity].
    + exists [1; 2; 1; 2; 2]. split; [repeat constructor; lia | vm_compute; reflexivity].
    + exists [1; 2; 1; 2; 1; 2]. split; [repeat constructor; lia | vm_compute; reflexivity].
  - destruct (run true interrupted (start 10 20)) as [halted|e] eqn:Hrun;
      [| vm_compute in Hrun; discriminate].
    destruct (handle true (Wake 0) halted) as [later|e] eqn:Hwake.
    + exists halted, later.
      vm_compute in Hrun. injection Hrun as <-.
      vm_compute in Hwake. injection Hwake as <-.
      split_and!; vm_compute; reflexivity.
    + vm_compute in Hrun. injection Hrun as <-. vm_compute in Hwake. discriminate.
Qed.

(** ** Rotation *)

Section rotation.

Lemma fold_left_min_shift (d : Z) (rest : list Z) :
  ∀ a, fold_left Z.min (map (λ v, v + d) rest) (a + d) = fold_left Z.min rest a + d.
Proof.
  induction rest as [|c rest IH]; intros a; simpl; [done |].
  by rewrite Z.add_min_distr_r, IH.
Qed.

(** Normalising is a translation, and it forgets translations. *)
Lemma normalise_is_translate (g : TileGroup) :
  ∃ dx dy, normaliseTileGroup g = map (translate dx dy) g.
Proof.
  destruct g as [|first rest]; [by exists 0, 0 |].
  exists (- fold_left Z.min (map fst rest) first.1),
         (- fold_left Z.min (map snd rest) first.2).
  unfold normaliseTileGroup. apply map_ext. intros t. unfold translate.
  f_equal; lia.
Qed.

Lemma normalise_translate (dx dy : Z) (g : TileGroup) :
  normaliseTileGroup (map (translate dx dy) g) = normaliseTileGroup g.
Proof.
  destruct g as [|first rest]; [done |].
  unfold normaliseTileGroup. cbn [map].
  rewrite !map_map. cbn [translate fst snd].
  rewrite <- (map_map fst (λ v, v + dx)), <- (map_map snd (λ v, v + dy)).
  rewrite !fold_left_min_shift. f_equal; [f_equal; lia |].
  apply map_ext. intros t. f_equal; lia.
Qed.

Lemma quarter_turn_translate (dx dy : Z) (g : TileGroup) :
  map quarter_turn (map (translate dx dy) g)
  = map (translate (- dy) dx) (map quarter_turn g).
Proof.
  rewrite !map_map. apply map_ext. intros t.
  unfold quarter_turn, translate. simpl. f_equal. lia.
Qed.

Lemma rotate_unfold (g : TileGroup) :
  rotateTileGroup g = normaliseTileGroup (map quarter_turn g).
Proof. done. Qed.

Lemma rotate_translate (dx dy : Z) (g : TileGroup) :
  rotateTileGroup (map (translate dx dy) g) = rotateTileGroup g.
Proof. by rewrite !rotate_unfold, quarter_turn_translate, normalise_translate. Qed.

Lemma rotate_normalise (g : TileGroup) :
  rotateTileGroup (normaliseTileGroup g) = rotateTileGroup g.
Proof.
  destruct (normalise_is_translate g) as (dx & dy & ->). apply rotate_translate.
Qed.

Lemma four_quarter_turns (g : TileGroup) :
  map quarter_turn (map quarter_turn (map quarter_turn (map quarter_turn g))) = g.
Proof.
  rewrite !map_map. rewrite <- (map_id g) at 2. apply map_ext.
  intros [tx ty]. unfold quarter_turn. simpl. f_equal; lia.
Qed.

(** Four rotations normalise the group and do nothing else. *)
Lemma rotate_four_normalises (g : TileGroup) :
  Nat.iter 4 rotateTileGroup g = normaliseTileGroup g.
Proof.
  cbn [Nat.iter nat_rect].
  rewrite (rotate_unfold g), !rotate_normalise.
  rewrite (rotate_unfold (map quarter_turn g)), !rotate_normalise.
  rewrite (rotate_unfold (map quarter_turn (map quarter_turn g))), rotate_normalise.
  by rewrite rotate_unfold, four_quarter_turns.
Qed.

Lemma fold_left_min_zero (rest : list Z) (a : Z) :
  0 ∈ a :: rest → Forall (λ v, 0 ≤ v) (a :: rest) → fold_left Z.min rest a = 0.
Proof.
  intros Hzero Hpos. destruct (fold_left_min_spec rest a) as [Hin Hlb].
  pose proof (Hlb 0 Hzero) as Hle.
  rewrite Forall_forall in Hpos. pose proof (Hpos _ Hin). lia.
Qed.

Lemma normalise_normalised (g : TileGroup) :
  normalised g → normaliseTileGroup g = g.
Proof.
  intros [-> | ((tx & Htx & Hx0) & (ty & Hty & Hy0) & Hpos)]; [done |].
  destruct g as [|first rest]; [by apply elem_of_nil in Htx |].
  unfold normaliseTileGroup.
  change (first.1 :: map fst rest) with (map fst (first :: rest)) in *.
  rewrite (fold_left_min_zero (map fst rest) first.1).
  - rewrite (fold_left_min_zero (map snd rest) first.2).
    + rewrite <- (map_id (first :: rest)) at 2. apply map_ext.
      intros [ax ay]. simpl. f_equal; lia.
    + change (0 ∈ map snd (first :: rest)). rewrite <- Hy0.
      apply list_elem_of_In, in_map, list_elem_of_In, Hty.
    + change (Forall (λ v, 0 ≤ v) (map snd (first :: rest))).
      apply Forall_forall. intros v Hv.
      apply list_elem_of_In, in_map_iff in Hv as (t & <- & Ht).
      rewrite Forall_forall in Hpos. apply Hpos. by apply list_elem_of_In.
  - change (0 ∈ map fst (first :: rest)). rewrite <- Hx0.
    apply list_elem_of_In, in_map, list_elem_of_In, Htx.
  - change (Forall (λ v, 0 ≤ v) (map fst (first :: rest))).
    apply Forall_forall. intros v Hv.
    apply list_elem_of_In, in_map_iff in Hv as (t & <- & Ht).
    rewrite Forall_forall in Hpos. apply Hpos. by apply list_elem_of_In.
Qed.

End rotation.

(** C6.  Rotating a tile group four times gives the group back: the
    same tiles in the same order, hence the same set of coordinates. *)
Theorem rotate_four_times (g : TileGroup) :
  normalised g →
  Nat.iter 4 rotateTileGroup g = g ∧
  ∀ t, t ∈ Nat.iter 4 rotateTileGroup g ↔ t ∈ g.
Proof.
  intros Hg.
  assert (Heq : Nat.iter 4 rotateTileGroup g = g).
  { rewrite rotate_four_normalises. by apply normalise_normalised. }
  split; [done |]. intros t. by rewrite Heq.
Qed.

Lemma rotate_four_times_witness :
  let g := [(0, 0); (1, 0); (1, 1); (2, 1)] in
  Nat.iter 4 rotateTileGroup g = g ∧
  ∀ t, t ∈ Nat.iter 4 rotateTileGroup g ↔ t ∈ g.
Proof.
  intros g. apply (rotate_four_times g). right. split_and!.
  - exists (0, 0). split; [apply list_elem_of_here | reflexivity].
  - exists (0, 0). split; [apply list_elem_of_here | reflexivity].
  - repeat constructor; simpl; lia.
Defined.

(** ** Scenarios of the specification *)

Section scenarios.

(** A drop on the empty 3x3 board. *)
Example drop_on_empty_board :
  let b := [[0; 0; 0]; [0; 0; 0]; [0; 0; 0]] in
  let f := mkFloat [(0, 0); (1, 0)] 0 0 in
  (applyActions b (Some f) (mkGame b b (Some f) [ArrowDown])).1
  = Ok ([[0; 0; 1]; [0; 0; 1]; [0; 0; 0]], None).
Proof. vm_compute. reflexivity. Qed.

(** Four tiles sent to one column with three empty cells: three land,
    stacked, and the fourth is lost. *)
Example drop_into_short_column :
  dropFloatingTiles [[0; 0; 0; 1]]
    (Some (mkFloat [(0, 0); (0, 1); (0, 2); (0, 3)] 0 0))
  = Ok [[1; 1; 1; 1]].
Proof. vm_compute. reflexivity. Qed.

(** A tile sent outside the board raises a [TypeError]. *)
Example drop_outside_board :
  dropFloatingTiles [[0; 0]] (Some (mkFloat [(0, 0); (1, 0)] 0 0)) = Err TypeError.
Proof. vm_compute. reflexivity. Qed.

(** With the span as width, a move to the right lets the rightmost tile
    reach the last column of the board. *)
Example right_edge_reached :
  let b := replicate 10 (replicate 20 0) in
  let f := mkFloat [(0, 0); (1, 0); (2, 0)] 6 0 in
  (applyActions b (Some f) (mkGame b b (Some f) [ArrowRight; ArrowRight])).1
  = Ok (b, Some (mkFloat [(0, 0); (1, 0); (2, 0)] 7 0)).
Proof. vm_compute. reflexivity. Qed.

Example full_bottom_row :
  let b := [[0; 0; 1]; [0; 0; 1]] in
  getBottomContiguous b = Ok 1 ∧ removeBottomRow b 1 = Ok [[0; 0; 0]; [0; 0; 0]].
Proof. split; vm_compute; reflexivity. Qed.

Example full_board :
  let b := [[1; 1]; [1; 1]] in
  getBottomContiguous b = Ok 2 ∧ isGameOver b = true.
Proof. split; vm_compute; reflexivity. Qed.

(** A tick on a running game: the float advances by one row. *)
Example tick_advances_float :
  let b := [[0; 0; 0]; [0; 0; 0]] in
  let f := mkFloat [(0, 0); (1, 0)] 0 0 in
  step true f false (mkGame b b None [])
  = (Ok Finished, mkGame b b (Some (mkFloat [(0, 0); (1, 0)] 0 1)) []).
Proof. vm_compute. reflexivity. Qed.

(** A tick on which the float reaches the floor: it settles. *)
Example tick_settles_float :
  let b := [[0; 0; 0]; [0; 0; 0]] in
  let f := mkFloat [(0, 0); (1, 0)] 0 2 in
  step true f false (mkGame b b (Some f) [])
  = (Ok Finished, mkGame [[0; 0; 1]; [0; 0; 1]] [[0; 0; 1]; [0; 0; 1]] None []).
Proof. vm_compute. reflexivity. Qed.

(** A tick that finds a full row removes it and waits; resumed, it
    draws, advances the float and ends. *)
Example tick_waits :
  let b := [[0; 0; 1]; [0; 1; 1]] in
  let f := mkFloat [(0, 0)] 0 0 in
  step true f false (mkGame b b (Some f) [])
  = (Ok (Awaits 1 0), mkGame [[0; 0; 0]; [0; 0; 1]] b (Some f) []) ∧
  stepResume true 1 0 (mkGame [[0; 0; 0]; [0; 0; 1]] b (Some f) [])
  = (Ok Finished,
     mkGame [[0; 0; 0]; [0; 0; 1]] [[0; 0; 0]; [0; 0; 0]]
       (Some (mkFloat [(0, 0)] 0 1)) []).
Proof. split; vm_compute; reflexivity. Qed.

Example rotate_non_normalised :
  Nat.iter 4 rotateTileGroup [(1, 1)] = [(0, 0)].
Proof. vm_compute. reflexivity. Qed.

End scenarios.

(** * Further properties of the code *)

(** ** Gravity keeps the tiles *)

Section gravity.

Lemma iterColumn_tiles (cells : list Z) :
  List.filter (λ c, negb (c =? 0)) (iterColumn cells)
  = List.filter (λ c, negb (c =? 0)) cells ∧
  occupiedCells (iterColumn cells) = occupiedCells cells ∧
  empties (iterColumn cells) = empties cells.
Proof.
  destruct (lastIndexOf_spec cells 0) as [[_ Hnot] | (above & below & -> & Hnot & _)].
  - by rewrite iterColumn_full.
  - rewrite iterColumn_gap by done. split_and!.
    + simpl. by rewrite !List.filter_app.
    + simpl. by rewrite !occupiedCells_app.
    + simpl. rewrite !empties_app. simpl. lia.
Qed.

Lemma occupied_compaction (b : Board) : occupied (iterColumn <$> b) = occupied b.
Proof.
  unfold occupied. induction b as [|cells rest IH]; [done |].
  rewrite fmap_cons. simpl. rewrite IH.
  by destruct (iterColumn_tiles cells) as (_ & -> & _).
Qed.

Lemma js_some_false {A} (p : A → Res bool) (arr : list A) :
  Forall (λ a, p a = Ok false) arr → js_some p arr = Ok false.
Proof.
  induction 1 as [|a rest Ha _ IH]; simpl; [done |]. rewrite Ha. simpl. exact IH.
Qed.

Lemma collides_false (b : Board) (nf : Float) (t : Z * Z) :
  0 ≤ t.1 + x nf < Z.of_nat (length b) → ¬ tile_collides b nf t →
  collides b nf t = Ok false.
Proof.
  intros Hin Hfree. destruct (collides_total b nf t Hin) as [[|] Hr]; [| done].
  by apply collides_spec in Hr.
Qed.

End gravity.

(** A gravity step of a column keeps its occupied cells, in their
    order, hence their number and the number of empty cells. *)
Theorem iterColumn_keeps_tiles (cells : list Z) :
  List.filter (λ c, negb (c =? 0)) (iterColumn cells)
  = List.filter (λ c, negb (c =? 0)) cells ∧
  occupiedCells (iterColumn cells) = occupiedCells cells ∧
  empties (iterColumn cells) = empties cells.
Proof. apply iterColumn_tiles. Qed.

(** Without a collision [iterBoard] returns the compacted board and
    the float one row lower; the number of occupied cells of the board
    is the same. *)
Theorem iterBoard_advances (b : Board) (f : Float) :
  in_columns b f →
  Forall (λ t, ¬ tile_collides b (advance f) t) (value f) →
  iterBoard b (Some f)
  = Ok (iterColumn <$> b, Some (mkFloat (value f) (x f) (y f + 1))) ∧
  occupied (iterColumn <$> b) = occupied b.
Proof.
  intros Hin Hfree. split; [| apply occupied_compaction].
  unfold iterBoard. cbn [fmap option_fmap option_map advance value].
  rewrite (js_some_false (collides b (advance f)) (value f)); [done |].
  unfold in_columns in Hin. rewrite Forall_forall in Hin, Hfree.
  apply Forall_forall. intros t Ht. apply collides_false; [by apply Hin | by apply Hfree].
Qed.

Lemma iterBoard_advances_witness :
  let b := [[0; 0; 1]; [1; 0; 0]] in
  let f := mkFloat [(0, 0); (1, 0)] 0 0 in
  iterBoard b (Some f) = Ok ([[0; 0; 1]; [0; 1; 0]], Some (mkFloat [(0, 0); (1, 0)] 0 1)).
Proof.
  intros b f. apply (iterBoard_advances b f).
  - repeat constructor; simpl; lia.
  - repeat constructor; intros (column & Hget & Hcase); vm_compute in Hget;
      injection Hget as <-; destruct Hcase as [(v & Hv & Hne) | Hlen];
      vm_compute in *; congruence.
Defined.

(** ** Removing rows *)

Section rows.

Lemma res_map_fmap {A B} (f : A → Res B) (g : A → B) (arr : list A) :
  (∀ a, a ∈ arr → f a = Ok (g a)) → res_map f arr = Ok (g <$> arr).
Proof.
  induction arr as [|a rest IH]; intros Hf; [done |].
  simpl. rewrite (Hf a) by apply list_elem_of_here. simpl.
  rewrite IH; [done |]. intros a' Ha'. apply Hf. by apply list_elem_of_further.
Qed.

Lemma removeLastCell_shift (count : Z) (cells : list Z) :
  1 ≤ count → removeLastCell count cells = Ok (shift_down (Z.to_nat count) cells).
Proof.
  intros Hcount. unfold removeLastCell, js_slice0, shift_down.
  destruct (Z.ltb_spec count 0); [lia |].
  destruct (Z.ltb_spec (- count) 0); [| lia].
  do 3 f_equal. lia.
Qed.

Lemma removeBottomRow_shift (b : Board) (count : Z) :
  1 ≤ count → removeBottomRow b count = Ok (shift_down (Z.to_nat count) <$> b).
Proof.
  intros Hcount. apply res_map_fmap. intros cells _. by apply removeLastCell_shift.
Qed.

Lemma shift_down_length (n : nat) (cells : list Z) :
  (n ≤ length cells)%nat → length (shift_down n cells) = length cells.
Proof.
  intros Hn. unfold shift_down. rewrite length_app, length_replicate, length_take. lia.
Qed.

Lemma shift_down_top (n : nat) (cells : list Z) (j : nat) :
  (j < n)%nat → shift_down n cells !! j = Some 0.
Proof.
  intros Hj. unfold shift_down.
  rewrite lookup_app_l by (rewrite length_replicate; lia).
  by apply lookup_replicate_2.
Qed.

Lemma shift_down_below (n : nat) (cells : list Z) (j : nat) :
  (n ≤ j < length cells)%nat → shift_down n cells !! j = cells !! (j - n)%nat.
Proof.
  intros Hj. unfold shift_down.
  rewrite lookup_app_r by (rewrite length_replicate; lia).
  rewrite length_replicate. apply lookup_take_lt. lia.
Qed.

Lemma shift_down_add (m n : nat) (cells : list Z) :
  (m + n ≤ length cells)%nat →
  shift_down m (shift_down n cells) = shift_down (m + n) cells.
Proof.
  intros Hmn. unfold shift_down at 1.
  rewrite shift_down_length by lia. unfold shift_down.
  rewrite take_app_ge by (rewrite length_replicate; lia).
  rewrite length_replicate, take_take, app_assoc, <- replicate_add.
  do 2 f_equal. lia.
Qed.

Lemma shift_down_0 (cells : list Z) : shift_down 0 cells = cells.
Proof. unfold shift_down. simpl. rewrite Nat.sub_0_r. apply firstn_all. Qed.

End rows.

(** [removeBottomRow] with a count from 1 to the height: in every
    column the top [count] cells are empty and every cell further down
    is the one that was [count] rows above it; the last [count] cells
    are gone. *)
Theorem removeBottomRow_rows (w h : nat) (b : Board) (count : Z) :
  has_dims w h b →
  1 ≤ count ≤ Z.of_nat h →
  ∃ b', removeBottomRow b count = Ok b' ∧
    ∀ c cells, b !! c = Some cells →
      ∃ cells', b' !! c = Some cells' ∧
        (∀ j, (j < Z.to_nat count)%nat → cells' !! j = Some 0) ∧
        (∀ j, (Z.to_nat count ≤ j < h)%nat →
           cells' !! j = cells !! (j - Z.to_nat count)%nat).
Proof.
  intros Hb Hcount. exists (shift_down (Z.to_nat count) <$> b).
  split; [apply removeBottomRow_shift; lia |].
  intros c cells Hc. exists (shift_down (Z.to_nat count) cells).
  pose proof (has_dims_lookup w h b c cells Hb Hc) as Hlen.
  split_and!.
  - by rewrite list_lookup_fmap, Hc.
  - intros j Hj. by apply shift_down_top.
  - intros j Hj. apply shift_down_below. lia.
Qed.

Lemma removeBottomRow_rows_witness :
  ∃ b', removeBottomRow [[1; 2; 3]; [4; 5; 6]] 2 = Ok b' ∧
    ∀ c cells, [[1; 2; 3]; [4; 5; 6]] !! c = Some cells →
      ∃ cells', b' !! c = Some cells' ∧
        (∀ j, (j < Z.to_nat 2)%nat → cells' !! j = Some 0) ∧
        (∀ j, (Z.to_nat 2 ≤ j < 3)%nat →
           cells' !! j = cells !! (j - Z.to_nat 2)%nat).
Proof.
  apply (removeBottomRow_rows 2 3 [[1; 2; 3]; [4; 5; 6]] 2).
  - split; [reflexivity | repeat constructor].
  - lia.
Defined.

(** [removeBottomRow] outside that range.  A count of 0 empties every
    column, since [cells.slice(0, -0)] is empty; a negative count
    raises a [RangeError] on a board with a column; a count above the
    height and under 2^32 gives columns of [count] empty cells, which
    are longer than before. *)
Theorem removeBottomRow_outside_range (w h : nat) (b : Board) (count : Z) :
  has_dims w h b →
  removeBottomRow b 0 = Ok ((λ _, []) <$> b) ∧
  (count < 0 → b ≠ [] → removeBottomRow b count = Err RangeError) ∧
  (Z.of_nat h < count < 2 ^ 32 →
   removeBottomRow b count = Ok (replicate w (replicate (Z.to_nat count) 0))).
Proof.
  intros Hb. split_and!.
  - apply res_map_fmap. intros cells _. unfold removeLastCell, js_slice0. simpl.
    by rewrite Z.min_l by lia.
  - intros Hneg Hne. destruct b as [|cells rest]; [done |].
    unfold removeBottomRow, removeLastCell. simpl.
    destruct (Z.ltb_spec count 0); [done | lia].
  - intros Hbig. rewrite removeBottomRow_shift by lia.
    f_equal. destruct Hb as [<- Hh].
    induction Hh as [|cells rest Hcells _ IH]; [done |].
    rewrite fmap_cons, IH. simpl. f_equal.
    unfold shift_down. replace (length cells - Z.to_nat count)%nat with O by lia.
    by rewrite take_0, app_nil_r.
Qed.

Lemma removeBottomRow_outside_range_witness :
  removeBottomRow [[1; 1]; [0; 1]] 0 = Ok [[]; []] ∧
  removeBottomRow [[1; 1]; [0; 1]] (-1) = Err RangeError ∧
  removeBottomRow [[1; 1]; [0; 1]] 3 = Ok [[0; 0; 0]; [0; 0; 0]].
Proof.
  destruct (removeBottomRow_outside_range 2 2 [[1; 1]; [0; 1]] (-1))
    as (Hzero & Hneg & _); [split; [reflexivity | repeat constructor] |].
  destruct (removeBottomRow_outside_range 2 2 [[1; 1]; [0; 1]] 3)
    as (_ & _ & Hbig); [split; [reflexivity | repeat constructor] |].
  split_and!.
  - exact Hzero.
  - apply Hneg; [lia | discriminate].
  - apply Hbig. lia.
Defined.

Section clearing.

Context (w h : nat).

Lemma shift_down_dims (n : nat) (b : Board) :
  has_dims w h b → (n ≤ h)%nat → has_dims w h (shift_down n <$> b).
Proof.
  intros [Hw Hh] Hn. split; [by rewrite length_fmap |].
  apply Forall_fmap. eapply Forall_impl; [exact Hh |].
  intros cells Hcells. simpl in *. rewrite shift_down_length; lia.
Qed.

Lemma removeBottomRow_iter (b : Board) :
  has_dims w h b →
  ∀ n, (n ≤ h)%nat →
    Nat.iter n (λ r, board ← r; removeBottomRow board 1) (Ok b)
    = Ok (shift_down n <$> b).
Proof.
  intros Hb. induction n as [|n IH]; intros Hn.
  - simpl. f_equal.
    rewrite <- (list_fmap_id b) at 1. apply Forall_fmap_ext, Forall_forall.
    intros cells _. by rewrite shift_down_0.
  - rewrite Nat.iter_succ, IH by lia. cbn [mbind res_bind].
    rewrite removeBottomRow_shift by lia. f_equal.
    rewrite <- list_fmap_compose.
    apply Forall_fmap_ext. destruct Hb as [_ Hh].
    eapply Forall_impl; [exact Hh |]. intros cells Hcells. simpl in *.
    rewrite shift_down_add by lia. f_equal.
Qed.

End clearing.

(** [board = removeBottomRow(board)] done [n] times over, [n] at most
    the height and nothing else changing the board in between,
    removes [n] rows at once: it gives the board that
    [removeBottomRow(board, n)] returns, of the same dimensions. *)
Theorem removeBottomRow_repeated (w h : nat) (b : Board) (n : nat) :
  has_dims w h b →
  (1 ≤ n ≤ h)%nat →
  ∃ b', removeBottomRow b (Z.of_nat n) = Ok b' ∧
        has_dims w h b' ∧
        Nat.iter n (λ r, board ← r; removeBottomRow board 1) (Ok b) = Ok b'.
Proof.
  intros Hb Hn. exists (shift_down n <$> b). split_and!.
  - rewrite removeBottomRow_shift by lia. by rewrite Nat2Z.id.
  - apply shift_down_dims; [done | lia].
  - apply (removeBottomRow_iter w h); [done | lia].
Qed.

Lemma removeBottomRow_repeated_witness :
  let b := [[0; 1; 1]; [1; 1; 1]] in
  ∃ b', removeBottomRow b (Z.of_nat 2) = Ok b' ∧
        has_dims 2 3 b' ∧
        Nat.iter 2 (λ r, board ← r; removeBottomRow board 1) (Ok b) = Ok b'.
Proof.
  intros b. apply (removeBottomRow_repeated 2 3 b 2).
  - split; [reflexivity | repeat constructor].
  - lia.
Defined.

(** ** Counting the full rows at the bottom *)

Section bottom.

Lemma row_full_spec (b : Board) (j : Z) : row_full b j = true ↔ full_row b j.
Proof.
  unfold row_full, full_row. rewrite forallb_forall. split.
  - intros Hall column Hin. apply truthy_spec, Hall. by apply list_elem_of_In.
  - intros Hall column Hin. apply truthy_spec, Hall. by apply list_elem_of_In.
Qed.

Lemma row_full_false (b : Board) (j : Z) : row_full b j = false ↔ ¬ full_row b j.
Proof.
  rewrite <- row_full_spec. destruct (row_full b j); naive_solver.
Qed.


Lemma bottomLoop_spec (b : Board) (height : Z) (todo : nat) :
  ∀ i, i ≤ bottomLoop b height todo i ≤ i + Z.of_nat todo ∧
    (∀ k, i ≤ k < bottomLoop b height todo i → row_full b (height - k - 1) = true) ∧
    (bottomLoop b height todo i < i + Z.of_nat todo →
     row_full b (height - bottomLoop b height todo i - 1) = false).
Proof.
  induction todo as [|todo IH]; intros i.
  - simpl. split_and!; [lia | lia | intros; lia | lia].
  - cbn [bottomLoop]. destruct (row_full b (height - i - 1)) eqn:Hrow.
    + destruct (IH (i + 1)) as ((Hlo & Hhi) & Hfull & Hstop).
      split_and!; [lia | lia | |].
      * intros k Hk. destruct (decide (k = i)) as [-> | Hne]; [done |].
        apply Hfull. lia.
      * intros Hlt. apply Hstop. lia.
    + split_and!; [lia | lia | intros; lia | done].
Qed.

End bottom.

Lemma bottom_count_spec (first : list Z) (rest : Board) :
  let b := first :: rest in
  let h := Z.of_nat (length first) in
  ∃ r, getBottomContiguous b = Ok r ∧
    0 ≤ r ≤ h ∧
    (∀ k, 0 ≤ k < r → full_row b (h - k - 1)) ∧
    (r < h → ¬ full_row b (h - r - 1)).
Proof.
  intros b h. exists (bottomLoop b h (length first) 0). split; [done |].
  destruct (bottomLoop_spec b h (length first) 0) as (Hrange & Hfull & Hstop).
  split_and!; [lia | lia | |].
  - intros k Hk. by apply row_full_spec, Hfull.
  - intros Hlt. apply row_full_false, Hstop. lia.
Qed.

Lemma bottom_count_extremes (w h : nat) (b : Board) :
  has_dims w h b →
  (1 ≤ w)%nat →
  ((∀ cells, cells ∈ b → 0 ∉ cells) → getBottomContiguous b = Ok (Z.of_nat h)) ∧
  ((∃ cells, cells ∈ b ∧ js_get cells (Z.of_nat h - 1) = Some 0) →
   getBottomContiguous b = Ok 0).
Proof.
  intros Hb Hw. destruct b as [|first rest] eqn:Hbeq; [destruct Hb; simpl in *; lia |].
  rewrite <- Hbeq in *.
  assert (Hfirst : length first = h).
  { apply (has_dims_lookup w h b O first Hb). by rewrite Hbeq. }
  destruct (bottom_count_spec first rest) as (r & Hr & Hrange & Hfull & Hstop).
  rewrite <- Hbeq, Hfirst in *. rewrite Hr. split.
  - intros Hnone. f_equal.
    destruct (decide (r = Z.of_nat h)) as [-> | Hne]; [done |].
    exfalso. apply Hstop; [lia |].
    intros column Hcolumn.
    destruct (js_get_in_range column (Z.of_nat h - r - 1)) as [v Hv].
    { apply list_elem_of_lookup in Hcolumn as [c Hc].
      rewrite (has_dims_lookup w h b c column Hb Hc). lia. }
    exists v. split; [done |]. intros ->.
    apply (Hnone column Hcolumn).
    apply js_get_Some in Hv as [_ Hv]. by eapply list_elem_of_lookup_2.
  - intros (cells & Hcells & Hlast). f_equal.
    destruct (decide (r = 0)) as [-> | Hne]; [done |].
    exfalso. destruct (Hfull 0 ltac:(lia) cells Hcells) as (v & Hv & Hnz).
    rewrite Z.sub_0_r in Hv. congruence.
Qed.

(** [getBottomContiguous] on a board with a column returns the number
    [r] of full rows at the bottom, the height being the one of the
    first column: [r] is at most the height, the last [r] rows are
    occupied in every column, and the row above them, if there is
    one, is not. *)
Theorem getBottomContiguous_counts (first : list Z) (rest : Board) :
  let b := first :: rest in
  let h := Z.of_nat (length first) in
  ∃ r, getBottomContiguous b = Ok r ∧
    0 ≤ r ≤ h ∧
    (∀ k, 0 ≤ k < r → full_row b (h - k - 1)) ∧
    (r < h → ¬ full_row b (h - r - 1)).
Proof. apply bottom_count_spec. Qed.

(** On a board without an empty cell [getBottomContiguous] returns the
    height; on a board whose last row has an empty cell it returns 0. *)
Theorem getBottomContiguous_extremes (w h : nat) (b : Board) :
  has_dims w h b →
  (1 ≤ w)%nat →
  ((∀ cells, cells ∈ b → 0 ∉ cells) → getBottomContiguous b = Ok (Z.of_nat h)) ∧
  ((∃ cells, cells ∈ b ∧ js_get cells (Z.of_nat h - 1) = Some 0) →
   getBottomContiguous b = Ok 0).
Proof. apply bottom_count_extremes. Qed.

Lemma getBottomContiguous_extremes_witness :
  getBottomContiguous [[1; 2]; [3; 4]] = Ok 2 ∧
  getBottomContiguous [[0; 1]; [1; 0]] = Ok 0.
Proof.
  split.
  - apply (getBottomContiguous_extremes 2 2 [[1; 2]; [3; 4]]).
    + split; [reflexivity | repeat constructor].
    + lia.
    + intros cells Hcells Hzero.
      apply list_elem_of_In in Hcells. apply list_elem_of_In in Hzero.
      simpl in Hcells. destruct Hcells as [<- | [<- | []]]; simpl in Hzero;
        destruct Hzero as [Hz | [Hz | []]]; discriminate.
  - apply (getBottomContiguous_extremes 2 2 [[0; 1]; [1; 0]]).
    + split; [reflexivity | repeat constructor].
    + lia.
    + exists [1; 0]. split; [| reflexivity].
      apply list_elem_of_further, list_elem_of_here.
Defined.



(** ** Loops that write a board cell by cell *)

Section writes.

Lemma map_index_length {A B} (g : A → Z → B) (arr : list A) :
  ∀ i, length (map_index g i arr) = length arr.
Proof. induction arr as [|a rest IH]; intros i; simpl; [done | by rewrite IH]. Qed.

Lemma map_index_lookup {A B} (g : A → Z → B) (arr : list A) :
  ∀ i k, map_index g i arr !! k = (λ a, g a (i + Z.of_nat k)) <$> arr !! k.
Proof.
  induction arr as [|a rest IH]; intros i k; [done |].
  destruct k as [|k]; simpl.
  - by rewrite Z.add_0_r.
  - rewrite IH. destruct (rest !! k); simpl; [| done]. do 2 f_equal. lia.
Qed.

Lemma js_get_nat {A} (arr : list A) (n : nat) : js_get arr (Z.of_nat n) = arr !! n.
Proof.
  unfold js_get. destruct (Z.ltb_spec (Z.of_nat n) 0); [lia |]. by rewrite Nat2Z.id.
Qed.

(** Two loop bodies that agree on the indices run through give the
    same loop. *)
Lemma forEach_ext {A St} (body1 body2 : St → A → Z → Res St) (hi : Z) (arr : list A) :
  (∀ s a k, 0 ≤ k < hi → body1 s a k = body2 s a k) →
  ∀ i s, 0 ≤ i → i + Z.of_nat (length arr) ≤ hi →
    forEach body1 i arr s = forEach body2 i arr s.
Proof.
  intros Hext. induction arr as [|a rest IH]; intros i s Hi Hhi; [done |].
  rewrite length_cons, Nat2Z.inj_succ in Hhi. simpl.
  rewrite Hext by lia. destruct (body2 s a i) as [s'|e]; simpl; [| done].
  apply IH; lia.
Qed.

Lemma board_set_in_range (d : Board) (i j : nat) (dcol : list Z) (v : Z) :
  d !! i = Some dcol → (j < length dcol)%nat →
  board_set d (Z.of_nat i) (Z.of_nat j) v = Ok (<[i := <[j := v]> dcol]> d).
Proof.
  intros Hd Hj. unfold board_set. rewrite js_get_nat, Hd.
  rewrite js_set_in_range by lia. by rewrite !Nat2Z.id.
Qed.

(** The inner loop: the cells [j], [j + 1], ... of column [i] are
    overwritten, the rest of the board is as before. *)
Lemma column_writes (val : Z → Z → Z) (i : nat) (column : list Z) :
  ∀ (j : nat) (d : Board) (dcol : list Z),
  d !! i = Some dcol →
  (j + length column ≤ length dcol)%nat →
  forEach (λ d v jz, board_set d (Z.of_nat i) jz (val v jz)) (Z.of_nat j) column d
  = Ok (<[i := take j dcol ++ map_index val (Z.of_nat j) column
                 ++ drop (j + length column) dcol]> d).
Proof.
  induction column as [|v rest IH]; intros j d dcol Hd Hlen.
  - simpl. rewrite Nat.add_0_r, take_drop. by rewrite list_insert_id.
  - simpl in Hlen. cbn [forEach map_index].
    rewrite (board_set_in_range d i j dcol) by (done || lia).
    cbn [mbind res_bind].
    replace (Z.of_nat j + 1) with (Z.of_nat (S j)) by lia.
    rewrite (IH (S j) _ (<[j := val v (Z.of_nat j)]> dcol)).
    + rewrite list_insert_insert_eq. f_equal.
      rewrite (take_S_r _ j (val v (Z.of_nat j)))
        by (apply list_lookup_insert_eq; lia).
      rewrite take_insert_ge by lia. rewrite drop_insert_lt by lia.
      rewrite <- app_assoc. simpl.
      by replace (j + S (length rest))%nat with (S (j + length rest)) by lia.
    + apply list_lookup_insert_eq. by eapply lookup_lt_Some.
    + rewrite length_insert. lia.
Qed.

(** The whole nested loop on a target whose columns are as long as the
    ones read: the columns [i], [i + 1], ... are replaced. *)
Lemma board_writes (val : Z → Z → Z → Z) (h : nat) (cols : Board) :
  ∀ (i : nat) (d : Board),
  Forall (λ c, length c = h) cols →
  Forall (λ c, length c = h) d →
  (i + length cols ≤ length d)%nat →
  forEach (λ d column iz,
             forEach (λ d v jz, board_set d iz jz (val iz v jz)) 0 column d)
          (Z.of_nat i) cols d
  = Ok (take i d ++ map_index (λ column iz, map_index (val iz) 0 column) (Z.of_nat i) cols
          ++ drop (i + length cols) d).
Proof.
  induction cols as [|column rest IH]; intros i d Hcols Hd Hlen.
  - simpl. by rewrite Nat.add_0_r, take_drop.
  - apply Forall_cons in Hcols as [Hcolumn Hrest]. simpl in Hlen.
    cbn [forEach map_index].
    destruct (lookup_lt_is_Some_2 d i) as [dcol Hdcol]; [lia |].
    assert (Hdlen : length dcol = h) by (by eapply Forall_lookup_1 in Hd).
    pose proof (column_writes (val (Z.of_nat i)) i column 0 d dcol Hdcol) as Hcol.
    change (Z.of_nat 0) with 0 in Hcol. rewrite Hcol by (simpl; lia). clear Hcol.
    cbn [mbind res_bind]. rewrite take_0, app_nil_l.
    rewrite (drop_ge dcol) by (simpl; lia). rewrite app_nil_r.
    replace (Z.of_nat i + 1) with (Z.of_nat (S i)) by lia.
    rewrite IH; [| done | | rewrite length_insert; lia].
    + f_equal.
      rewrite (take_S_r _ i (map_index (val (Z.of_nat i)) 0 column))
        by (apply list_lookup_insert_eq; lia).
      rewrite take_insert_ge by lia. rewrite drop_insert_lt by lia.
      rewrite <- app_assoc. simpl.
      by replace (i + S (length rest))%nat with (S (i + length rest)) by lia.
    + apply Forall_insert; [done |]. by rewrite map_index_length.
Qed.

Lemma board_ext (w h : nat) (d1 d2 : Board) :
  has_dims w h d1 → has_dims w h d2 →
  (∀ i j c1 c2 v, d1 !! i = Some c1 → d2 !! i = Some c2 → c1 !! j = Some v →
     c2 !! j = Some v) →
  d1 = d2.
Proof.
  intros H1 H2 Hcells. apply list_eq. intros i.
  destruct (d1 !! i) as [c1|] eqn:Hc1.
  - destruct (lookup_lt_is_Some_2 d2 i) as [c2 Hc2].
    { destruct H1 as [<- _]. destruct H2 as [-> _]. by eapply lookup_lt_Some. }
    rewrite Hc2. f_equal. apply list_eq. intros j.
    pose proof (has_dims_lookup w h d1 i c1 H1 Hc1) as Hl1.
    pose proof (has_dims_lookup w h d2 i c2 H2 Hc2) as Hl2.
    destruct (c1 !! j) as [v|] eqn:Hv.
    + symmetry. by eapply Hcells.
    + symmetry. apply lookup_ge_None. apply lookup_ge_None in Hv. lia.
  - symmetry. apply lookup_ge_None. apply lookup_ge_None in Hc1.
    destruct H1 as [<- _]. destruct H2 as [-> _]. done.
Qed.

End writes.

(** ** boardDiff and copyBoardAIntoB *)

Section diff.

Context (w h : nat).

Lemma boardDiff_cells (a b : Board) :
  has_dims w h a → (1 ≤ w)%nat → (w ≤ length b)%nat →
  ∃ d, boardDiff a b = Ok d ∧ has_dims w h d ∧
    ∀ i j ca cb va, a !! i = Some ca → b !! i = Some cb → ca !! j = Some va →
      ∃ cd, d !! i = Some cd ∧ cd !! j = Some (differs va (cb !! j)).
Proof.
  intros Ha Hw Hb.
  set (val := λ (iz v jz : Z),
         match js_get b iz with
         | Some columnB => differs v (js_get columnB jz)
         | None => 1
         end).
  exists (map_index (λ column iz, map_index (val iz) 0 column) 0 a).
  assert (Hrun : boardDiff a b
                 = Ok (map_index (λ column iz, map_index (val iz) 0 column) 0 a)).
  { unfold boardDiff, cloneBoard.
    destruct a as [|first rest] eqn:Heq; [destruct Ha; simpl in *; lia |].
    rewrite <- Heq in *.
    assert (Hfirst : length first = h).
    { apply (has_dims_lookup w h a O first Ha). by rewrite Heq. }
    destruct Ha as [Hlen Hcols]. rewrite Hfirst, Hlen.
    rewrite (forEach_ext _
      (λ d column iz, forEach (λ d v jz, board_set d iz jz (val iz v jz)) 0 column d)
      (Z.of_nat w)); [| | lia | lia].
    - pose proof (board_writes val h a 0 (newBoard w h) Hcols) as Hwrites.
      change (Z.of_nat 0) with 0 in Hwrites. rewrite Hwrites.
      + rewrite take_0, app_nil_l, drop_ge, app_nil_r; [done |].
        unfold newBoard. rewrite length_replicate. lia.
      + apply (newBoard_dims w h).
      + unfold newBoard. rewrite length_replicate. lia.
    - intros s column k Hk.
      destruct (js_get_in_range b k) as [columnB HcolumnB]; [lia |].
      apply (forEach_ext _ _ (Z.of_nat (length column))); [| lia | lia].
      intros s' v jz _. unfold val. by rewrite HcolumnB. }
  split; [done |]. split; [by eapply boardDiff_dims |].
  intros i j ca cb va Hca Hcb Hva. eexists. split.
  - rewrite map_index_lookup, Hca. done.
  - rewrite map_index_lookup, Hva. simpl. f_equal.
    unfold val. by rewrite ?Z.add_0_l, js_get_nat, Hcb, js_get_nat.
Qed.

End diff.

(** [boardDiff] on two boards of the same dimensions, with a column at
    least: the result has these dimensions, holds 1 where the two
    boards differ and 0 where they agree, does not depend on the order
    of the two boards, and is the empty board when they are equal. *)
Theorem boardDiff_marks_changes (w h : nat) (a b : Board) :
  has_dims w h a →
  has_dims w h b →
  (1 ≤ w)%nat →
  ∃ d, boardDiff a b = Ok d ∧ has_dims w h d ∧
    (∀ i j ca cb va vb,
       a !! i = Some ca → b !! i = Some cb → ca !! j = Some va → cb !! j = Some vb →
       ∃ cd, d !! i = Some cd ∧ cd !! j = Some (if decide (va = vb) then 0 else 1)) ∧
    boardDiff b a = Ok d ∧
    (a = b → d = newBoard w h).
Proof.
  intros Ha Hb Hw.
  destruct (boardDiff_cells w h a b Ha Hw) as (d & Hd & Hdims & Hcells);
    [destruct Hb; lia |].
  destruct (boardDiff_cells w h b a Hb Hw) as (d' & Hd' & Hdims' & Hcells');
    [destruct Ha; lia |].
  assert (Hcell : ∀ i j ca cb va vb,
    a !! i = Some ca → b !! i = Some cb → ca !! j = Some va → cb !! j = Some vb →
    ∃ cd, d !! i = Some cd ∧ cd !! j = Some (if decide (va = vb) then 0 else 1)).
  { intros i j ca cb va vb Hca Hcb Hva Hvb.
    destruct (Hcells i j ca cb va Hca Hcb Hva) as (cd & Hcd & Hv).
    exists cd. split; [done |]. rewrite Hv, Hvb. simpl.
    case_decide; destruct (Z.eqb_spec va vb); done. }
  exists d. split_and!; [done | done | exact Hcell | |].
  - rewrite Hd'. f_equal. apply (board_ext w h); [done | done |].
    intros i j cd' cd v Hcd' Hcd Hv.
    destruct (lookup_lt_is_Some_2 a i) as [ca Hca].
    { destruct Ha as [-> _]. destruct Hdims as [<- _]. by eapply lookup_lt_Some. }
    destruct (lookup_lt_is_Some_2 b i) as [cb Hcb].
    { destruct Hb as [-> _]. destruct Hdims as [<- _]. by eapply lookup_lt_Some. }
    pose proof (has_dims_lookup w h a i ca Ha Hca).
    pose proof (has_dims_lookup w h b i cb Hb Hcb).
    pose proof (has_dims_lookup w h d' i cd' Hdims' Hcd').
    apply lookup_lt_Some in Hv as Hj.
    destruct (lookup_lt_is_Some_2 ca j) as [va Hva]; [lia |].
    destruct (lookup_lt_is_Some_2 cb j) as [vb Hvb]; [lia |].
    destruct (Hcell i j ca cb va vb Hca Hcb Hva Hvb) as (cd0 & Hcd0 & Hv0).
    destruct (Hcells' i j cb ca vb Hcb Hca Hvb) as (cd1 & Hcd1 & Hv1).
    rewrite Hva in Hv1. simpl in Hv1.
    assert (cd0 = cd) as -> by congruence. assert (cd1 = cd') as -> by congruence.
    rewrite Hv0. rewrite Hv in Hv1. injection Hv1 as ->.
    f_equal. case_decide; destruct (Z.eqb_spec vb va); congruence.
  - intros <-. apply (board_ext w h); [done | apply newBoard_dims |].
    intros i j cd cn v Hcd Hcn Hv.
    destruct (lookup_lt_is_Some_2 a i) as [ca Hca].
    { destruct Ha as [-> _]. destruct Hdims as [<- _]. by eapply lookup_lt_Some. }
    pose proof (has_dims_lookup w h a i ca Ha Hca).
    pose proof (has_dims_lookup w h d i cd Hdims Hcd).
    apply lookup_lt_Some in Hv as Hj.
    destruct (lookup_lt_is_Some_2 ca j) as [va Hva]; [lia |].
    destruct (Hcell i j ca ca va va Hca Hca Hva Hva) as (cd0 & Hcd0 & Hv0).
    assert (cd0 = cd) as -> by congruence.
    rewrite Hv in Hv0. injection Hv0 as ->.
    unfold newBoard in Hcn. apply lookup_replicate_1 in Hcn as [-> _].
    rewrite decide_True by done. apply lookup_replicate_2. lia.
Qed.

Lemma boardDiff_marks_changes_witness :
  ∃ d, boardDiff [[0; 1]; [1; 1]] [[0; 1]; [0; 1]] = Ok d ∧ has_dims 2 2 d ∧
    (∀ i j ca cb va vb,
       [[0; 1]; [1; 1]] !! i = Some ca → [[0; 1]; [0; 1]] !! i = Some cb →
       ca !! j = Some va → cb !! j = Some vb →
       ∃ cd, d !! i = Some cd ∧ cd !! j = Some (if decide (va = vb) then 0 else 1)) ∧
    boardDiff [[0; 1]; [0; 1]] [[0; 1]; [1; 1]] = Ok d ∧
    ([[0; 1]; [1; 1]] = [[0; 1]; [0; 1]] → d = newBoard 2 2).
Proof.
  apply (boardDiff_marks_changes 2 2 [[0; 1]; [1; 1]] [[0; 1]; [0; 1]]).
  - split; [reflexivity | repeat constructor].
  - split; [reflexivity | repeat constructor].
  - lia.
Defined.

Section copy.

Lemma map_index_id {A} (g : A → Z → A) (arr : list A) :
  (∀ a i, g a i = a) → ∀ i, map_index g i arr = arr.
Proof.
  intros Hg. induction arr as [|a rest IH]; intros i; simpl; [done |].
  by rewrite Hg, IH.
Qed.

End copy.

Lemma copy_into_board (w h : nat) (a b : Board) :
  has_dims w h a →
  Forall (λ cells, length cells = h) b →
  (w ≤ length b)%nat →
  copyBoardAIntoB a b = Ok (a ++ drop w b) ∧
  (length b = w → copyBoardAIntoB a b = Ok a).
Proof.
  intros [Hw Hh] Hb Hlen.
  assert (Hrun : copyBoardAIntoB a b = Ok (a ++ drop w b)).
  { pose proof (board_writes (λ _ v _, v) h a 0 b Hh Hb) as Hwrites.
    change (Z.of_nat 0) with 0 in Hwrites. cbv beta in Hwrites.
    unfold copyBoardAIntoB. rewrite Hwrites by (simpl; lia).
    rewrite take_0, app_nil_l. simpl. rewrite Hw. f_equal. f_equal.
    apply map_index_id. intros column i. by apply map_index_id. }
  split; [done |]. intros Heq. rewrite Hrun, drop_ge by lia. by rewrite app_nil_r.
Qed.

(** [copyBoardAIntoB] into a board with at least as many columns, of
    the same height: the columns of the first board replace the first
    columns of the second; with equal dimensions the result is the
    first board. *)
Theorem copyBoardAIntoB_copies (w h : nat) (a b : Board) :
  has_dims w h a →
  Forall (λ cells, length cells = h) b →
  (w ≤ length b)%nat →
  copyBoardAIntoB a b = Ok (a ++ drop w b) ∧
  (length b = w → copyBoardAIntoB a b = Ok a).
Proof. apply copy_into_board. Qed.

Lemma copyBoardAIntoB_copies_witness :
  copyBoardAIntoB [[1; 2]; [3; 4]] [[0; 0]; [0; 0]; [5; 6]] = Ok [[1; 2]; [3; 4]; [5; 6]] ∧
  (length [[0; 0]; [0; 0]; [5; 6]] = 2%nat →
   copyBoardAIntoB [[1; 2]; [3; 4]] [[0; 0]; [0; 0]; [5; 6]] = Ok [[1; 2]; [3; 4]]).
Proof.
  apply (copyBoardAIntoB_copies 2 2 [[1; 2]; [3; 4]] [[0; 0]; [0; 0]; [5; 6]]).
  - split; [reflexivity | repeat constructor].
  - repeat constructor.
  - simpl. lia.
Defined.

(** ** More on tile groups *)

Section geometry.

Lemma fold_left_max_shift (d : Z) (rest : list Z) :
  ∀ a, fold_left Z.max (map (λ v, v + d) rest) (a + d) = fold_left Z.max rest a + d.
Proof.
  induction rest as [|c rest IH]; intros a; simpl; [done |].
  by rewrite Z.add_max_distr_r, IH.
Qed.

Lemma fold_left_max_opp (rest : list Z) :
  ∀ a, fold_left Z.max (map Z.opp rest) (- a) = - fold_left Z.min rest a.
Proof.
  induction rest as [|c rest IH]; intros a; simpl; [done |].
  by rewrite <- Z.opp_min_distr, IH.
Qed.

Lemma fold_left_min_opp (rest : list Z) :
  ∀ a, fold_left Z.min (map Z.opp rest) (- a) = - fold_left Z.max rest a.
Proof.
  induction rest as [|c rest IH]; intros a; simpl; [done |].
  by rewrite <- Z.opp_max_distr, IH.
Qed.

Lemma span_shift (d : Z) (xs : list Z) : span (map (λ v, v + d) xs) = span xs.
Proof.
  destruct xs as [|a rest]; [done |]. simpl.
  rewrite fold_left_max_shift, fold_left_min_shift. f_equal. lia.
Qed.

Lemma span_opp (xs : list Z) : span (map Z.opp xs) = span xs.
Proof.
  destruct xs as [|a rest]; [done |]. simpl.
  rewrite fold_left_max_opp, fold_left_min_opp. f_equal. lia.
Qed.

Lemma normalise_gives_normalised (g : TileGroup) : normalised (normaliseTileGroup g).
Proof.
  destruct g as [|first rest]; [by left |]. right.
  unfold normaliseTileGroup.
  set (minX := fold_left Z.min (map fst rest) first.1).
  set (minY := fold_left Z.min (map snd rest) first.2).
  destruct (fold_left_min_spec (map fst rest) first.1) as [HinX HlbX].
  destruct (fold_left_min_spec (map snd rest) first.2) as [HinY HlbY].
  fold minX in HinX, HlbX. fold minY in HinY, HlbY.
  change (first.1 :: map fst rest) with (map fst (first :: rest)) in *.
  change (first.2 :: map snd rest) with (map snd (first :: rest)) in *.
  split_and!.
  - apply list_elem_of_In, in_map_iff in HinX as (t & Ht & Hin).
    exists (t.1 - minX, t.2 - minY). split; [| simpl; lia].
    apply list_elem_of_In, in_map_iff. exists t. by split.
  - apply list_elem_of_In, in_map_iff in HinY as (t & Ht & Hin).
    exists (t.1 - minX, t.2 - minY). split; [| simpl; lia].
    apply list_elem_of_In, in_map_iff. exists t. by split.
  - apply Forall_forall. intros t' Ht'.
    apply list_elem_of_In, in_map_iff in Ht' as (t & <- & Hin). simpl.
    assert (minX ≤ t.1).
    { apply HlbX, list_elem_of_In, in_map, Hin. }
    assert (minY ≤ t.2).
    { apply HlbY, list_elem_of_In, in_map, Hin. }
    lia.
Qed.

Lemma translate_inj (dx dy : Z) (t1 t2 : Z * Z) :
  translate dx dy t1 = translate dx dy t2 → t1 = t2.
Proof.
  destruct t1, t2. unfold translate. simpl. intros [= H1 H2]. f_equal; lia.
Qed.

Lemma quarter_turn_inj (t1 t2 : Z * Z) : quarter_turn t1 = quarter_turn t2 → t1 = t2.
Proof.
  destruct t1, t2. unfold quarter_turn. simpl. intros [= H1 H2]. f_equal; lia.
Qed.

Lemma rotate_is_turn_translate (g : TileGroup) :
  ∃ dx dy, rotateTileGroup g = map (translate dx dy) (map quarter_turn g).
Proof. rewrite rotate_unfold. apply normalise_is_translate. Qed.

Lemma width_of_rotated (g : TileGroup) :
  getTileGroupWidth (rotateTileGroup g) = getTileGroupHeight g ∧
  getTileGroupHeight (rotateTileGroup g) = getTileGroupWidth g.
Proof.
  destruct (rotate_is_turn_translate g) as (dx & dy & ->).
  unfold getTileGroupWidth, getTileGroupHeight. rewrite !map_map. split.
  - rewrite <- (span_opp (map snd g)), <- (span_shift dx (map Z.opp (map snd g))).
    by rewrite !map_map.
  - rewrite <- (span_shift dy (map fst g)). by rewrite !map_map.
Qed.

(** In a normalised group every coordinate lies between 0 and the
    span. *)
Lemma normalised_bounds (g : TileGroup) (wd ht : Z) :
  normalised g →
  getTileGroupWidth g = Some wd → getTileGroupHeight g = Some ht →
  Forall (λ t, 0 ≤ t.1 ≤ wd ∧ 0 ≤ t.2 ≤ ht) g.
Proof.
  intros [-> | ((tx & Htx & Hx0) & (ty & Hty & Hy0) & Hpos)] Hwd Hht; [done |].
  destruct g as [|first rest]; [by apply elem_of_nil in Htx |].
  unfold getTileGroupWidth, getTileGroupHeight in *. cbn [map span] in Hwd, Hht.
  assert (HzX : fold_left Z.min (map fst rest) first.1 = 0).
  { apply fold_left_min_zero.
    - change (0 ∈ map fst (first :: rest)). rewrite <- Hx0.
      apply list_elem_of_In, in_map, list_elem_of_In, Htx.
    - change (Forall (λ v, 0 ≤ v) (map fst (first :: rest))).
      apply Forall_forall. intros v Hv.
      apply list_elem_of_In, in_map_iff in Hv as (t & <- & Ht).
      rewrite Forall_forall in Hpos. apply Hpos. by apply list_elem_of_In. }
  assert (HzY : fold_left Z.min (map snd rest) first.2 = 0).
  { apply fold_left_min_zero.
    - change (0 ∈ map snd (first :: rest)). rewrite <- Hy0.
      apply list_elem_of_In, in_map, list_elem_of_In, Hty.
    - change (Forall (λ v, 0 ≤ v) (map snd (first :: rest))).
      apply Forall_forall. intros v Hv.
      apply list_elem_of_In, in_map_iff in Hv as (t & <- & Ht).
      rewrite Forall_forall in Hpos. apply Hpos. by apply list_elem_of_In. }
  rewrite HzX in Hwd. rewrite HzY in Hht.
  injection Hwd as <-. injection Hht as <-.
  destruct (fold_left_max_spec (map fst rest) first.1) as [_ HubX].
  destruct (fold_left_max_spec (map snd rest) first.2) as [_ HubY].
  rewrite Forall_forall in Hpos. apply Forall_forall. intros t Ht.
  destruct (Hpos t Ht) as [H1 H2].
  assert (t.1 ≤ fold_left Z.max (map fst rest) first.1).
  { apply HubX. change (t.1 ∈ map fst (first :: rest)).
    apply list_elem_of_In, in_map, list_elem_of_In, Ht. }
  assert (t.2 ≤ fold_left Z.max (map snd rest) first.2).
  { apply HubY. change (t.2 ∈ map snd (first :: rest)).
    apply list_elem_of_In, in_map, list_elem_of_In, Ht. }
  lia.
Qed.

End geometry.

(** [normaliseTileGroup] and [rotateTileGroup] return a normalised
    group with as many tiles as they were given, and without a
    repeated tile if there was none. *)
Theorem groups_stay_normalised (g : TileGroup) :
  normalised (normaliseTileGroup g) ∧
  normalised (rotateTileGroup g) ∧
  length (normaliseTileGroup g) = length g ∧
  length (rotateTileGroup g) = length g ∧
  (NoDup g → NoDup (normaliseTileGroup g) ∧ NoDup (rotateTileGroup g)).
Proof.
  split_and!.
  - apply normalise_gives_normalised.
  - apply normalise_gives_normalised.
  - destruct (normalise_is_translate g) as (dx & dy & ->). by rewrite length_map.
  - destruct (rotate_is_turn_translate g) as (dx & dy & ->). by rewrite !length_map.
  - intros Hnd. split.
    + destruct (normalise_is_translate g) as (dx & dy & ->).
      apply NoDup_ListNoDup, Finite.Injective_map_NoDup; [| by apply NoDup_ListNoDup].
      intros t1 t2. apply translate_inj.
    + destruct (rotate_is_turn_translate g) as (dx & dy & ->).
      apply NoDup_ListNoDup, Finite.Injective_map_NoDup.
      * intros t1 t2. apply translate_inj.
      * apply Finite.Injective_map_NoDup; [| by apply NoDup_ListNoDup].
        intros t1 t2. apply quarter_turn_inj.
Qed.

(** A rotation exchanges the width and the height of a group. *)
Theorem rotation_swaps_width_and_height (g : TileGroup) :
  getTileGroupWidth (rotateTileGroup g) = getTileGroupHeight g ∧
  getTileGroupHeight (rotateTileGroup g) = getTileGroupWidth g.
Proof. apply width_of_rotated. Qed.

Lemma groups_stay_normalised_witness :
  NoDup (normaliseTileGroup [(2, 3); (3, 3)]) ∧ NoDup (rotateTileGroup [(2, 3); (3, 3)]).
Proof.
  apply (groups_stay_normalised [(2, 3); (3, 3)]).
  apply NoDup_cons. split.
  - intros Hin. apply list_elem_of_singleton in Hin. discriminate.
  - apply NoDup_singleton.
Defined.

(** ** More on dropping a float *)

Section drop_more.

Lemma dropTiles_missing_column (fx : Z) (tiles : TileGroup) :
  ∀ (nb : Board) (li : gmap Z jsnum),
  all_nan li →
  Exists (λ t, ¬ 0 ≤ t.1 + fx < Z.of_nat (length nb)) tiles →
  dropTiles fx (nb, li) tiles = Err TypeError.
Proof.
  induction tiles as [|t rest IH]; intros nb li Hnan Hout.
  - by apply Exists_nil in Hout.
  - cbn [dropTiles]. rewrite dropTile_nan by done.
    destruct (js_get nb (t.1 + fx)) as [cells|] eqn:Hget; [| done].
    cbn [mbind res_bind]. apply IH; [by apply all_nan_insert |].
    rewrite length_insert.
    apply Exists_cons in Hout as [Hhere | Hrest]; [| done].
    exfalso. apply Hhere. apply js_get_Some in Hget as [Hpos Hget].
    apply lookup_lt_Some in Hget. lia.
Qed.

Lemma hits_count (fx : Z) (tiles : TileGroup) (c : nat) :
  hits fx tiles c = count_occ Z.eq_dec (map fst tiles) (Z.of_nat c - fx).
Proof.
  induction tiles as [|t rest IH]; simpl; [done |]. rewrite IH.
  destruct (Z.eqb_spec (t.1 + fx) (Z.of_nat c)), (Z.eq_dec t.1 (Z.of_nat c - fx));
    done || lia.
Qed.

Lemma in_columns_fst (b : Board) (f : Float) :
  in_columns b f
  ↔ Forall (λ v, 0 ≤ v + x f < Z.of_nat (length b)) (map fst (value f)).
Proof.
  unfold in_columns. change (map fst (value f)) with (fst <$> value f).
  by rewrite Forall_fmap.
Qed.

End drop_more.

Lemma dropFloatingTiles_missing (b : Board) (f : Float) :
  ¬ in_columns b f → dropFloatingTiles b (Some f) = Err TypeError.
Proof.
  intros Hout. unfold in_columns in Hout. apply not_Forall_Exists in Hout; [| apply _].
  unfold dropFloatingTiles, cloneBoard.
  by rewrite (dropTiles_missing_column (x f) (value f) b ∅ all_nan_empty Hout).
Qed.

(** The only exception of [dropFloatingTiles] is the [TypeError] of a
    tile sent to a column that the board does not have: it is raised
    exactly then, and a board is returned otherwise. *)
Theorem dropFloatingTiles_outcome (b : Board) (f : Float) :
  (in_columns b f ↔ ∃ b', dropFloatingTiles b (Some f) = Ok b') ∧
  (¬ in_columns b f ↔ dropFloatingTiles b (Some f) = Err TypeError).
Proof.
  split; split.
  - apply dropFloatingTiles_total.
  - intros [b' Hrun]. destruct (decide (in_columns b f)) as [Hin | Hout]; [done |].
    rewrite (dropFloatingTiles_missing b f Hout) in Hrun. done.
  - apply dropFloatingTiles_missing.
  - intros Herr Hin. destruct (dropFloatingTiles_total b f Hin) as [b' Hrun]. congruence.
Qed.

(** [dropFloatingTiles] never touches an occupied cell, and an empty
    cell is either left empty or set to 1. *)
Theorem dropFloatingTiles_keeps_occupied
    (b : Board) (f : Float) (b' : Board) (c i : nat) (cells : list Z) (v : Z) :
  dropFloatingTiles b (Some f) = Ok b' →
  b !! c = Some cells →
  cells !! i = Some v →
  ∃ cells' v', b' !! c = Some cells' ∧ cells' !! i = Some v' ∧
    (v ≠ 0 → v' = v) ∧ (v = 0 → v' = 0 ∨ v' = 1).
Proof.
  intros Hrun Hc Hi.
  destruct (dropFloatingTiles_columns b f b' Hrun) as [_ Hcols].
  exists (fill_bottom (hits (x f) (value f) c) cells). eexists.
  split; [by apply Hcols |]. split.
  - rewrite fill_bottom_lookup, Hi. done.
  - simpl. split.
    + intros Hv. destruct (Z.eqb_spec v 0); [done | done].
    + intros ->. simpl. destruct (_ <? _)%nat; [by right | by left].
Qed.

Lemma dropFloatingTiles_keeps_occupied_witness :
  ∃ cells' v', [[0; 7]; [0; 1]] !! O = Some cells' ∧ cells' !! 1%nat = Some v' ∧
    (7 ≠ 0 → v' = 7) ∧ (7 = 0 → v' = 0 ∨ v' = 1).
Proof.
  apply (dropFloatingTiles_keeps_occupied [[0; 7]; [0; 0]]
           (mkFloat [(1, 0)] 0 0) [[0; 7]; [0; 1]] 0 1 [0; 7] 7); reflexivity.
Defined.

(** [dropFloatingTiles] reads neither the row of a tile nor [float.y],
    and the order of the tiles does not matter: two floats with the
    same horizontal offset whose tiles have the same x coordinates, in
    any order, give the same outcome. *)
Theorem dropFloatingTiles_ignores_rows_and_order (b : Board) (f1 f2 : Float) :
  x f1 = x f2 →
  map fst (value f1) ≡ₚ map fst (value f2) →
  dropFloatingTiles b (Some f1) = dropFloatingTiles b (Some f2).
Proof.
  intros Hx Hperm.
  assert (Hin : in_columns b f1 ↔ in_columns b f2).
  { rewrite !in_columns_fst, Hx. by rewrite Hperm. }
  destruct (decide (in_columns b f1)) as [Hin1 | Hout1].
  - destruct (dropFloatingTiles_total b f1 Hin1) as [b1 Hb1].
    destruct (dropFloatingTiles_total b f2 (proj1 Hin Hin1)) as [b2 Hb2].
    rewrite Hb1, Hb2. f_equal.
    destruct (dropFloatingTiles_columns b f1 b1 Hb1) as [Hlen1 Hcols1].
    destruct (dropFloatingTiles_columns b f2 b2 Hb2) as [Hlen2 Hcols2].
    apply list_eq. intros c. destruct (b !! c) as [cells|] eqn:Hc.
    + rewrite (Hcols1 c cells Hc), (Hcols2 c cells Hc). do 2 f_equal.
      rewrite !hits_count, Hx. by apply Permutation_count_occ.
    + apply lookup_ge_None in Hc.
      rewrite (proj2 (lookup_ge_None b1 c)), (proj2 (lookup_ge_None b2 c)); [done | lia | lia].
  - rewrite (dropFloatingTiles_missing b f1 Hout1).
    symmetry. apply dropFloatingTiles_missing. by rewrite <- Hin.
Qed.

Lemma dropFloatingTiles_ignores_rows_and_order_witness :
  dropFloatingTiles [[0; 0]; [0; 1]] (Some (mkFloat [(0, 0); (1, 0); (0, 1)] 0 0))
  = dropFloatingTiles [[0; 0]; [0; 1]] (Some (mkFloat [(1, 5); (0, 3); (0, 4)] 0 9)).
Proof.
  apply dropFloatingTiles_ignores_rows_and_order.
  - reflexivity.
  - simpl. apply perm_swap.
Defined.

(** ** Settled boards *)

Section settled_boards.

Lemma settled_iterColumn (cells : list Z) : settled cells → iterColumn cells = cells.
Proof. intros (k & bottom & -> & Hnot). by apply iterColumn_settled. Qed.

Lemma settled_compaction (b : Board) : Forall settled b → iterColumn <$> b = b.
Proof.
  induction 1 as [|cells rest Hcells _ IH]; [done |].
  by rewrite fmap_cons, IH, settled_iterColumn.
Qed.

Lemma fill_bottom_settled (j k : nat) (bottom : list Z) :
  0 ∉ bottom →
  fill_bottom j (replicate k 0 ++ bottom)
  = replicate (k - j) 0 ++ replicate (Nat.min j k) 1 ++ bottom.
Proof.
  intros Hnot. induction k as [|k IH].
  - rewrite Nat.min_0_r. simpl. by apply fill_bottom_full.
  - cbn [replicate app fill_bottom]. rewrite IH, empties_app, empties_replicate.
    rewrite (proj2 (empties_0 bottom) Hnot), Nat.add_0_r. simpl.
    destruct (Nat.ltb_spec k j).
    + replace (S k - j)%nat with O by lia. replace (k - j)%nat with O by lia.
      replace (Nat.min j (S k)) with (S k) by lia.
      replace (Nat.min j k) with k by lia. done.
    + replace (S k - j)%nat with (S (k - j)) by lia.
      replace (Nat.min j (S k)) with j by lia.
      replace (Nat.min j k) with j by lia. done.
Qed.

Lemma settled_fill_bottom (j : nat) (cells : list Z) :
  settled cells → settled (fill_bottom j cells).
Proof.
  intros (k & bottom & -> & Hnot). rewrite fill_bottom_settled by done.
  exists (k - j)%nat, (replicate (Nat.min j k) 1 ++ bottom). split; [done |].
  rewrite not_elem_of_app. split; [| done].
  intros Hin. by apply elem_of_replicate in Hin as [Hin _].
Qed.

Lemma settled_take (m : nat) (cells : list Z) : settled cells → settled (take m cells).
Proof.
  intros (k & bottom & -> & Hnot). rewrite take_app, take_replicate, length_replicate.
  exists (Nat.min m k), (take (m - k) bottom). split; [done |].
  intros Hin. apply Hnot. apply elem_of_take in Hin as (i & Hi & _).
  by eapply list_elem_of_lookup_2.
Qed.

Lemma settled_shift_down (n : nat) (cells : list Z) :
  settled cells → settled (shift_down n cells).
Proof.
  intros Hcells. apply (settled_take (length cells - n)) in Hcells.
  destruct Hcells as (k & bottom & Heq & Hnot). unfold shift_down. rewrite Heq.
  exists (n + k)%nat, bottom. split; [| done].
  by rewrite replicate_add, app_assoc.
Qed.

Lemma settled_nil : settled [].
Proof. exists O, []. split; [done | apply not_elem_of_nil]. Qed.

Lemma settled_dropFloatingTiles (b : Board) (f : option Float) (b' : Board) :
  Forall settled b → dropFloatingTiles b f = Ok b' → Forall settled b'.
Proof.
  intros Hb Hrun. destruct f as [f|]; [| by injection Hrun as <-].
  destruct (dropFloatingTiles_columns b f b' Hrun) as [Hlen Hcols].
  apply Forall_lookup. intros c cells' Hc.
  destruct (lookup_lt_is_Some_2 b c) as [cells Hcells].
  { rewrite <- Hlen. by eapply lookup_lt_Some. }
  rewrite (Hcols _ _ Hcells) in Hc. injection Hc as <-.
  apply settled_fill_bottom. by eapply Forall_lookup_1 in Hb.
Qed.

Lemma removeBottomRow_zero (b : Board) : removeBottomRow b 0 = Ok ((λ _, []) <$> b).
Proof.
  apply res_map_fmap. intros cells _. unfold removeLastCell, js_slice0. simpl.
  by rewrite Z.min_l by lia.
Qed.

Lemma removeBottomRow_negative (b : Board) (count : Z) :
  count < 0 → b ≠ [] → removeBottomRow b count = Err RangeError.
Proof.
  intros Hneg Hne. destruct b as [|cells rest]; [done |].
  unfold removeBottomRow, removeLastCell. simpl.
  destruct (Z.ltb_spec count 0); [done | lia].
Qed.

Lemma settled_removeBottomRow (b : Board) (count : Z) (b' : Board) :
  Forall settled b → removeBottomRow b count = Ok b' → Forall settled b'.
Proof.
  intros Hb Hrun. destruct (Z.lt_trichotomy count 0) as [Hneg | [-> | Hpos]].
  - destruct b as [|cells rest]; [by injection Hrun as <- |].
    by rewrite removeBottomRow_negative in Hrun.
  - rewrite removeBottomRow_zero in Hrun. injection Hrun as <-.
    apply Forall_fmap, Forall_forall. intros cells _. apply settled_nil.
  - rewrite removeBottomRow_shift in Hrun by lia. injection Hrun as <-.
    apply Forall_fmap. eapply Forall_impl; [exact Hb |].
    intros cells Hcells. by apply settled_shift_down.
Qed.

Lemma iterBoard_result (b : Board) (f : option Float) (b' : Board) (f' : option Float) :
  iterBoard b f = Ok (b', f') →
  (b' = iterColumn <$> b ∧ f' = advance <$> f) ∨
  (dropFloatingTiles (iterColumn <$> b) f = Ok b' ∧ f' = None).
Proof.
  unfold iterBoard.
  destruct (match advance <$> f with
            | Some nf => js_some (collides b nf) (value nf)
            | None => Ok false
            end) as [[|]|e]; simpl; [| | done].
  - destruct (dropFloatingTiles (iterColumn <$> b) f) as [dropped|e]; [| done].
    simpl. intros [= <- <-]. by right.
  - intros [= <- <-]. by left.
Qed.

Lemma settled_iterBoard (b : Board) (f : option Float) (b' : Board) (f' : option Float) :
  Forall settled b → iterBoard b f = Ok (b', f') → Forall settled b'.
Proof.
  intros Hb Hrun. apply iterBoard_result in Hrun as [[-> _] | [Hdrop _]].
  - by rewrite settled_compaction.
  - rewrite settled_compaction in Hdrop by done. by eapply settled_dropFloatingTiles.
Qed.

Lemma settled_newBoard (w h : nat) : Forall settled (newBoard w h).
Proof.
  apply Forall_replicate. exists h, []. split; [by rewrite app_nil_r | apply not_elem_of_nil].
Qed.

End settled_boards.

(** Settled boards.  The empty board is settled, and on a board whose
    columns are all settled the compaction of [iterBoard] moves
    nothing and [dropFloatingTiles], [removeBottomRow] and [iterBoard]
    return settled boards again. *)
Theorem settled_boards_stay_settled (b : Board) :
  Forall settled b →
  iterColumn <$> b = b ∧
  (∀ f b', dropFloatingTiles b f = Ok b' → Forall settled b') ∧
  (∀ count b', removeBottomRow b count = Ok b' → Forall settled b') ∧
  (∀ f b' f', iterBoard b f = Ok (b', f') → Forall settled b') ∧
  (∀ w h, Forall settled (newBoard w h)).
Proof.
  intros Hb. split_and!.
  - by apply settled_compaction.
  - intros f b'. by apply settled_dropFloatingTiles.
  - intros count b'. by apply settled_removeBottomRow.
  - intros f b' f'. by apply settled_iterBoard.
  - apply settled_newBoard.
Qed.

Lemma settled_boards_stay_settled_witness :
  iterColumn <$> [[0; 0; 1]; [0; 2; 3]] = [[0; 0; 1]; [0; 2; 3]].
Proof.
  apply (settled_boards_stay_settled [[0; 0; 1]; [0; 2; 3]]).
  repeat constructor.
  - exists 2%nat, [1]. split; [reflexivity |].
    intros Hin. apply list_elem_of_singleton in Hin. discriminate.
  - exists 1%nat, [2; 3]. split; [reflexivity |].
    intros Hin. apply list_elem_of_In in Hin. simpl in Hin.
    destruct Hin as [Hin | [Hin | []]]; discriminate.
Defined.

(** ** The float stays inside the board *)

Section inside.

Context (w h : nat).

Lemma normalised_extent (g : TileGroup) :
  normalised g → g ≠ [] →
  ∃ wd ht, getTileGroupWidth g = Some wd ∧ getTileGroupHeight g = Some ht ∧
    Forall (λ t, 0 ≤ t.1 ≤ wd ∧ 0 ≤ t.2 ≤ ht) g ∧
    (∃ t, t ∈ g ∧ t.1 = wd) ∧ (∃ t, t ∈ g ∧ t.1 = 0).
Proof.
  intros Hg Hne. destruct g as [|first rest] eqn:Heq; [done |]. rewrite <- Heq in *.
  assert (Hwd : ∃ wd, getTileGroupWidth g = Some wd) by (rewrite Heq; by eexists).
  assert (Hht : ∃ ht, getTileGroupHeight g = Some ht) by (rewrite Heq; by eexists).
  destruct Hwd as [wd Hwd]. destruct Hht as [ht Hht]. exists wd, ht.
  pose proof (normalised_bounds g wd ht Hg Hwd Hht) as Hbounds.
  split_and!; [done | done | done | |].
  - destruct (fold_left_max_spec (map fst rest) first.1) as [Hin Hub].
    destruct (fold_left_min_spec (map fst rest) first.1) as [Hmin Hlb].
    change (first.1 :: map fst rest) with (map fst (first :: rest)) in *.
    rewrite <- Heq in *.
    apply list_elem_of_In, in_map_iff in Hin as (t & Ht & Hin).
    apply list_elem_of_In, in_map_iff in Hmin as (t0 & Ht0 & Hin0).
    exists t. split; [by apply list_elem_of_In |].
    rewrite Forall_forall in Hbounds.
    pose proof (Hbounds t (proj2 (list_elem_of_In _ _) Hin)) as [[_ Hle] _].
    pose proof (Hbounds t0 (proj2 (list_elem_of_In _ _) Hin0)) as [[Hge0 _] _].
    unfold getTileGroupWidth in Hwd. rewrite Heq in Hwd. cbn [map span] in Hwd.
    injection Hwd as Hwd. lia.
  - destruct Hg as [Hnil | ((t & Ht & Ht0) & _)]; [done | by exists t].
Qed.

Lemma float_inside_extent (f : Float) :
  float_inside w f →
  ∃ wd ht, getTileGroupWidth (value f) = Some wd ∧
    getTileGroupHeight (value f) = Some ht ∧
    Forall (λ t, 0 ≤ t.1 ≤ wd ∧ 0 ≤ t.2 ≤ ht) (value f) ∧
    0 ≤ x f ∧ wd + x f < Z.of_nat w ∧ ht < Z.of_nat w.
Proof.
  intros (Hnorm & Hne & Hin & Htall).
  destruct (normalised_extent (value f) Hnorm Hne)
    as (wd & ht & Hwd & Hht & Hbounds & (t & Ht & Htwd) & (t0 & Ht0 & Ht00)).
  exists wd, ht. rewrite Forall_forall in Hin.
  pose proof (Hin t Ht). pose proof (Hin t0 Ht0).
  split_and!; [done | done | done | lia | lia | by apply Htall].
Qed.

Lemma float_inside_moved (f : Float) (x' : Z) (wd : Z) :
  float_inside w f →
  getTileGroupWidth (value f) = Some wd →
  0 ≤ x' → wd + x' < Z.of_nat w →
  float_inside w (mkFloat (value f) x' (y f)).
Proof.
  intros Hf Hwd Hlo Hhi.
  destruct (float_inside_extent f Hf) as (wd' & ht & Hwd' & _ & Hbounds & _).
  assert (wd' = wd) as -> by congruence.
  destruct Hf as (Hnorm & Hne & _ & Htall).
  split_and!; [done | done | | done]. simpl.
  eapply Forall_impl; [exact Hbounds |]. intros t Ht. simpl in *. lia.
Qed.

Lemma float_inside_rotated (f : Float) (y' : Z) :
  float_inside w f →
  float_inside w (mkFloat (rotateTileGroup (value f))
                    (min_bound (x f) (Z.of_nat w)
                       (getTileGroupWidth (rotateTileGroup (value f)))) y').
Proof.
  intros Hf.
  destruct (float_inside_extent f Hf) as (wd & ht & Hwd & Hht & _ & Hx & Hright & Htall).
  destruct Hf as (Hnorm & Hne & _ & _).
  destruct (width_of_rotated (value f)) as [Hrw Hrh].
  rewrite Hht in Hrw. rewrite Hwd in Hrh. rewrite Hrw. cbn [min_bound].
  assert (Hrne : rotateTileGroup (value f) ≠ []).
  { intros Hnil. apply (f_equal length) in Hnil.
    destruct (rotate_is_turn_translate (value f)) as (dx & dy & Heq).
    rewrite Heq, !length_map in Hnil. by destruct (value f). }
  pose proof (normalised_bounds _ ht wd (normalise_gives_normalised _) Hrw Hrh) as Hbounds.
  split_and!; [apply normalise_gives_normalised | done | |].
  - cbn [value x]. eapply Forall_impl; [exact Hbounds |]. intros t Ht. simpl in *. lia.
  - cbn [value]. intros ht' Hht'. rewrite Hrh in Hht'. injection Hht' as <-. lia.
Qed.

Lemma float_inside_advance (f : Float) : float_inside w f → float_inside w (advance f).
Proof. done. Qed.

Lemma float_inside_in_columns (b : Board) (f : Float) :
  length b = w → float_inside w f → in_columns b f.
Proof. intros Hlen (_ & _ & Hin & _). unfold in_columns. by rewrite Hlen. Qed.

End inside.

(** ** A tick never raises *)

Section safety.

Context (w h : nat).
Hypothesis Hw : (1 ≤ w)%nat.

Lemma applyAction_safe (b gb gh : Board) (gf : option Float) (f : Float) (a : action) :
  has_dims w h b → has_dims w h gh → float_inside w f →
  ∃ b' f' gh',
    applyAction (Z.of_nat w) (Z.of_nat h) (getTileGroupWidth (value f))
      (b, Some f) a (mkGame gb gh gf [])
    = (Ok (b', f'), mkGame gb gh' gf []) ∧
    has_dims w h b' ∧ has_dims w h gh' ∧
    (∀ f1, f' = Some f1 → float_inside w f1) ∧
    (Forall settled b → Forall settled b').
Proof.
  intros Hb Hgh Hf.
  destruct (float_inside_extent w f Hf) as (wd & ht & Hwd & Hht & _ & Hx & Hright & Htall).
  destruct a; unfold applyAction; cbn [fst snd].
  - eexists b, _, gh. split; [done |]. split_and!; [done | done | | done].
    intros f1 [= <-]. apply (float_inside_moved w f _ wd); [done | done | lia | lia].
  - eexists b, _, gh. split; [done |]. split_and!; [done | done | | done].
    intros f1 [= <-]. rewrite Hwd. cbn [min_bound].
    apply (float_inside_moved w f _ wd); [done | done | lia | lia].
  - destruct (dropFloatingTiles_total b f) as [nb Hnb].
    { apply (float_inside_in_columns w); [apply Hb | done]. }
    pose proof (dropFloatingTiles_dims w h b (Some f) nb Hb Hnb) as Hnbdims.
    destruct (boardDiff_total w h b nb Hw Hb Hnbdims) as [d Hd].
    pose proof (boardDiff_dims w h b nb d Hb Hd) as Hddims.
    destruct (copy_into_board w h nb b Hnbdims) as [_ Hcopy];
      [apply Hb | destruct Hb; lia |].
    exists nb, None, d. split.
    + unfold mbind, m_bind, lift, set_boardHighlight.
      rewrite Hnb, Hd, Hcopy by apply Hb. done.
    + split_and!; [done | done | done |].
      intros Hsettled. by eapply settled_dropFloatingTiles.
  - eexists b, _, gh. split; [done |]. split_and!; [done | done | | done].
    intros f1 [= <-]. by apply float_inside_rotated.
Qed.

Lemma applyActions_safe (b gb gh : Board) (gf : option Float) (f : Float)
    (queue : list action) :
  has_dims w h b → has_dims w h gh → float_inside w f →
  isGameOver b = false → (length queue ≤ 1)%nat →
  ∃ b' f' gh',
    applyActions b (Some f) (mkGame gb gh gf queue)
    = (Ok (b', f'), mkGame gb gh' gf []) ∧
    has_dims w h b' ∧ has_dims w h gh' ∧
    (∀ f1, f' = Some f1 → float_inside w f1) ∧
    (Forall settled b → Forall settled b').
Proof.
  intros Hb Hgh Hf Hover Hqueue. unfold applyActions, cloneBoard. rewrite Hover.
  destruct b as [|first rest] eqn:Heq; [destruct Hb; simpl in *; lia |].
  rewrite <- Heq in *.
  assert (Hfirst : length first = h).
  { apply (has_dims_lookup w h b O first Hb). by rewrite Heq. }
  assert (Hlen : length b = w) by apply Hb. rewrite Hfirst, Hlen.
  unfold mbind, m_bind, splice_userActions. cbn [board boardHighlight float userActions].
  destruct queue as [|a [|a' queue]]; [| | simpl in Hqueue; lia].
  - exists b, (Some f), gh. split; [done |]. split_and!; [done | done | | done].
    by intros f1 [= <-].
  - cbn [applyEach]. unfold mbind, m_bind.
    destruct (applyAction_safe b gb gh gf f a Hb Hgh Hf)
      as (b' & f' & gh' & Hrun & Hrest).
    rewrite Hrun. by exists b', f', gh'.
Qed.

End safety.

(** ** More on the action phase *)

Section actions_more.

Lemma applyEach_no_drop (bw bh : Z) (fw : option Z) (b : Board) (queue : list action) :
  ArrowDown ∉ queue →
  ∀ (f : Float) (g : Game),
  ∃ f', applyEach (applyAction bw bh fw) queue (b, Some f) g = (Ok (b, Some f'), g) ∧
        length (value f') = length (value f).
Proof.
  induction queue as [|a rest IH]; intros Hno f g.
  - by exists f.
  - apply not_elem_of_cons in Hno as [Ha Hrest].
    cbn [applyEach]. unfold mbind, m_bind.
    destruct a; [| | done |]; unfold applyAction; cbn [fst snd mret m_ret].
    + destruct (IH Hrest (mkFloat (value f) (Z.max (x f - 1) 0) (y f)) g)
        as (f' & Hrun & Hlen). by exists f'.
    + destruct (IH Hrest (mkFloat (value f) (min_bound (x f + 1) bw fw) (y f)) g)
        as (f' & Hrun & Hlen). by exists f'.
    + destruct (IH Hrest
        (mkFloat (rotateTileGroup (value f))
           (min_bound (x f) bw (getTileGroupWidth (rotateTileGroup (value f))))
           (min_bound (y f) bh (getTileGroupHeight (rotateTileGroup (value f))))) g)
        as (f' & Hrun & Hlen).
      exists f'. split; [done |]. rewrite Hlen. cbn [value].
      destruct (rotate_is_turn_translate (value f)) as (dx & dy & ->).
      by rewrite !length_map.
Qed.

End actions_more.

(** A drop in the action phase, on a board that is not over and has
    the float's tiles sent to its columns: the board becomes the one
    [dropFloatingTiles] returns, the float is gone, the highlight is
    the difference of the two boards, the queue is drained and the
    actions queued after the drop have no effect. *)
Theorem applyActions_drop (w h : nat) (b : Board) (f : Float)
    (gb gh : Board) (gf : option Float) (rest : list action) :
  has_dims w h b →
  (1 ≤ w)%nat →
  isGameOver b = false →
  in_columns b f →
  ∃ b' d, dropFloatingTiles b (Some f) = Ok b' ∧
    boardDiff b b' = Ok d ∧
    applyActions b (Some f) (mkGame gb gh gf (ArrowDown :: rest))
    = (Ok (b', None), mkGame gb d gf []).
Proof.
  intros Hb Hw Hover Hin.
  destruct (dropFloatingTiles_total b f Hin) as [nb Hnb].
  pose proof (dropFloatingTiles_dims w h b (Some f) nb Hb Hnb) as Hnbdims.
  destruct (boardDiff_total w h b nb Hw Hb Hnbdims) as [d Hd].
  destruct (copy_into_board w h nb b Hnbdims) as [_ Hcopy];
    [apply Hb | destruct Hb; lia |].
  exists nb, d. split; [done |]. split; [done |].
  unfold applyActions, cloneBoard. rewrite Hover.
  destruct b as [|first others] eqn:Heq; [destruct Hb; simpl in *; lia |].
  rewrite <- Heq in *.
  unfold mbind, m_bind, splice_userActions. cbn [board boardHighlight float userActions].
  cbn [applyEach]. unfold mbind, m_bind, applyAction. cbn [fst snd].
  unfold mbind, m_bind, lift, set_boardHighlight.
  rewrite Hnb, Hd, Hcopy by apply Hb.
  cbn [board boardHighlight float userActions mret m_ret].
  apply applyEach_no_float.
Qed.

Lemma applyActions_drop_witness :
  let b := [[0; 0]; [0; 1]] in
  let f := mkFloat [(0, 0); (1, 0)] 0 0 in
  ∃ b' d, dropFloatingTiles b (Some f) = Ok b' ∧
    boardDiff b b' = Ok d ∧
    applyActions b (Some f) (mkGame b b (Some f) [ArrowDown; ArrowLeft])
    = (Ok (b', None), mkGame b d (Some f) []).
Proof.
  intros b f. apply (applyActions_drop 2 2 b f b b (Some f) [ArrowLeft]).
  - split; [reflexivity | repeat constructor].
  - lia.
  - reflexivity.
  - repeat constructor; simpl; lia.
Defined.

(** Without a drop in the queue the action phase returns the board it
    was given and a float with as many tiles as before, drains the
    queue and leaves the highlight alone. *)
Theorem applyActions_without_drop (b : Board) (f : Float)
    (gb gh : Board) (gf : option Float) (queue : list action) :
  isGameOver b = false →
  b ≠ [] →
  ArrowDown ∉ queue →
  ∃ f', applyActions b (Some f) (mkGame gb gh gf queue)
        = (Ok (b, Some f'), mkGame gb gh gf []) ∧
        length (value f') = length (value f).
Proof.
  intros Hover Hne Hno. unfold applyActions, cloneBoard. rewrite Hover.
  destruct b as [|first others]; [done |].
  unfold mbind, m_bind, splice_userActions. cbn [board boardHighlight float userActions].
  by apply applyEach_no_drop.
Qed.

Lemma applyActions_without_drop_witness :
  let b := [[0; 0]; [0; 1]] in
  let f := mkFloat [(0, 0); (1, 0)] 0 0 in
  ∃ f', applyActions b (Some f) (mkGame b b (Some f) [ArrowUp; ArrowLeft; ArrowRight])
        = (Ok (b, Some f'), mkGame b b (Some f) []) ∧
        length (value f') = length (value f).
Proof.
  intros b f. apply (applyActions_without_drop b f b b (Some f)).
  - reflexivity.
  - discriminate.
  - intros Hin. apply list_elem_of_In in Hin. simpl in Hin.
    destruct Hin as [Hin | [Hin | [Hin | []]]]; discriminate.
Defined.

(** A rotation in the action phase: the group is rotated, [float.x]
    becomes [min(float.x, boardWidth - height - 1)] and [float.y]
    becomes [min(float.y, boardHeight - width - 1)], width and height
    being those of the group before the rotation; neither is raised
    to 0 when negative. *)
Theorem applyActions_rotate (b others : Board) (cells : list Z) (f : Float)
    (gb gh : Board) (gf : option Float) (wd ht : Z) :
  isGameOver (cells :: others) = false →
  b = cells :: others →
  getTileGroupWidth (value f) = Some wd →
  getTileGroupHeight (value f) = Some ht →
  applyActions b (Some f) (mkGame gb gh gf [ArrowUp])
  = (Ok (b, Some (mkFloat (rotateTileGroup (value f))
                    (Z.min (x f) (Z.of_nat (length b) - ht - 1))
                    (Z.min (y f) (Z.of_nat (length cells) - wd - 1)))),
     mkGame gb gh gf []).
Proof.
  intros Hover -> Hwd Hht. unfold applyActions, cloneBoard. rewrite Hover.
  unfold mbind, m_bind, splice_userActions. cbn [board boardHighlight float userActions].
  cbn [applyEach]. unfold mbind, m_bind, applyAction. cbn [fst snd mret m_ret].
  destruct (width_of_rotated (value f)) as [-> ->]. by rewrite Hwd, Hht.
Qed.

Lemma applyActions_rotate_witness :
  let b := replicate 10 (replicate 20 0) in
  let f := mkFloat [(0, 0); (1, 0); (2, 0); (3, 0)] 8 (-2) in
  applyActions b (Some f) (mkGame b b (Some f) [ArrowUp])
  = (Ok (b, Some (mkFloat [(0, 0); (0, 1); (0, 2); (0, 3)] 8 (-2))),
     mkGame b b (Some f) []).
Proof.
  intros b f.
  apply (applyActions_rotate b (replicate 9 (replicate 20 0)) (replicate 20 0) f
           b b (Some f) 3 0); reflexivity.
Defined.

(** ** Outcomes of iterBoard and boardDiff *)

Section outcomes.

Lemma js_some_error {A} (p : A → Res bool) (arr : list A) (e : error) :
  js_some p arr = Err e → Exists (λ a, p a = Err e) arr.
Proof.
  induction arr as [|a rest IH]; [done |]. simpl.
  destruct (p a) as [[|]|e'] eqn:Hp; simpl.
  - done.
  - intros Hrest. apply Exists_cons_tl. by apply IH.
  - intros [= ->]. by apply Exists_cons_hd.
Qed.

Lemma collides_error (b : Board) (nf : Float) (t : Z * Z) (e : error) :
  collides b nf t = Err e →
  e = TypeError ∧ ¬ 0 ≤ t.1 + x nf < Z.of_nat (length b).
Proof.
  intros Herr. split.
  - unfold collides in Herr. destruct t as [tx ty].
    destruct (js_get b (tx + x nf)); [done | congruence].
  - intros Hin. destruct (collides_total b nf t Hin) as [r Hr]. congruence.
Qed.

Lemma iterBoard_missing (b : Board) (f : Float) :
  ¬ in_columns b f → iterBoard b (Some f) = Err TypeError.
Proof.
  intros Hout. unfold iterBoard. cbn [fmap option_fmap option_map advance value].
  destruct (js_some (collides b (advance f)) (value f)) as [[|]|e] eqn:Hsome.
  - cbn [mbind res_bind]. rewrite dropFloatingTiles_missing; [done |].
    unfold in_columns in *. by rewrite length_fmap.
  - exfalso. apply Hout. clear Hout. unfold in_columns.
    induction (value f) as [|t rest IH]; [done |].
    simpl in Hsome. destruct (collides b (advance f) t) as [[|]|e] eqn:Ht; try done.
    simpl in Hsome. constructor; [| by apply IH].
    destruct (decide (0 ≤ t.1 + x f < Z.of_nat (length b))) as [Hin | Hnot]; [done |].
    unfold collides in Ht. destruct t as [tx ty]. cbn [x advance] in Ht.
    destruct (js_get b (tx + x f)) as [column|] eqn:Hget; [| done].
    apply js_get_Some in Hget as [Hpos Hget]. apply lookup_lt_Some in Hget.
    simpl in Hnot. lia.
  - apply js_some_error in Hsome. apply Exists_exists in Hsome as (t & _ & Ht).
    apply collides_error in Ht as [-> _]. done.
Qed.

Lemma forEach_app {A St} (body : St → A → Z → Res St) (l1 l2 : list A) :
  ∀ i s, forEach body i (l1 ++ l2) s
         = s' ← forEach body i l1 s; forEach body (i + Z.of_nat (length l1)) l2 s'.
Proof.
  induction l1 as [|a l1 IH]; intros i s.
  - simpl. by rewrite Z.add_0_r.
  - cbn [app forEach]. destruct (body s a i) as [s1|e]; [| done].
    cbn [mbind res_bind]. rewrite IH. rewrite length_cons, Nat2Z.inj_succ.
    by replace (i + 1 + Z.of_nat (length l1)) with (i + Z.succ (Z.of_nat (length l1))) by lia.
Qed.

End outcomes.

(** [iterBoard] with a float returns normally exactly when every tile
    of the float is sent to a column of the board; otherwise it raises
    a [TypeError], whether or not a tile collides. *)
Theorem iterBoard_outcome (b : Board) (f : Float) :
  (in_columns b f ↔ ∃ b' f', iterBoard b (Some f) = Ok (b', f')) ∧
  (¬ in_columns b f ↔ iterBoard b (Some f) = Err TypeError).
Proof.
  split; split.
  - apply iterBoard_total.
  - intros (b' & f' & Hrun). destruct (decide (in_columns b f)) as [Hin | Hout]; [done |].
    rewrite (iterBoard_missing b f Hout) in Hrun. done.
  - apply iterBoard_missing.
  - intros Herr Hin. destruct (iterBoard_total b f Hin) as (b' & f' & Hrun). congruence.
Qed.

(** After [dropFloatingTiles] the game is over exactly when some
    column was sent at least as many tiles as it had empty cells. *)
Theorem drop_ends_game (b : Board) (f : Float) (b' : Board) :
  dropFloatingTiles b (Some f) = Ok b' →
  (isGameOver b' = true
   ↔ ∃ c cells, b !! c = Some cells ∧ (empties cells ≤ hits (x f) (value f) c)%nat).
Proof.
  intros Hrun. destruct (dropFloatingTiles_columns b f b' Hrun) as [Hlen Hcols].
  rewrite isGameOver_spec. split.
  - intros (cells' & Hin & Hfull). apply list_elem_of_lookup in Hin as [c Hc].
    destruct (lookup_lt_is_Some_2 b c) as [cells Hcells].
    { rewrite <- Hlen. by eapply lookup_lt_Some. }
    exists c, cells. split; [done |].
    rewrite (Hcols c cells Hcells) in Hc. injection Hc as <-.
    apply empties_0 in Hfull. rewrite fill_bottom_empties in Hfull. lia.
  - intros (c & cells & Hcells & Hroom).
    exists (fill_bottom (hits (x f) (value f) c) cells). split.
    + eapply list_elem_of_lookup_2. by apply Hcols.
    + apply empties_0. rewrite fill_bottom_empties. lia.
Qed.

Lemma drop_ends_game_witness :
  let f := mkFloat [(0, 0)] 0 0 in
  isGameOver [[1; 1]; [0; 0]] = true
  ↔ ∃ c cells, [[0; 1]; [0; 0]] !! c = Some cells ∧
      (empties cells ≤ hits (x f) (value f) c)%nat.
Proof.
  intros f. apply (drop_ends_game [[0; 1]; [0; 0]] f [[1; 1]; [0; 0]]).
  reflexivity.
Defined.

(** [boardDiff] outside its precondition.  An empty first board raises
    a [TypeError]; so does a second board with fewer columns than the
    first, unless the columns are empty. *)
Theorem boardDiff_mismatch (w h : nat) (a other : Board) :
  has_dims w h a →
  boardDiff [] other = Err TypeError ∧
  ((1 ≤ h)%nat → (length other < w)%nat → boardDiff a other = Err TypeError).
Proof.
  intros Ha. split; [done |]. intros Hh Hshort.
  unfold boardDiff, cloneBoard.
  destruct a as [|first rest] eqn:Heq; [done |]. rewrite <- Heq in *.
  assert (Hfirst : length first = h).
  { apply (has_dims_lookup w h a O first Ha). by rewrite Heq. }
  destruct Ha as [Hlen Hcols]. rewrite Hfirst, Hlen.
  set (k := length other).
  destruct (lookup_lt_is_Some_2 a k) as [column Hcolumn]; [lia |].
  rewrite <- (take_drop_middle a k column Hcolumn).
  rewrite forEach_app.
  set (val := λ (iz v jz : Z),
         match js_get other iz with
         | Some columnB => differs v (js_get columnB jz)
         | None => 1
         end).
  assert (Hprefix : ∃ d,
    forEach (λ diff column0 i,
      forEach (λ diff0 cellValue j,
        match js_get other i with
        | Some columnB => board_set diff0 i j (differs cellValue (js_get columnB j))
        | None => Err TypeError
        end) 0 column0 diff) 0 (take k a) (newBoard w h) = Ok d).
  { rewrite (forEach_ext _
      (λ d column0 iz, forEach (λ d v jz, board_set d iz jz (val iz v jz)) 0 column0 d)
      (Z.of_nat k)); [| | lia | rewrite length_take; lia].
    - pose proof (board_writes val h (take k a) 0 (newBoard w h)) as Hwrites.
      change (Z.of_nat 0) with 0 in Hwrites. rewrite Hwrites; [by eexists | | |].
      + by apply Forall_take.
      + apply (newBoard_dims w h).
      + unfold newBoard. rewrite length_replicate, length_take. lia.
    - intros s column0 i Hi.
      destruct (js_get_in_range other i) as [columnB HcolumnB]; [unfold k in Hi; lia |].
      apply (forEach_ext _ _ (Z.of_nat (length column0))); [| lia | lia].
      intros s' v jz _. unfold val. by rewrite HcolumnB. }
  destruct Hprefix as [d ->]. cbn [mbind res_bind].
  rewrite length_take, Nat.min_l by lia. cbn [forEach].
  assert (Hcol : length column = h) by (by eapply Forall_lookup_1 in Hcols).
  destruct column as [|v column]; [simpl in Hcol; lia |].
  cbn [forEach]. rewrite Z.add_0_l, js_get_nat.
  by rewrite (proj2 (lookup_ge_None other k)) by (unfold k; lia).
Qed.

Lemma boardDiff_mismatch_witness :
  boardDiff [[0; 1]; [1; 1]] [[0; 1]] = Err TypeError.
Proof.
  apply (boardDiff_mismatch 2 2 [[0; 1]; [1; 1]] [[0; 1]]).
  - split; [reflexivity | repeat constructor].
  - lia.
  - simpl. lia.
Defined.

(** ** Random groups *)

Section random.

Lemma js_split_nonempty (s : string) : js_split comma s ≠ [].
Proof.
  induction s as [|c rest IH]; [done |]. simpl.
  destruct (js_split comma rest) as [|piece pieces]; [done |].
  by destruct (Ascii.eqb c comma).
Qed.

Lemma js_split_uint (d : Decimal.uint) :
  js_split comma (NilEmpty.string_of_uint d) = [NilEmpty.string_of_uint d].
Proof. induction d as [|d IH|d IH|d IH|d IH|d IH|d IH|d IH|d IH|d IH|d IH]; simpl; by rewrite ?IH. Qed.

Lemma js_split_number (n : Z) : js_split comma (js_string_of n) = [js_string_of n].
Proof.
  unfold js_string_of. destruct (Z.to_int n) as [d|d]; simpl.
  - apply js_split_uint.
  - by rewrite js_split_uint.
Qed.

Lemma js_split_append (a b : string) :
  js_split comma a = [a] →
  js_split comma (a +:+ String comma b) = a :: js_split comma b.
Proof.
  induction a as [|c a IH]; intros Ha.
  - simpl. destruct (js_split comma b) as [|piece pieces] eqn:Hb; [| done].
    by apply js_split_nonempty in Hb.
  - simpl in *. destruct (js_split comma a) as [|piece pieces] eqn:Hsplit; [done |].
    destruct (Ascii.eqb c comma); [done |].
    injection Ha as -> ->. by rewrite IH.
Qed.

Lemma js_number_of_string (n : Z) : js_number_of (js_string_of n) = Some n.
Proof.
  unfold js_number_of, js_string_of. rewrite NilEmpty.isi. simpl.
  rewrite DecimalZ.of_to. by rewrite decide_True.
Qed.

Lemma hydrate_dehydrate (t : Z * Z) : hydrateTile (dehydrateTile t) = Made t.
Proof.
  unfold hydrateTile, dehydrateTile.
  change ("," +:+ js_string_of t.2) with (String comma (js_string_of t.2)).
  rewrite js_split_append by apply js_split_number.
  rewrite js_split_number, !js_number_of_string. by destruct t.
Qed.

Lemma dehydrate_inj (t1 t2 : Z * Z) : dehydrateTile t1 = dehydrateTile t2 → t1 = t2.
Proof.
  intros Heq. apply (f_equal hydrateTile) in Heq.
  rewrite !hydrate_dehydrate in Heq. by injection Heq.
Qed.

Lemma walk_unfold (n : Z) (draws : list Z) (lastTile : string) (group : list string) :
  walk n draws lastTile group
  = if Z.of_nat (length group) <? n then
      lastTileHydrated ← hydrateTile lastTile;
      match draws with
      | [] => Starved
      | u :: draws1 =>
          if randomInt u (-1) 1 =? 0 then
            match draws1 with
            | [] => Starved
            | u2 :: draws2 =>
                walk n draws2
                  (dehydrateTile (lastTileHydrated.1 + randomInt u (-1) 1,
                                  lastTileHydrated.2 + randomInt u2 (-1) 1))
                  (set_add (dehydrateTile (lastTileHydrated.1 + randomInt u (-1) 1,
                                           lastTileHydrated.2 + randomInt u2 (-1) 1))
                     group)
            end
          else
            walk n draws1
              (dehydrateTile (lastTileHydrated.1 + randomInt u (-1) 1,
                              lastTileHydrated.2 + 0))
              (set_add (dehydrateTile (lastTileHydrated.1 + randomInt u (-1) 1,
                                       lastTileHydrated.2 + 0))
                 group)
      end
    else Made group.
Proof. by destruct draws as [|u [|u2 draws2]]. Qed.

Lemma set_add_tile (c : Z * Z) (tiles : TileGroup) :
  set_add (dehydrateTile c) (map dehydrateTile tiles)
  = map dehydrateTile (if decide (c ∈ tiles) then tiles else tiles ++ [c]).
Proof.
  unfold set_add. destruct (decide (c ∈ tiles)) as [Hin | Hout].
  - rewrite decide_True; [done |]. apply list_elem_of_In, in_map, list_elem_of_In, Hin.
  - rewrite decide_False; [by rewrite map_app |].
    intros Hin. apply list_elem_of_In, in_map_iff in Hin as (t & Ht & Hin).
    apply dehydrate_inj in Ht as ->. by apply Hout, list_elem_of_In.
Qed.

Lemma walk_state_add (lastTile : string) (group : list string) (tiles : TileGroup)
    (c : Z * Z) :
  walk_state lastTile group tiles →
  walk_state (dehydrateTile c) (set_add (dehydrateTile c) group)
    (if decide (c ∈ tiles) then tiles else tiles ++ [c]).
Proof.
  intros (-> & Hnd & _). split_and!.
  - apply set_add_tile.
  - case_decide; [done |]. apply NoDup_app. split_and!; [done | | apply NoDup_singleton].
    intros t Ht Hc. apply list_elem_of_singleton in Hc as ->. done.
  - exists c. split; [| done]. case_decide; [done |].
    apply elem_of_app. right. apply list_elem_of_here.
Qed.

Lemma in_box_add (tiles : TileGroup) (xlo xhi ylo yhi : Z) (last c : Z * Z) :
  in_box tiles xlo xhi ylo yhi →
  last ∈ tiles →
  Z.abs (c.1 - last.1) + Z.abs (c.2 - last.2) ≤ 1 →
  ∃ xlo' xhi' ylo' yhi',
    in_box (if decide (c ∈ tiles) then tiles else tiles ++ [c]) xlo' xhi' ylo' yhi'.
Proof.
  intros [Hall Hsize] Hlast Hstep. case_decide; [by exists xlo, xhi, ylo, yhi |].
  rewrite Forall_forall in Hall. pose proof (Hall last Hlast) as Hin.
  exists (Z.min xlo c.1), (Z.max xhi c.1), (Z.min ylo c.2), (Z.max yhi c.2). split.
  - apply Forall_app. split.
    + apply Forall_forall. intros t Ht. pose proof (Hall t Ht). lia.
    + apply Forall_singleton. lia.
  - rewrite length_app. simpl. lia.
Qed.

Lemma walk_invariant (n : Z) (k : nat) :
  ∀ (draws : list Z) (lastTile : string) (group : list string) (tiles : TileGroup),
  (length draws ≤ k)%nat →
  walk_state lastTile group tiles →
  match walk n draws lastTile group with
  | Made group' =>
      ∃ tiles', group' = map dehydrateTile tiles' ∧ NoDup tiles' ∧
        Z.of_nat (length tiles') = Z.max n (Z.of_nat (length tiles)) ∧
        (Forall (λ u, 0 ≤ u ≤ 2) draws →
         (∃ xlo xhi ylo yhi, in_box tiles xlo xhi ylo yhi) →
         ∃ xlo xhi ylo yhi, in_box tiles' xlo xhi ylo yhi)
  | Starved => True
  | Outside => False
  end.
Proof.
  induction k as [|k IH]; intros draws lastTile group tiles Hk Hstate;
    rewrite walk_unfold; destruct Hstate as (Hgroup & Hnd & last & Hlast & Hlt).
  - destruct draws; [| simpl in Hk; lia].
    rewrite Hgroup, length_map. destruct (Z.ltb_spec (Z.of_nat (length tiles)) n).
    + rewrite Hlt, hydrate_dehydrate. done.
    + exists tiles. split_and!; [done | done | lia | done].
  - rewrite Hgroup, length_map. destruct (Z.ltb_spec (Z.of_nat (length tiles)) n) as [Hlt' | Hge].
    2: { exists tiles. split_and!; [done | done | lia | done]. }
    rewrite Hlt, hydrate_dehydrate. cbn [mbind gen_bind].
    destruct draws as [|u draws1]; [done |].
    assert (Hnext : ∀ c draws',
      (length draws' ≤ k)%nat →
      Z.abs (c.1 - last.1) + Z.abs (c.2 - last.2) ≤ 1
        ∨ ¬ Forall (λ u, 0 ≤ u ≤ 2) (u :: draws1) →
      (Forall (λ u, 0 ≤ u ≤ 2) (u :: draws1) → Forall (λ u, 0 ≤ u ≤ 2) draws') →
      match walk n draws' (dehydrateTile c)
              (set_add (dehydrateTile c) (map dehydrateTile tiles)) with
      | Made group' =>
          ∃ tiles', group' = map dehydrateTile tiles' ∧ NoDup tiles' ∧
            Z.of_nat (length tiles') = Z.max n (Z.of_nat (length tiles)) ∧
            (Forall (λ u, 0 ≤ u ≤ 2) (u :: draws1) →
             (∃ xlo xhi ylo yhi, in_box tiles xlo xhi ylo yhi) →
             ∃ xlo xhi ylo yhi, in_box tiles' xlo xhi ylo yhi)
      | Starved => True
      | Outside => False
      end).
    { intros c draws' Hlen Hstep Hvalid.
      pose proof (walk_state_add _ _ tiles c
                    (conj eq_refl (conj Hnd (ex_intro _ last (conj Hlast eq_refl)))))
        as Hstate'.
      specialize (IH draws' _ _ _ Hlen Hstate').
      destruct (walk n draws' _ _) as [group'| |]; [| done | done].
      destruct IH as (tiles' & Hg' & Hnd' & Hlen' & Hbox').
      exists tiles'. split_and!; [done | done | |].
      - rewrite Hlen'. case_decide; [lia |]. rewrite length_app. simpl. lia.
      - intros Hdraws Hbox. apply Hbox'; [by apply Hvalid |].
        destruct Hstep as [Hstep | Hbad]; [| done].
        destruct Hbox as (xlo & xhi & ylo & yhi & Hbox).
        by apply (in_box_add tiles xlo xhi ylo yhi last c). }
    unfold randomInt. destruct (Z.eqb_spec (u + -1) 0) as [Hzero | Hnonzero].
    + destruct draws1 as [|u2 draws2]; [done |].
      apply Hnext.
      * simpl in Hk. lia.
      * destruct (decide (Forall (λ u, 0 ≤ u ≤ 2) (u :: u2 :: draws2))) as [Hv | Hv];
          [| by right].
        left. apply Forall_cons in Hv as [_ Hv]. apply Forall_cons in Hv as [Hu2 _].
        simpl. lia.
      * intros Hv. apply Forall_cons in Hv as [_ Hv]. by apply Forall_cons in Hv as [_ Hv].
    + apply Hnext.
      * simpl in Hk. lia.
      * destruct (decide (Forall (λ u, 0 ≤ u ≤ 2) (u :: draws1))) as [Hv | Hv];
          [| by right].
        left. apply Forall_cons in Hv as [Hu _]. simpl. lia.
      * intros Hv. by apply Forall_cons in Hv as [_ Hv].
Qed.

Lemma gen_map_hydrate (tiles : TileGroup) :
  gen_map hydrateTile (map dehydrateTile tiles) = Made tiles.
Proof.
  induction tiles as [|t rest IH]; [done |].
  simpl. rewrite hydrate_dehydrate. cbn [mbind gen_bind]. by rewrite IH.
Qed.

Lemma map_dehydrate_inj (l1 l2 : TileGroup) :
  map dehydrateTile l1 = map dehydrateTile l2 → l1 = l2.
Proof.
  revert l2. induction l1 as [|t1 l1 IH]; intros [|t2 l2] Heq; try done.
  simpl in Heq. injection Heq as Ht Hrest.
  apply dehydrate_inj in Ht as ->. f_equal. by apply IH.
Qed.

Lemma span_in_range (xs : list Z) (lo hi : Z) :
  xs ≠ [] → Forall (λ v, lo ≤ v ≤ hi) xs →
  ∃ s, span xs = Some s ∧ 0 ≤ s ≤ hi - lo.
Proof.
  intros Hne Hall. destruct xs as [|a rest]; [done |].
  eexists. split; [done |].
  destruct (fold_left_max_spec rest a) as [Hmax Hub].
  destruct (fold_left_min_spec rest a) as [Hmin Hlb].
  rewrite Forall_forall in Hall.
  pose proof (Hall _ Hmax). pose proof (Hall _ Hmin).
  pose proof (Hub a (list_elem_of_here _ _)). pose proof (Hlb a (list_elem_of_here _ _)).
  lia.
Qed.

(** What [randomGroup] returns, read on the tiles that its strings
    stand for. *)
Lemma randomGroup_tiles (n : Z) (draws : list Z) :
  match randomGroup n draws with
  | Made g =>
      ∃ tiles, g = normaliseTileGroup tiles ∧ NoDup tiles ∧
        Z.of_nat (length tiles) = Z.max n 1 ∧
        (Forall (λ u, 0 ≤ u ≤ 2) draws →
         ∃ xlo xhi ylo yhi, in_box tiles xlo xhi ylo yhi)
  | Starved => True
  | Outside => False
  end.
Proof.
  unfold randomGroup.
  assert (Hstart : walk_state "0,0" ["0,0"] [(0, 0)]).
  { split_and!; [done | apply NoDup_singleton |].
    exists (0, 0). split; [apply list_elem_of_here | done]. }
  pose proof (walk_invariant n (length draws) draws _ _ _ (le_n _) Hstart) as Hwalk.
  destruct (walk n draws "0,0" ["0,0"]) as [group| |]; [| done | done].
  destruct Hwalk as (tiles & -> & Hnd & Hlen & Hbox). cbn [mbind gen_bind].
  pose proof (merge_sort_Permutation string_le (map dehydrateTile tiles)) as Hperm.
  apply Permutation_map_inv in Hperm as (sorted & Hsorted & Hperm).
  rewrite Hsorted, gen_map_hydrate. cbn [mbind gen_bind].
  exists sorted. split_and!.
  - done.
  - by rewrite <- Hperm.
  - rewrite <- Hperm, Hlen. simpl. lia.
  - intros Hdraws. destruct Hbox as (xlo & xhi & ylo & yhi & Hall & Hsize); [done | |].
    + exists 0, 0, 0, 0. split; [| simpl; lia]. apply Forall_singleton. simpl. lia.
    + exists xlo, xhi, ylo, yhi. split; [by rewrite <- Hperm | by rewrite <- Hperm].
Qed.

End random.

Section random_shape.

Lemma randomGroup_facts (n : Z) (draws : list Z) :
  randomGroup n draws ≠ Outside ∧
  ∀ g, randomGroup n draws = Made g →
    Z.of_nat (length g) = Z.max n 1 ∧ NoDup g ∧ normalised g ∧
    (Forall (λ u, 0 ≤ u ≤ 2) draws →
     ∃ wd ht, getTileGroupWidth g = Some wd ∧ getTileGroupHeight g = Some ht ∧
       0 ≤ wd ∧ 0 ≤ ht ∧ wd + ht + 1 ≤ Z.of_nat (length g)).
Proof.
  pose proof (randomGroup_tiles n draws) as Htiles. split.
  - intros Hout. by rewrite Hout in Htiles.
  - intros g Hg. rewrite Hg in Htiles.
    destruct Htiles as (tiles & -> & Hnd & Hlen & Hbox).
    destruct (normalise_is_translate tiles) as (dx & dy & Heq).
    split_and!.
    + by rewrite Heq, length_map.
    + rewrite Heq. apply NoDup_ListNoDup, Finite.Injective_map_NoDup;
        [| by apply NoDup_ListNoDup].
      intros t1 t2. apply translate_inj.
    + apply normalise_gives_normalised.
    + intros Hdraws. destruct (Hbox Hdraws) as (xlo & xhi & ylo & yhi & Hall & Hsize).
      assert (Hne : tiles ≠ []) by (intros ->; simpl in Hlen; lia).
      rewrite Heq. unfold getTileGroupWidth, getTileGroupHeight. rewrite !map_map.
      destruct (span_in_range (map (λ t, (translate dx dy t).1) tiles)
                  (xlo + dx) (xhi + dx)) as (wd & Hwd & Hwdr).
      { by destruct tiles. }
      { apply Forall_forall. intros v Hv.
        apply list_elem_of_In, in_map_iff in Hv as (t & <- & Ht).
        rewrite Forall_forall in Hall.
        pose proof (Hall t (proj2 (list_elem_of_In _ _) Ht)). simpl. lia. }
      destruct (span_in_range (map (λ t, (translate dx dy t).2) tiles)
                  (ylo + dy) (yhi + dy)) as (ht & Hht & Hhtr).
      { by destruct tiles. }
      { apply Forall_forall. intros v Hv.
        apply list_elem_of_In, in_map_iff in Hv as (t & <- & Ht).
        rewrite Forall_forall in Hall.
        pose proof (Hall t (proj2 (list_elem_of_In _ _) Ht)). simpl. lia. }
      exists wd, ht. rewrite length_map. split_and!; [done | done | lia | lia | lia].
Qed.

End random_shape.

(** [randomGroup(n)], whatever is drawn: when the loop ends, the group
    has [n] tiles (one if [n] is less than 1), no tile twice, and is
    normalised; when every draw is 0, 1 or 2, as [randomInt(-1, 1)]
    has it, the width and the height of the group together are less
    than its number of tiles.  No string other than a tile is ever
    parsed. *)
Theorem randomGroup_shape (n : Z) (draws : list Z) :
  randomGroup n draws ≠ Outside ∧
  ∀ g, randomGroup n draws = Made g →
    Z.of_nat (length g) = Z.max n 1 ∧ NoDup g ∧ normalised g ∧
    (Forall (λ u, 0 ≤ u ≤ 2) draws →
     ∃ wd ht, getTileGroupWidth g = Some wd ∧ getTileGroupHeight g = Some ht ∧
       0 ≤ wd ∧ 0 ≤ ht ∧ wd + ht + 1 ≤ Z.of_nat (length g)).
Proof. apply randomGroup_facts. Qed.

Lemma randomGroup_shape_witness :
  let g := [(1, 0); (1, 1); (0, 0); (2, 1)] in
  Z.of_nat (length g) = Z.max 4 1 ∧ NoDup g ∧ normalised g ∧
  (Forall (λ u, 0 ≤ u ≤ 2) [0; 1; 0; 1; 1; 0] →
   ∃ wd ht, getTileGroupWidth g = Some wd ∧ getTileGroupHeight g = Some ht ∧
     0 ≤ wd ∧ 0 ≤ ht ∧ wd + ht + 1 ≤ Z.of_nat (length g)).
Proof.
  intros g. apply (proj2 (randomGroup_shape 4 [0; 1; 0; 1; 1; 0]) g).
  vm_compute. reflexivity.
Defined.

Lemma newFloat_facts (w : nat) (n : Z) (draws : list Z) :
  newFloat (Z.of_nat w) n draws ≠ Outside ∧
  ∀ f, newFloat (Z.of_nat w) n draws = Made f →
    Forall (λ u, 0 ≤ u ≤ 2) draws →
    Z.max n 1 ≤ Z.of_nat w →
    float_inside w f ∧ y f = 0 ∧
    Forall (λ t, 0 ≤ t.2 < Z.max n 1) (value f) ∧
    ∃ wd, getTileGroupWidth (value f) = Some wd ∧
      x f = (Z.of_nat w - wd) / 2 ∧
      0 ≤ x f - (Z.of_nat w - 1 - wd - x f) ≤ 1.
Proof.
  unfold newFloat. destruct (randomGroup_facts n draws) as [Hin Hshape].
  destruct (randomGroup n draws) as [g| |] eqn:Hg; [| done | done].
  cbn [mbind gen_bind].
  destruct (Hshape g eq_refl) as (Hlen & Hnd & Hnorm & Hspans).
  assert (Hne : g ≠ []) by (intros ->; simpl in Hlen; lia).
  destruct (normalised_extent g Hnorm Hne)
    as (wd & ht & Hwd & Hht & Hbounds & _ & _).
  rewrite Hwd. split; [done |].
  intros f [= <-] Hdraws Hfits.
  destruct (Hspans Hdraws) as (wd' & ht' & Hwd' & Hht' & Hwd0 & Hht0 & Hsum).
  assert (wd' = wd) as -> by congruence. assert (ht' = ht) as -> by congruence.
  assert (Hx : 0 ≤ (Z.of_nat w - wd) / 2 ∧ wd + (Z.of_nat w - wd) / 2 < Z.of_nat w).
  { split; [apply Z.div_pos; lia |].
    assert ((Z.of_nat w - wd) / 2 < Z.of_nat w - wd); [| lia].
    apply Z.div_lt; lia. }
  split_and!.
  - split_and!; cbn [value x]; [done | done | | ].
    + eapply Forall_impl; [exact Hbounds |]. intros t Ht. simpl in *. lia.
    + intros ht' Hht''. rewrite Hht in Hht''. injection Hht'' as <-. lia.
  - done.
  - cbn [value]. eapply Forall_impl; [exact Hbounds |]. intros t Ht. simpl in *. lia.
  - exists wd. cbn [value x]. split_and!; [done | done | |].
    + pose proof (Z.div_mod (Z.of_nat w - wd) 2 ltac:(lia)).
      pose proof (Z.mod_pos_bound (Z.of_nat w - wd) 2 ltac:(lia)). lia.
    + pose proof (Z.div_mod (Z.of_nat w - wd) 2 ltac:(lia)).
      pose proof (Z.mod_pos_bound (Z.of_nat w - wd) 2 ltac:(lia)). lia.
Qed.

(** [newFloat(boardWidth, n)] on a board at least [n] columns wide,
    the draws being 0, 1 or 2: the float lies inside the board and
    stays inside when rotated, starts at row 0 and lies in the first
    [n] rows, and is centred, the free columns on its left being as
    many as on its right or one more.  The offset is never infinite. *)
Theorem newFloat_inside (w : nat) (n : Z) (draws : list Z) :
  newFloat (Z.of_nat w) n draws ≠ Outside ∧
  ∀ f, newFloat (Z.of_nat w) n draws = Made f →
    Forall (λ u, 0 ≤ u ≤ 2) draws →
    Z.max n 1 ≤ Z.of_nat w →
    float_inside w f ∧ y f = 0 ∧
    Forall (λ t, 0 ≤ t.2 < Z.max n 1) (value f) ∧
    ∃ wd, getTileGroupWidth (value f) = Some wd ∧
      x f = (Z.of_nat w - wd) / 2 ∧
      0 ≤ x f - (Z.of_nat w - 1 - wd - x f) ≤ 1.
Proof. apply newFloat_facts. Qed.

Lemma newFloat_inside_witness :
  let f := mkFloat [(1, 0); (1, 1); (0, 0); (2, 1)] 4 0 in
  float_inside 10 f ∧ y f = 0 ∧
  Forall (λ t, 0 ≤ t.2 < Z.max 4 1) (value f) ∧
  ∃ wd, getTileGroupWidth (value f) = Some wd ∧
    x f = (Z.of_nat 10 - wd) / 2 ∧
    0 ≤ x f - (Z.of_nat 10 - 1 - wd - x f) ≤ 1.
Proof.
  intros f. apply (proj2 (newFloat_inside 10 4 [0; 1; 0; 1; 1; 0]) f).
  - vm_compute. reflexivity.
  - repeat constructor; lia.
  - vm_compute. discriminate.
Defined.

(** ** Drawing *)

Section drawing.

Context (w h : nat).

Lemma cell_board_set (d : Board) (i0 j0 v : Z) :
  has_dims w h d → 0 ≤ i0 < Z.of_nat w → 0 ≤ j0 < Z.of_nat h →
  ∃ d', board_set d i0 j0 v = Ok d' ∧ has_dims w h d' ∧
    ∀ i j, cell d' i j = if (i0 =? i) && (j0 =? j) then Some v else cell d i j.
Proof.
  intros Hd Hi Hj.
  destruct (lookup_lt_is_Some_2 d (Z.to_nat i0)) as [dcol Hdcol];
    [destruct Hd; lia |].
  pose proof (has_dims_lookup w h d _ dcol Hd Hdcol) as Hlen.
  pose proof (board_set_in_range d (Z.to_nat i0) (Z.to_nat j0) dcol v Hdcol
                ltac:(lia)) as Hset.
  rewrite !Z2Nat.id in Hset by lia.
  eexists. split; [exact Hset |]. split.
  { apply has_dims_insert; [done | by rewrite length_insert]. }
  intros i j. unfold cell, js_get.
  destruct (Z.eqb_spec i0 i) as [<- | Hi0].
  - destruct (Z.ltb_spec i0 0); [lia |].
    rewrite list_lookup_insert_eq by (by eapply lookup_lt_Some).
    rewrite Hdcol. cbn [mbind option_bind].
    destruct (Z.eqb_spec j0 j) as [<- | Hj0]; cbn [andb].
    + destruct (Z.ltb_spec j0 0); [lia |].
      apply list_lookup_insert_eq. lia.
    + destruct (Z.ltb_spec j 0); [done |].
      apply list_lookup_insert_ne. lia.
  - cbn [andb]. destruct (Z.ltb_spec i 0); [done |].
    rewrite list_lookup_insert_ne by lia. done.
Qed.

Lemma paint_cells (fl : Float) (tiles : TileGroup) :
  ∀ (k : Z) (gb0 : Board),
  has_dims w h gb0 →
  Forall (λ t, 0 ≤ t.1 + x fl < Z.of_nat w ∧ 0 ≤ t.2 + y fl < Z.of_nat h) tiles →
  ∃ gb,
    forEach (λ gameBoard '(tx, ty) _, board_set gameBoard (tx + x fl) (ty + y fl) 1)
            k tiles gb0 = Ok gb ∧
    has_dims w h gb ∧
    ∀ i j, cell gb i j =
           if existsb (λ t, (t.1 + x fl =? i) && (t.2 + y fl =? j)) tiles
           then Some 1 else cell gb0 i j.
Proof.
  induction tiles as [|[tx ty] rest IH]; intros k gb0 Hgb0 Htiles.
  - exists gb0. done.
  - apply Forall_cons in Htiles as [[Hx Hy] Hrest]. simpl in Hx, Hy.
    destruct (cell_board_set gb0 (tx + x fl) (ty + y fl) 1 Hgb0 Hx Hy)
      as (gb1 & Hset & Hgb1 & Hcell1).
    destruct (IH (k + 1) gb1 Hgb1 Hrest) as (gb & Hrun & Hgb & Hcell).
    exists gb. split; [| split; [done |]].
    + cbn [forEach]. rewrite Hset. exact Hrun.
    + intros i j. rewrite Hcell, Hcell1. cbn [existsb fst snd].
      destruct (existsb _ rest); [by rewrite orb_true_r |].
      by rewrite orb_false_r.
Qed.

Lemma appendEach_spec {A B} (make : A → Z → Res B) (g : A → Z → B) (arr : list A) :
  ∀ i, (∀ (k : nat) a, arr !! k = Some a → make a (i + Z.of_nat k) = Ok (g a (i + Z.of_nat k))) →
    appendEach make i arr = Ok (map_index g i arr).
Proof.
  induction arr as [|a rest IH]; intros i Hmake; [done |].
  cbn [appendEach map_index].
  pose proof (Hmake O a eq_refl) as Hfirst. rewrite Z.add_0_r in Hfirst.
  rewrite Hfirst. cbn [mbind res_bind]. rewrite IH; [done |].
  intros k b Hb. specialize (Hmake (S k) b Hb).
  by replace (i + 1 + Z.of_nat k) with (i + Z.of_nat (S k)) by lia.
Qed.

(** The colour of an occupied or empty cell, read off [createCell]. *)
Lemma createCell_colour (bottomIndex : Z) (bh : Board) (v i j : Z) :
  0 ≤ i < Z.of_nat w → has_dims w h bh →
  createCell bottomIndex bh v i j
  = Ok (if v =? 0 then White
        else if j >=? bottomIndex then Red
        else if truthy (cell bh i j) then Blue else Dark).
Proof.
  intros Hi Hbh. unfold createCell, truthy at 1.
  destruct (v =? 0); cbn [negb]; [done |].
  destruct (j >=? bottomIndex); [done |].
  destruct (js_get_in_range bh i) as [column Hcolumn]; [destruct Hbh; lia |].
  unfold cell. rewrite Hcolumn. done.
Qed.

Lemma drawBoard_grid (present : bool) (gb bh : Board) :
  (1 ≤ w)%nat → has_dims w h gb → has_dims w h bh →
  ∃ score, getBottomContiguous gb = Ok score ∧
    0 ≤ score ≤ Z.of_nat h ∧
    (∀ j, Z.of_nat h - score ≤ j < Z.of_nat h → full_row gb j) ∧
    drawBoard present gb bh
    = Ok (if present
          then Some (map_index (λ cells i,
                       map_index (λ v j,
                         if v =? 0 then White
                         else if j >=? Z.of_nat h - score then Red
                         else if truthy (cell bh i j) then Blue else Dark) 0 cells)
                     0 gb)
          else None).
Proof.
  intros Hw Hgb Hbh.
  destruct gb as [|first rest] eqn:Heq; [destruct Hgb; simpl in *; lia |].
  rewrite <- Heq in *.
  assert (Hfirst : length first = h).
  { apply (has_dims_lookup w h gb O first Hgb). by rewrite Heq. }
  destruct (bottom_count_spec first rest) as (score & Hscore & Hrange & Hfull & _).
  rewrite <- Heq, Hfirst in *.
  exists score. split; [done |]. split; [done |]. split.
  { intros j Hj. replace j with (Z.of_nat h - (Z.of_nat h - 1 - j) - 1) by lia.
    apply Hfull. lia. }
  unfold drawBoard. rewrite Hscore. cbn [mbind res_bind].
  replace (js_get gb 0) with (Some first) by (by rewrite Heq).
  rewrite Hfirst. destruct present; [| done].
  rewrite (appendEach_spec _
             (λ cells i, map_index (λ v j,
                if v =? 0 then White
                else if j >=? Z.of_nat h - score then Red
                else if truthy (cell bh i j) then Blue else Dark) 0 cells)); [done |].
  intros k cells Hcells. unfold createColumn. apply appendEach_spec.
  intros k' v _. apply createCell_colour; [| done].
  apply lookup_lt_Some in Hcells. destruct Hgb. lia.
Qed.

Lemma renderBoard_total (present : bool) (b bh : Board) (f : option Float) :
  (1 ≤ w)%nat → has_dims w h b → has_dims w h bh →
  (∀ fl, f = Some fl → float_inside w fl ∧ float_in_rows h fl) →
  ∃ frame, renderBoard present b f bh = Ok frame.
Proof.
  intros Hw Hb Hbh Hf. unfold renderBoard, cloneBoard.
  assert (Hpaint : ∃ gb, paintFloat f b = Ok gb ∧ has_dims w h gb).
  { destruct f as [fl|]; [| by exists b].
    destruct (Hf fl eq_refl) as [(_ & _ & Hcols & _) Hrows].
    destruct (paint_cells fl (value fl) 0 b Hb) as (gb & Hrun & Hgb & _).
    { unfold float_in_rows in Hrows.
      apply Forall_forall. intros t Ht. rewrite Forall_forall in Hcols, Hrows.
      split; [by apply Hcols | by apply Hrows]. }
    by exists gb. }
  destruct Hpaint as (gb & -> & Hgb). cbn [mbind res_bind].
  destruct (drawBoard_grid present gb bh Hw Hgb Hbh) as (score & _ & _ & _ & ->).
  by eexists.
Qed.

End drawing.

Section painting.

Context (w h : nat).

Lemma paint_missing (fl : Float) (tiles : TileGroup) :
  ∀ (k : Z) (gb0 : Board),
  has_dims w h gb0 →
  Forall (λ t, 0 ≤ t.2 + y fl < Z.of_nat h) tiles →
  Exists (λ t, ¬ 0 ≤ t.1 + x fl < Z.of_nat w) tiles →
  forEach (λ gameBoard '(tx, ty) _, board_set gameBoard (tx + x fl) (ty + y fl) 1)
          k tiles gb0 = Err TypeError.
Proof.
  induction tiles as [|[tx ty] rest IH]; intros k gb0 Hgb0 Hrows Hout.
  - by apply Exists_nil in Hout.
  - apply Forall_cons in Hrows as [Hy Hrows]. simpl in Hy. cbn [forEach].
    destruct (decide (0 ≤ tx + x fl < Z.of_nat w)) as [Hx | Hx].
    + destruct (cell_board_set w h gb0 (tx + x fl) (ty + y fl) 1 Hgb0 Hx Hy)
        as (gb1 & -> & Hgb1 & _).
      cbn [mbind res_bind]. apply IH; [done | done |].
      apply Exists_cons in Hout as [Hhere | Hrest]; [done | done].
    + unfold board_set.
      replace (js_get gb0 (tx + x fl)) with (@None (list Z)); [done |].
      symmetry. unfold js_get. destruct (Z.ltb_spec (tx + x fl) 0); [done |].
      apply lookup_ge_None_2. destruct Hgb0. lia.
Qed.

End painting.

(** [renderBoard] with a float whose tiles are in rows of the board:
    when every tile is sent to an existing column, the board handed to
    [drawBoard] has the size of the board, holds 1 where a tile of the
    float is and the cell of the board elsewhere; when some tile is
    sent to a missing column, a [TypeError] is raised. *)
Theorem renderBoard_paints (w h : nat) (b : Board) (f : Float) :
  has_dims w h b →
  float_in_rows h f →
  (in_columns b f →
   ∃ gameBoard, paintFloat (Some f) (cloneBoard b) = Ok gameBoard ∧
     has_dims w h gameBoard ∧
     ∀ i j, cell gameBoard i j = if covered f i j then Some 1 else cell b i j) ∧
  (¬ in_columns b f →
   ∀ present bh, renderBoard present b (Some f) bh = Err TypeError).
Proof.
  intros Hb Hrows. unfold in_columns. replace (length b) with w by (by destruct Hb).
  split.
  - intros Hcols. unfold paintFloat, cloneBoard, covered.
    apply (paint_cells w h f (value f) 0 b Hb).
    unfold float_in_rows in Hrows. rewrite Forall_forall in Hcols, Hrows.
    apply Forall_forall. intros t Ht. split; [by apply Hcols | by apply Hrows].
  - intros Hcols present bh. unfold renderBoard, paintFloat, cloneBoard.
    rewrite (paint_missing w h f (value f) 0 b Hb Hrows); [done |].
    apply not_Forall_Exists in Hcols; [| apply _].
    eapply Exists_impl; [exact Hcols |]. done.
Qed.

Lemma renderBoard_paints_witness :
  let b := [[0; 0; 3]; [0; 0; 0]] in
  let f := mkFloat [(0, 0); (1, 0); (1, 1)] 0 1 in
  ∃ gameBoard, paintFloat (Some f) (cloneBoard b) = Ok gameBoard ∧
    has_dims 2 3 gameBoard ∧
    ∀ i j, cell gameBoard i j = if covered f i j then Some 1 else cell b i j.
Proof.
  intros b f. apply (renderBoard_paints 2 3 b f).
  - split; [reflexivity | repeat constructor].
  - repeat constructor; simpl; lia.
  - repeat constructor; simpl; lia.
Defined.

(** [drawBoard] on a board and a highlight of the same size, with at
    least one column, never raises.  Without the element it draws
    nothing.  With it, an empty cell is white, every cell of the
    [score] rows that [getBottomContiguous] counts at the bottom is
    red, and an occupied cell above them is blue when the highlight
    marks it and dark otherwise. *)
Theorem drawBoard_colours (w h : nat) (gameBoard bh : Board) :
  (1 ≤ w)%nat → has_dims w h gameBoard → has_dims w h bh →
  drawBoard false gameBoard bh = Ok None ∧
  ∃ score grid,
    getBottomContiguous gameBoard = Ok score ∧
    drawBoard true gameBoard bh = Ok (Some grid) ∧
    ∀ i j v, cell gameBoard i j = Some v →
      (v = 0 → cell grid i j = Some White) ∧
      (Z.of_nat h - score ≤ j → cell grid i j = Some Red) ∧
      (v ≠ 0 → j < Z.of_nat h - score →
       cell grid i j = Some (if truthy (cell bh i j) then Blue else Dark)).
Proof.
  intros Hw Hgb Hbh.
  destruct (drawBoard_grid w h false gameBoard bh Hw Hgb Hbh) as (score0 & _ & _ & _ & Hnone).
  split; [exact Hnone |].
  destruct (drawBoard_grid w h true gameBoard bh Hw Hgb Hbh)
    as (score & Hscore & Hrange & Hfull & Hdraw).
  eexists score, _. split; [done |]. split; [exact Hdraw |].
  intros i j v Hcell. unfold cell in Hcell.
  destruct (js_get gameBoard i) as [cells|] eqn:Hcells; [| done].
  cbn [mbind option_bind] in Hcell.
  apply js_get_Some in Hcells as [Hi Hcells]. apply js_get_Some in Hcell as [Hj Hcell].
  assert (Hjh : j < Z.of_nat h).
  { pose proof (has_dims_lookup w h gameBoard _ cells Hgb Hcells) as Hlen.
    apply lookup_lt_Some in Hcell. lia. }
  assert (Hgrid : ∀ c,
    (if v =? 0 then White
     else if j >=? Z.of_nat h - score then Red
     else if truthy (cell bh i j) then Blue else Dark) = c →
    cell (map_index (λ cells i, map_index (λ v j,
            if v =? 0 then White
            else if j >=? Z.of_nat h - score then Red
            else if truthy (cell bh i j) then Blue else Dark) 0 cells) 0 gameBoard)
         i j = Some c).
  { intros c <-. unfold cell, js_get.
    destruct (Z.ltb_spec i 0); [lia |]. destruct (Z.ltb_spec j 0); [lia |].
    rewrite map_index_lookup, Hcells. cbn [fmap option_fmap option_map mbind option_bind].
    rewrite map_index_lookup, Hcell. cbn [fmap option_fmap option_map].
    rewrite !Z.add_0_l, !Z2Nat.id by lia.
    destruct (Z.ltb_spec i 0); [lia |]. destruct (Z.ltb_spec j 0); [lia |]. done. }
  split_and!.
  - intros ->. by apply Hgrid.
  - intros Hbottom. apply Hgrid.
    assert (Hv : v ≠ 0).
    { destruct (Hfull j ltac:(lia) cells) as (v' & Hv' & Hne).
      { by eapply list_elem_of_lookup_2. }
      apply js_get_Some in Hv' as [_ Hv']. congruence. }
    destruct (Z.eqb_spec v 0); [done |].
    destruct (Z.geb_spec j (Z.of_nat h - score)); [done | lia].
  - intros Hv Habove. apply Hgrid.
    destruct (Z.eqb_spec v 0); [done |].
    destruct (Z.geb_spec j (Z.of_nat h - score)); [lia | done].
Qed.

Lemma drawBoard_colours_witness :
  let gameBoard := [[0; 1; 1]; [0; 0; 1]] in
  let bh := [[0; 1; 0]; [0; 0; 0]] in
  drawBoard false gameBoard bh = Ok None ∧
  ∃ score grid,
    getBottomContiguous gameBoard = Ok score ∧
    drawBoard true gameBoard bh = Ok (Some grid) ∧
    ∀ i j v, cell gameBoard i j = Some v →
      (v = 0 → cell grid i j = Some White) ∧
      (Z.of_nat 3 - score ≤ j → cell grid i j = Some Red) ∧
      (v ≠ 0 → j < Z.of_nat 3 - score →
       cell grid i j = Some (if truthy (cell bh i j) then Blue else Dark)).
Proof.
  intros gameBoard bh. apply (drawBoard_colours 2 3 gameBoard bh).
  - lia.
  - split; [reflexivity | repeat constructor].
  - split; [reflexivity | repeat constructor].
Defined.

(** ** The float stays on cells of the board *)

Section float_rows.

Context (w h : nat).
Hypothesis Hwh : (w ≤ h)%nat.

Lemma float_in_rows_top (f : Float) :
  float_inside w f → float_in_rows h f → 0 ≤ y f.
Proof.
  intros (Hnorm & Hne & _ & _) Hrows.
  destruct Hnorm as [Hnil | (_ & (t & Ht & Ht0) & _)]; [done |].
  unfold float_in_rows in Hrows. rewrite Forall_forall in Hrows.
  pose proof (Hrows t Ht). lia.
Qed.

Lemma float_in_rows_rotated (f : Float) (x' : Z) :
  float_inside w f → float_in_rows h f →
  float_in_rows h (mkFloat (rotateTileGroup (value f)) x'
                     (min_bound (y f) (Z.of_nat h)
                        (getTileGroupHeight (rotateTileGroup (value f))))).
Proof.
  intros Hf Hrows. pose proof (float_in_rows_top f Hf Hrows) as Htop.
  destruct (float_inside_extent w f Hf) as (wd & ht & Hwd & Hht & _ & Hx & Hright & _).
  destruct (width_of_rotated (value f)) as [Hrw Hrh].
  rewrite Hht in Hrw. rewrite Hwd in Hrh. rewrite Hrh. cbn [min_bound].
  pose proof (normalised_bounds _ ht wd (normalise_gives_normalised _) Hrw Hrh) as Hbounds.
  unfold float_in_rows. cbn [value y].
  eapply Forall_impl; [exact Hbounds |]. intros t Ht. simpl in *. lia.
Qed.

Lemma applyAction_rows (b : Board) (f : Float) (a : action) (g g' : Game)
    (fw : option Z) (b' : Board) (f' : option Float) :
  float_inside w f → float_in_rows h f →
  applyAction (Z.of_nat w) (Z.of_nat h) fw (b, Some f) a g = (Ok (b', f'), g') →
  ∀ f1, f' = Some f1 → float_in_rows h f1.
Proof.
  intros Hf Hrows Hrun f1 ->. destruct a; unfold applyAction in Hrun; cbn [fst snd] in Hrun.
  - injection Hrun as _ <- _. exact Hrows.
  - injection Hrun as _ <- _. exact Hrows.
  - unfold mbind, m_bind, lift, set_boardHighlight in Hrun.
    repeat case_match; simplify_eq.
  - injection Hrun as _ <- _. by apply float_in_rows_rotated.
Qed.

Lemma applyActions_rows (b : Board) (f : Float) (g g' : Game)
    (b' : Board) (f' : option Float) :
  has_dims w h b → (1 ≤ w)%nat →
  float_inside w f → float_in_rows h f →
  (length (userActions g) ≤ 1)%nat →
  applyActions b (Some f) g = (Ok (b', f'), g') →
  ∀ f1, f' = Some f1 → float_in_rows h f1.
Proof.
  intros Hb Hw Hf Hrows Hqueue. unfold applyActions, cloneBoard.
  destruct (isGameOver b); [by intros [= _ <- _] f1 [= <-] |].
  destruct b as [|first rest] eqn:Heq; [destruct Hb; simpl in *; lia |].
  rewrite <- Heq in *.
  assert (Hfirst : length first = h).
  { apply (has_dims_lookup w h b O first Hb). by rewrite Heq. }
  assert (Hlen : length b = w) by apply Hb. rewrite Hfirst, Hlen.
  unfold mbind, m_bind, splice_userActions.
  destruct (userActions g) as [|a [|a' queue]]; [| | simpl in Hqueue; lia].
  - by intros [= _ <- _] f1 [= <-].
  - cbn [applyEach]. unfold mbind, m_bind.
    destruct (applyAction _ _ _ _ _ _) as [[st|e] g1] eqn:Hrun; [| done].
    intros [= -> _].
    eapply applyAction_rows; [exact Hf | exact Hrows | exact Hrun].
Qed.

Lemma js_some_false_inv {A} (p : A → Res bool) (arr : list A) :
  js_some p arr = Ok false → Forall (λ a, p a = Ok false) arr.
Proof.
  induction arr as [|a rest IH]; [done |]. cbn [js_some].
  destruct (p a) as [[|]|e] eqn:Hpa; cbn [mbind res_bind]; [done | | done].
  intros Hrest. constructor; [done | by apply IH].
Qed.

Lemma iterBoard_rows (b : Board) (f : Float) (b' : Board) (f' : option Float) :
  has_dims w h b → in_columns b f → float_in_rows h f →
  iterBoard b (Some f) = Ok (b', f') →
  ∀ f1, f' = Some f1 → float_in_rows h f1.
Proof.
  intros Hb Hcols Hrows. unfold iterBoard. cbn [fmap option_fmap option_map].
  destruct (js_some (collides b (advance f)) (value (advance f))) as [[|]|e] eqn:Hsome;
    cbn [mbind res_bind]; [| | done].
  - destruct (dropFloatingTiles _ _); cbn [mbind res_bind]; [| done].
    by intros [= _ <-] f1.
  - intros [= _ <-] f1 [= <-].
    apply js_some_false_inv in Hsome. cbn [advance value] in Hsome.
    unfold float_in_rows, in_columns in Hcols, Hrows |- *. cbn [advance value y].
    rewrite Forall_forall in Hcols, Hrows, Hsome. apply Forall_forall.
    intros t Ht. pose proof (Hcols t Ht) as Hc. pose proof (Hrows t Ht) as Hr.
    pose proof (Hsome t Ht) as Hfree.
    destruct (js_get_in_range b (t.1 + x f) Hc) as [column Hcolumn].
    assert (Hlen : length column = h).
    { apply js_get_Some in Hcolumn as [_ Hcolumn].
      by eapply (has_dims_lookup w h b). }
    assert (Hnot : ¬ tile_collides b (advance f) t).
    { intros Hhit. apply collides_spec in Hhit. congruence. }
    assert (t.2 + (y f + 1) ≠ Z.of_nat h); [| lia].
    intros Hbottom. apply Hnot. exists column. split; [done |].
    right. cbn [advance y]. lia.
Qed.

End float_rows.

(** ** The parts of a tick *)

Section ticks.

Context (w h : nat).
Hypothesis Hw : (1 ≤ w)%nat.
Hypothesis Hwh : (w ≤ h)%nat.

Lemma playing_on_board (g : Game) :
  playing w h g ↔
  on_board w h g ∧ (isGameOver (board g) = false → userActions g = []).
Proof.
  unfold playing, running, on_board. split.
  - intros [(Hb & Hgh & Hgf & Hqueue) Hrows]. split; [| done].
    split_and!; [done | done |]. intros f Hf. split; [by apply Hgf | by apply Hrows].
  - intros [(Hb & Hgh & Hgf) Hqueue]. split.
    + split_and!; [done | done | | done]. intros f Hf. by apply Hgf.
    + intros f Hf. by apply Hgf.
Qed.

Lemma render_safe (present : bool) (g : Game) :
  on_board w h g → ∃ frame, render present g = (Ok frame, g).
Proof.
  intros (Hb & Hgh & Hgf). unfold render, mbind, m_bind, read, lift.
  destruct (renderBoard_total w h present (board g) (boardHighlight g) (float g)
              Hw Hb Hgh Hgf) as [frame ->].
  by exists frame.
Qed.

Lemma stepLoop_safe (score i : Z) (b gh : Board) (gf : option Float)
    (queue : list action) :
  on_board w h (mkGame b gh gf queue) →
  ∃ p g', stepLoop score i (mkGame b gh gf queue) = (Ok p, g') ∧
    on_board w h g' ∧ userActions g' = queue.
Proof.
  intros (Hb & Hgh & Hgf). cbn [board boardHighlight float] in Hb, Hgh, Hgf.
  unfold stepLoop. destruct (i <? score).
  - unfold mbind, m_bind, read, lift, set_board. cbn [board].
    rewrite removeBottomRow_shift by lia.
    eexists _, _. split; [reflexivity |]. split; [| done].
    split_and!; cbn [board boardHighlight float]; [| done | done].
    apply shift_down_dims; [done | lia].
  - unfold mbind, m_bind, read, lift. cbn [board float].
    assert (Hiter : ∃ b3 f3, iterBoard b gf = Ok (b3, f3)).
    { destruct gf as [f|]; [| by eexists _, _].
      apply iterBoard_total, (float_inside_in_columns w); [apply Hb | by apply Hgf]. }
    destruct Hiter as (b3 & f3 & Hiter). rewrite Hiter. cbn [fst snd].
    pose proof (iterBoard_dims w h b gf b3 f3 Hb Hiter) as Hb3.
    destruct (boardDiff_total w h b b3 Hw Hb Hb3) as [d Hd].
    rewrite Hd. unfold set_boardHighlight, set_board, set_float.
    cbn [board boardHighlight float userActions].
    eexists _, _. split; [reflexivity |]. split; [| done].
    split_and!; cbn [board boardHighlight float];
      [done | by eapply (boardDiff_dims w h b) |].
    intros f Hf. destruct gf as [f1|].
    + destruct (Hgf f1 eq_refl) as [Hinside Hrows]. split.
      * pose proof Hiter as Hiter'.
        apply iterBoard_result in Hiter' as [[_ Hf3] | [_ Hf3]];
          rewrite Hf3 in Hf; [| done].
        injection Hf as <-. by apply float_inside_advance.
      * eapply (iterBoard_rows w h Hwh b f1 b3 f3); [done | | done | exact Hiter | exact Hf].
        apply (float_inside_in_columns w); [apply Hb | done].
    + unfold iterBoard in Hiter. simpl in Hiter. injection Hiter as _ <-. done.
Qed.

Lemma stepResume_safe (present : bool) (score i : Z) (g : Game) :
  on_board w h g →
  ∃ p g', stepResume present score i g = (Ok p, g') ∧
    on_board w h g' ∧ userActions g' = userActions g.
Proof.
  intros Hg. unfold stepResume, mbind, m_bind.
  destruct (render_safe present g Hg) as [frame ->].
  destruct g as [b gh gf queue]. by apply stepLoop_safe.
Qed.

Lemma step_safe (present : bool) (fresh : Float) (userActionsOnly : bool)
    (b gh : Board) (gf : option Float) (queue : list action) :
  on_board w h (mkGame b gh gf queue) →
  float_inside w fresh → float_in_rows h fresh →
  (isGameOver b = false → (length queue ≤ 1)%nat) →
  ∃ p g', step present fresh userActionsOnly (mkGame b gh gf queue) = (Ok p, g') ∧
    on_board w h g' ∧
    (isGameOver b = true → g' = mkGame b gh gf queue ∧ p = Finished) ∧
    (isGameOver b = false → userActions g' = []) ∧
    (userActionsOnly = true → p = Finished).
Proof.
  intros Hg Hfresh Hfreshrows Hqueue. pose proof Hg as (Hb & Hgh & Hgf).
  cbn [board boardHighlight float] in Hb, Hgh, Hgf.
  unfold step, mbind, m_bind, read. cbn [board].
  destruct (isGameOver b) eqn:Hover.
  { eexists _, _. split; [reflexivity |]. split_and!; done. }
  set (f0 := match gf with Some f => f | None => fresh end).
  assert (Hf0 : float_inside w f0 ∧ float_in_rows h f0).
  { unfold f0. destruct gf; [by apply Hgf | done]. }
  destruct Hf0 as [Hf0 Hf0rows].
  assert (Hstate :
    (match gf with None => set_float (Some fresh) | Some _ => mret tt end)
      (mkGame b gh gf queue) = (Ok tt, mkGame b gh (Some f0) queue)).
  { unfold f0. by destruct gf. }
  cbn [float]. rewrite Hstate. cbn [board float].
  destruct (applyActions_safe w h Hw b b gh (Some f0) f0 queue Hb Hgh Hf0 Hover
              (Hqueue eq_refl))
    as (b1 & f1 & gh1 & Hrun & Hb1 & Hgh1 & Hf1 & _).
  pose proof (applyActions_rows w h Hwh b f0 (mkGame b gh (Some f0) queue) _ b1 f1
                Hb Hw Hf0 Hf0rows (Hqueue eq_refl) Hrun) as Hf1rows.
  rewrite Hrun. unfold set_board, set_float.
  cbn [board boardHighlight float userActions fst snd].
  assert (Hg1 : on_board w h (mkGame b1 gh1 f1 [])).
  { split_and!; cbn [board boardHighlight float]; [done | done |].
    intros fl Hfl. split; [by apply Hf1 | by apply Hf1rows]. }
  destruct (render_safe present _ Hg1) as [frame Hframe].
  unfold mbind, m_bind in Hframe. rewrite Hframe.
  destruct userActionsOnly.
  { eexists _, _. split; [reflexivity |]. split_and!; done. }
  destruct b1 as [|first rest] eqn:Heq; [destruct Hb1; simpl in *; lia |].
  rewrite <- Heq in *.
  destruct (bottom_count_spec first rest) as (r & Hr & _).
  rewrite <- Heq in Hr. unfold lift. cbn [board]. rewrite Hr.
  destruct (stepLoop_safe r 0 b1 gh1 f1 [] Hg1) as (p & g' & Hloop & Hg' & Hq').
  rewrite Hloop. exists p, g'. split_and!; done.
Qed.

End ticks.

(** The parts of a timer tick never raise.  On a board at least as
    high as wide, from a state whose board and highlight have the
    board's size, whose float, if any, lies inside the board and on
    its cells, and whose queue is empty unless the game is over, and
    with the new float inside the board and on its cells should one
    be made: the call of [step()], up to its first [await] or to its
    end, returns normally, with its drawing, and leaves such a state
    again; the call resumed after an [await] returns normally up to
    the next [await] or to its end, leaves the board, the highlight
    and the float as said and the queue as it was, so that it leaves
    such a state again when no key is in the queue. *)
Theorem tick_never_raises (w h : nat) (g : Game) (fresh : Float) (present : bool) :
  (1 ≤ w)%nat → (w ≤ h)%nat →
  playing w h g →
  float_inside w fresh → float_in_rows h fresh →
  (∃ p g', step present fresh false g = (Ok p, g') ∧ playing w h g') ∧
  (∀ score i, ∃ p g',
     stepResume present score i g = (Ok p, g') ∧
     on_board w h g' ∧ userActions g' = userActions g ∧
     (userActions g = [] → playing w h g')).
Proof.
  intros Hw Hwh Hg Hfresh Hrows.
  apply (playing_on_board w h) in Hg as [Hg Hqueue]. split.
  - destruct g as [b gh gf queue]. cbn [board userActions] in Hqueue.
    destruct (step_safe w h Hw Hwh present fresh false b gh gf queue Hg Hfresh Hrows)
      as (p & g' & Hstep & Hg' & Hover & Hrunning & _).
    { intros Hnot. rewrite (Hqueue Hnot). simpl. lia. }
    exists p, g'. split; [done |]. apply (playing_on_board w h). split; [done |].
    destruct (isGameOver b) eqn:Hb.
    + destruct (Hover eq_refl) as [-> _]. cbn [board userActions]. congruence.
    + intros _. by apply Hrunning.
  - intros score i.
    destruct (stepResume_safe w h Hw Hwh present score i g Hg)
      as (p & g' & Hstep & Hg' & Hq).
    exists p, g'. split_and!; [done | done | done |].
    intros Hempty. apply (playing_on_board w h). split; [done |].
    intros _. congruence.
Qed.

Lemma tick_never_raises_witness :
  let g := mkGame [[0; 0; 1]; [0; 1; 1]] [[0; 0; 0]; [0; 0; 0]] None [] in
  let fresh := mkFloat [(0, 0); (1, 0)] 0 0 in
  ∃ p g', step true fresh false g = (Ok p, g') ∧ playing 2 3 g'.
Proof.
  intros g fresh.
  destruct (tick_never_raises 2 3 g fresh true) as [Hstart _];
    [lia | lia | | | | exact Hstart].
  - split; [| intros f Hf; discriminate]. split_and!.
    + split; [reflexivity | repeat constructor].
    + split; [reflexivity | repeat constructor].
    + intros f Hf. discriminate.
    + reflexivity.
  - split_and!.
    + right. split_and!.
      * exists (0, 0). split; [apply list_elem_of_here | reflexivity].
      * exists (0, 0). split; [apply list_elem_of_here | reflexivity].
      * repeat constructor; simpl; lia.
    + discriminate.
    + repeat constructor; simpl; lia.
    + intros ht Hht. vm_compute in Hht. injection Hht as <-. lia.
  - repeat constructor; simpl; lia.
Defined.

(** A key press never raises.  Under the same conditions on the
    board, the state and the new float, the [keydown] listener (the
    key pushed, [step(true)] run to its end, with its drawing) returns
    normally without waiting and leaves such a state again: the float
    is still inside the board and on its cells, and the queue is
    empty unless the game was over. *)
Theorem keydown_never_raises (w h : nat) (g : Game) (fresh : Float) (a : action)
    (present : bool) :
  (1 ≤ w)%nat → (w ≤ h)%nat →
  playing w h g →
  float_inside w fresh → float_in_rows h fresh →
  ∃ g', keydown present fresh a g = (Ok Finished, g') ∧
    playing w h g' ∧
    (isGameOver (board g) = false → userActions g' = []).
Proof.
  intros Hw Hwh Hg Hfresh Hrows.
  apply (playing_on_board w h) in Hg as [Hg Hqueue].
  destruct g as [b gh gf queue]. cbn [board userActions] in Hqueue.
  unfold keydown, mbind, m_bind, push_userAction.
  cbn [board boardHighlight float userActions].
  destruct (step_safe w h Hw Hwh present fresh true b gh gf (queue ++ [a]) Hg Hfresh Hrows)
    as (p & g' & Hstep & Hg' & Hover & Hrunning & Hp).
  { intros Hnot. rewrite (Hqueue Hnot). simpl. lia. }
  rewrite Hstep, (Hp eq_refl). exists g'. split_and!; [done | | done].
  apply (playing_on_board w h). split; [done |].
  destruct (isGameOver b) eqn:Hb.
  - destruct (Hover eq_refl) as [-> _]. cbn [board]. congruence.
  - intros _. by apply Hrunning.
Qed.

Lemma keydown_never_raises_witness :
  let g := mkGame [[0; 0; 0]; [0; 0; 1]] [[0; 0; 0]; [0; 0; 0]]
             (Some (mkFloat [(0, 0); (1, 0)] 0 1)) [] in
  let fresh := mkFloat [(0, 0); (1, 0)] 0 0 in
  ∃ g', keydown true fresh ArrowUp g = (Ok Finished, g') ∧
    playing 2 3 g' ∧
    (isGameOver (board g) = false → userActions g' = []).
Proof.
  intros g fresh. apply (keydown_never_raises 2 3 g fresh ArrowUp true); [lia | lia | | |].
  - split.
    + split_and!.
      * split; [reflexivity | repeat constructor].
      * split; [reflexivity | repeat constructor].
      * intros f [= <-]. split_and!.
        -- right. split_and!.
           ++ exists (0, 0). split; [apply list_elem_of_here | reflexivity].
           ++ exists (0, 0). split; [apply list_elem_of_here | reflexivity].
           ++ repeat constructor; simpl; lia.
        -- discriminate.
        -- repeat constructor; simpl; lia.
        -- intros ht Hht. vm_compute in Hht. injection Hht as <-. lia.
      * reflexivity.
    + intros f [= <-]. repeat constructor; simpl; lia.
  - split_and!.
    + right. split_and!.
      * exists (0, 0). split; [apply list_elem_of_here | reflexivity].
      * exists (0, 0). split; [apply list_elem_of_here | reflexivity].
      * repeat constructor; simpl; lia.
    + discriminate.
    + repeat constructor; simpl; lia.
    + intros ht Hht. vm_compute in Hht. injection Hht as <-. lia.
  - repeat constructor; simpl; lia.
Defined.

Section runs.

Context (w h : nat).
Hypothesis Hw : (4 ≤ w)%nat.
Hypothesis Hwh : (w ≤ h)%nat.

Lemma made_float_fits (fresh : Float) :
  made_by_newFloat w fresh → float_inside w fresh ∧ float_in_rows h fresh.
Proof.
  intros (draws & Hdraws & Hfresh).
  destruct (proj2 (newFloat_facts w 4 draws) fresh Hfresh Hdraws ltac:(lia))
    as (Hinside & Hy & Htop & _).
  split; [done |]. unfold float_in_rows.
  eapply Forall_impl; [exact Htop |]. intros t Ht. simpl in *. lia.
Qed.

Lemma handle_safe (present : bool) (e : event) (wd : World) :
  playing w h (game wd) →
  (∀ fresh, fresh_of e = Some fresh → made_by_newFloat w fresh) →
  match e with
  | Wake k => is_Some (waiting wd !! k) → userActions (game wd) = []
  | _ => True
  end →
  ∃ wd', handle present e wd = Ok wd' ∧ playing w h (game wd').
Proof.
  intros Hg Hfresh Hwake. destruct wd as [g others]. cbn [game waiting] in *.
  destruct e as [fresh | a fresh | k]; cbn [handle game waiting].
  - destruct (made_float_fits fresh (Hfresh fresh eq_refl)) as [Hinside Hrows].
    apply (playing_on_board w h) in Hg as [Hg Hqueue].
    destruct g as [b gh gf queue]. cbn [board userActions] in Hqueue.
    destruct (step_safe w h ltac:(lia) Hwh present fresh false b gh gf queue
                Hg Hinside Hrows)
      as (p & g' & Hstep & Hg' & Hover & Hrunning & _).
    { intros Hnot. rewrite (Hqueue Hnot). simpl. lia. }
    rewrite Hstep.
    assert (Hplaying : playing w h g').
    { apply (playing_on_board w h). split; [done |].
      destruct (isGameOver b) eqn:Hb.
      - destruct (Hover eq_refl) as [-> _]. cbn [board userActions]. congruence.
      - intros _. by apply Hrunning. }
    destruct p; by eexists.
  - destruct (made_float_fits fresh (Hfresh fresh eq_refl)) as [Hinside Hrows].
    apply (playing_on_board w h) in Hg as [Hg Hqueue].
    destruct g as [b gh gf queue]. cbn [board userActions] in Hqueue.
    unfold keydown, mbind, m_bind, push_userAction.
    cbn [board boardHighlight float userActions].
    destruct (step_safe w h ltac:(lia) Hwh present fresh true b gh gf (queue ++ [a])
                Hg Hinside Hrows)
      as (p & g' & Hstep & Hg' & Hover & Hrunning & _).
    { intros Hnot. rewrite (Hqueue Hnot). simpl. lia. }
    rewrite Hstep.
    assert (Hplaying : playing w h g').
    { apply (playing_on_board w h). split; [done |].
      destruct (isGameOver b) eqn:Hb.
      - destruct (Hover eq_refl) as [-> _]. cbn [board]. congruence.
      - intros _. by apply Hrunning. }
    destruct p; by eexists.
  - destruct (others !! k) as [[score i]|] eqn:Hk; [| by eexists].
    specialize (Hwake ltac:(by eexists)).
    apply (playing_on_board w h) in Hg as [Hg _].
    destruct (stepResume_safe w h ltac:(lia) Hwh present score i g Hg)
      as (p & g' & Hstep & Hg' & Hq).
    rewrite Hstep.
    assert (Hplaying : playing w h g').
    { apply (playing_on_board w h). split; [done |]. intros _. congruence. }
    destruct p; by eexists.
Qed.

Lemma run_safe (present : bool) (events : list event) :
  ∀ wd,
  playing w h (game wd) →
  Forall (λ e, ∀ fresh, fresh_of e = Some fresh → made_by_newFloat w fresh) events →
  wakes_with_empty_queue present events wd →
  ∃ wd', run present events wd = Ok wd' ∧ playing w h (game wd').
Proof.
  induction events as [|e rest IH]; intros wd Hg Hfresh Hwakes.
  - by exists wd.
  - apply Forall_cons in Hfresh as [He Hrest].
    cbn [wakes_with_empty_queue] in Hwakes. destruct Hwakes as [Hwake Hlater].
    destruct (handle_safe present e wd Hg He) as (wd1 & Hhandle & Hg1).
    { by destruct e. }
    rewrite Hhandle in Hlater. cbn [run]. rewrite Hhandle. cbn [mbind res_bind].
    by apply IH.
Qed.

End runs.

(** The game as it runs, drawing included.  On a board at least four
    columns wide and at least as high as wide, with the floats that
    [newFloat(boardWidth)] makes from draws that are 0, 1 or 2: the
    game starts in a state whose float, if any, lies on cells of the
    board and whose queue is empty unless the game is over; from such
    a state, along every sequence of timer ticks, key presses and
    ends of waits in which no key is in the queue when a waiting tick
    is resumed, no handler raises, every call of [renderBoard]
    returns normally, and such a state is reached again. *)
Theorem game_runs_and_draws (w h : nat) (present : bool) (events : list event)
    (wd : World) :
  (4 ≤ w)%nat → (w ≤ h)%nat →
  playing w h (game wd) →
  Forall (λ e, ∀ fresh, fresh_of e = Some fresh → made_by_newFloat w fresh) events →
  wakes_with_empty_queue present events wd →
  playing w h (game (start w h)) ∧
  ∃ wd', run present events wd = Ok wd' ∧ playing w h (game wd').
Proof.
  intros Hw Hwh Hg Hfresh Hwakes. split.
  - split; [| done].
    split_and!; [apply newBoard_dims | apply newBoard_dims | done | done].
  - by apply (run_safe w h Hw Hwh).
Qed.

Lemma game_runs_and_draws_witness :
  ∃ wd', run true (filling ++ [Timer bar; Wake 0; Wake 0]) (start 10 20) = Ok wd' ∧
    playing 10 20 (game wd').
Proof.
  destruct (game_runs_and_draws 10 20 true (filling ++ [Timer bar; Wake 0; Wake 0])
              (start 10 20)) as [_ Hrun];
    [lia | lia | | | | exact Hrun].
  - split; [| done].
    split_and!; [apply newBoard_dims | apply newBoard_dims | done | done].
  - assert (Hsquare : made_by_newFloat 10 square).
    { exists [2; 1; 2; 0]. split; [repeat constructor; lia | vm_compute; reflexivity]. }
    assert (Hhook : made_by_newFloat 10 hook).
    { exists [1; 2; 1; 2; 2]. split; [repeat constructor; lia | vm_compute; reflexivity]. }
    assert (Hbar : made_by_newFloat 10 bar).
    { exists [1; 2; 1; 2; 1; 2].
      split; [repeat constructor; lia | vm_compute; reflexivity]. }
    unfold filling, press. cbn [map app].
    repeat (apply Forall_cons_2; [by intros fresh [= <-] |]). apply Forall_nil_2.
  - vm_compute. repeat split; reflexivity.
Defined.

(** Without that condition the game can raise.  On the board of 10
    columns of 20 cells, with floats that [newFloat(10)] makes: the
    drop key pressed while a tick waits ends the game, four more keys
    stay in the queue, the resumed tick removes a row, and the next
    tick applies the four keys at once, which sends the float past the
    last column: [renderBoard] raises a [TypeError]. *)
Theorem interrupted_tick_raises (present : bool) :
  Forall (made_by_newFloat 10) [square; hook; bar] ∧
  playing 10 20 (game (start 10 20)) ∧
  run present raising (start 10 20) = Err TypeError ∧
  ¬ wakes_with_empty_queue present raising (start 10 20).
Proof.
  split_and!.
  - repeat apply Forall_cons_2; [| | | apply Forall_nil_2].
    + exists [2; 1; 2; 0]. split; [repeat constructor; lia | vm_compute; reflexivity].
    + exists [1; 2; 1; 2; 2]. split; [repeat constructor; lia | vm_compute; reflexivity].
    + exists [1; 2; 1; 2; 1; 2].
      split; [repeat constructor; lia | vm_compute; reflexivity].
  - split; [| done].
    split_and!; [apply newBoard_dims | apply newBoard_dims | done | done].
  - destruct present; vm_compute; reflexivity.
  - destruct present; vm_compute; intros Hwakes; decompose [and] Hwakes;
      match goal with H : _ → ?queue = [] |- _ =>
        assert (Hqueue : queue = []) by (apply H; eexists; reflexivity);
        discriminate Hqueue
      end.
Qed.
